(** * wg-dynamic: the message layer of [common.c]

    A shallow embedding of the line tokenizer, the value decoder, the request
    accumulator and the connection driver of [common.c], of its output
    formatter [print_to_buf], of [is_link_local] and of the netlink attribute
    callback [data_attr_cb], followed by the properties proved about them.

    Conventions.
    - A buffer [unsigned char *buf, size_t len] is the list of its [len]
      bytes.  A C string ([char *]) is read up to its first NUL byte; the
      end of a list counts as the terminator.
    - An [enum wg_dynamic_key] is its integer value, a [nat].
    - [ssize_t] and [int] results are integers in [Z]; errors are negated
      [errno] values.
    - The singly linked attribute list [first]/[last] of a request is a
      [list]; [last] is its last element.
    - [malloc] does not fail (the code calls [fatal] otherwise); [BUG()]
      aborts the process and is the outcome [Abort].
    - Where the code can store past the end of an array, the array is
      kept with its size, and such a store is the outcome [Undefined]: the
      array behind the [buf] of [parse_request], the pending block of
      [send_message], the table of [data_attr_cb]. *)

From Stdlib Require Import String Strings.Byte.
From Stdlib Require Import List ZArith Lia Bool Arith.
Import ListNotations.

Local Open Scope Z_scope.

(** ** Outcomes of a run *)

(** A value; the process aborted by [BUG()]; undefined behaviour (a store
    outside the block it is aimed at); or a loop cut short because the
    environment had no further answer. *)
Inductive exec (A : Type) : Type :=
| Ret (a : A)
| Abort
| Undefined
| OutOfFuel.

Arguments Ret {A} a.
Arguments Abort {A}.
Arguments Undefined {A}.
Arguments OutOfFuel {A}.

Definition bind {A B : Type} (m : exec A) (k : A -> exec B) : exec B :=
  match m with
  | Ret a => k a
  | Abort => Abort
  | Undefined => Undefined
  | OutOfFuel => OutOfFuel
  end.

Notation "x <- m ;; k" := (bind m (fun x => k))
  (at level 61, m at next level, right associativity).

(** ** Constants of the C library (Linux) *)

Definition E2BIG : Z := 7.
Definition EINVAL : Z := 22.
Definition ENOENT : Z := 2.
Definition EAGAIN : Z := 11.
Definition EWOULDBLOCK : Z := 11.
Definition EPROTONOSUPPORT : Z := 93.

Definition AF_INET : Z := 2.
Definition AF_INET6 : Z := 10.

Definition UINT8_MAX : Z := 255.
Definition UINT32_MAX : Z := 4294967295.
Definition UINTMAX_MAX : Z := 18446744073709551615.

Definition NUL : byte := x00.
Definition NL : byte := x0a.
Definition EQUALS : byte := x3d.
Definition SLASH : byte := x2f.
Definition PLUS : byte := x2b.
Definition MINUS : byte := x2d.

(** ** The C library functions the code calls *)

(** [memchr(buf, c, n)]: offset of the first [c] among the first [n] bytes. *)
Fixpoint memchr (c : byte) (n : nat) (buf : list byte) : option nat :=
  match n, buf with
  | S m, b :: rest =>
      if Byte.eqb b c then Some O
      else match memchr c m rest with
           | Some k => Some (S k)
           | None => None
           end
  | _, _ => None
  end.

(** The characters of the C string that starts at the head of [s]. *)
Fixpoint cstr (s : list byte) : list byte :=
  match s with
  | [] => []
  | b :: rest => if Byte.eqb b NUL then [] else b :: cstr rest
  end.

(** [strchr(s, c)] for [c <> NUL]: offset of the first [c] in the string. *)
Definition strchr (c : byte) (s : list byte) : option nat :=
  memchr c (length (cstr s)) (cstr s).

(** [strcmp(a, b) == 0]. *)
Fixpoint bytes_eqb (a b : list byte) : bool :=
  match a, b with
  | [], [] => true
  | x :: a', y :: b' => Byte.eqb x y && bytes_eqb a' b'
  | _, _ => false
  end.

Definition streq (a b : list byte) : bool := bytes_eqb (cstr a) (cstr b).

(** [isspace] and [isdigit] in the C locale. *)
Definition isspace (b : byte) : bool :=
  let n := Byte.to_N b in
  (N.eqb n 32 || (N.leb 9 n && N.leb n 13))%bool.

Definition isdigit (b : byte) : bool :=
  let n := Byte.to_N b in (N.leb 48 n && N.leb n 57)%bool.

Definition digit_value (b : byte) : Z := Z.of_N (Byte.to_N b) - 48.

(** Length of the longest prefix whose bytes all satisfy [p]. *)
Fixpoint span_length (p : byte -> bool) (s : list byte) : nat :=
  match s with
  | b :: rest => if p b then S (span_length p rest) else O
  | [] => O
  end.

(** Value of a run of decimal digits, most significant first. *)
Definition decimal (ds : list byte) : Z :=
  fold_left (fun acc d => 10 * acc + digit_value d) ds 0.

(** [strtoumax(s, &endptr, 10)] with a 64-bit [uintmax_t]: skip white space,
    take an optional sign and the longest run of digits.  The result is the
    value and the offset of [endptr] from [s].  Without a digit nothing is
    converted and [endptr = s].  A magnitude that does not fit yields
    [UINTMAX_MAX]; a leading minus negates the value modulo 2^64. *)
Definition strtoumax (s : list byte) : Z * nat :=
  let ws := span_length isspace s in
  let s1 := skipn ws s in
  let neg := match s1 with b :: _ => Byte.eqb b MINUS | [] => false end in
  let sg := match s1 with
            | b :: _ => if (Byte.eqb b MINUS || Byte.eqb b PLUS)%bool
                        then 1%nat else 0%nat
            | [] => 0%nat
            end in
  let s2 := skipn sg s1 in
  let nd := span_length isdigit s2 in
  match nd with
  | O => (0, O)
  | _ =>
      let v := decimal (firstn nd s2) in
      let r := if UINTMAX_MAX <? v then UINTMAX_MAX
               else if neg then (UINTMAX_MAX + 1 - v) mod (UINTMAX_MAX + 1)
               else v in
      (r, (ws + sg + nd)%nat)
  end.

(** [*endptr] for [endptr = s + off]. *)
Definition deref (s : list byte) (off : nat) : byte := nth off s NUL.

(** ** The declarations of [common.h] *)

(** Modelled from the spec: [common.h] is not among the sources.  The key
    enumeration has the sentinel "unknown" first, then the command keys, the
    boundary marker [WGKEY_ENDCMD], the sentinel "incomplete" and the six
    attribute keys; the names of the attribute keys are those of the wire
    format table, the command name is the one of the spec's examples, and
    the sentinels and the marker have the empty name. *)
Definition WGKEY_UNKNOWN : nat := 0.
Definition WGKEY_REQUEST : nat := 1.
Definition WGKEY_ENDCMD : nat := 2.
Definition WGKEY_INCOMPLETE : nat := 3.
Definition WGKEY_IPV4 : nat := 4.
Definition WGKEY_IPV6 : nat := 5.
Definition WGKEY_LEASESTART : nat := 6.
Definition WGKEY_LEASETIME : nat := 7.
Definition WGKEY_ERRNO : nat := 8.
Definition WGKEY_ERRMSG : nat := 9.

Definition str (s : string) : list byte := list_byte_of_string s.

Definition WG_DYNAMIC_KEY : list (list byte) :=
  [ []; str "request"; []; []; str "ipv4"; str "ipv6";
    str "leasestart"; str "leasetime"; str "errno"; str "errmsg" ].

(** [struct wg_combined_ip]: address family, address bytes, prefix length. *)
Record wg_combined_ip : Type := {
  family : Z;
  ip : list byte;
  cidr : Z
}.

(** The payload of an attribute: the member of the [data] union of
    [parse_value] that was written, or the raw bytes of a fragment. *)
Inductive attr_data : Type :=
| D_ip (c : wg_combined_ip)
| D_uint32 (n : Z)
| D_errmsg (s : list byte)
| D_raw (s : list byte).

(** [struct wg_dynamic_attr] without its [next] pointer. *)
Record wg_dynamic_attr : Type := {
  key : nat;
  len : nat;
  value : attr_data
}.

(** [struct wg_dynamic_request].  [buf] is the heap block of the pending
    write ([None] is the null pointer) with all the bytes allocated for it;
    [attrs] is the list from [first] to [last]. *)
Record wg_dynamic_request : Type := {
  cmd : nat;
  fd : Z;
  version : Z;
  buf : option (list byte);
  buflen : nat;
  attrs : list wg_dynamic_attr
}.

(** [buf[i] = b], an in-place store; nothing is written out of range. *)
Fixpoint store (i : nat) (b : byte) (buf : list byte) : list byte :=
  match i, buf with
  | O, _ :: rest => b :: rest
  | S j, x :: rest => x :: store j b rest
  | _, [] => []
  end.

(** [strncpy(dst, src, n)]: the [n] bytes written to [dst]. *)
Definition strncpy (n : nat) (src : list byte) : list byte :=
  firstn n (cstr src ++ repeat NUL n).

(** The result of [parse_line]: the returned [ssize_t], the attribute stored
    through [attr] and the request as the call leaves it. *)
Record line_result : Type := {
  lr_ret : Z;
  lr_attr : option wg_dynamic_attr;
  lr_req : option wg_dynamic_request
}.

(** ** The socket as the code sees it *)

(** One [read]: the bytes obtained (none at all when the peer has closed),
    or the [errno] of a failure. *)
Inductive read_result : Type :=
| ReadOk (data : list byte)
| ReadFail (errno : Z).

(** One [write]: the number of bytes the socket has room for, or the [errno]
    of a failure. *)
Inductive write_result : Type :=
| WriteOk (room : nat)
| WriteFail (errno : Z).

(** How [handle_request] ends: by the tail call of a callback, or by a plain
    [return]. *)
Inductive handled : Type :=
| CallError (req : wg_dynamic_request) (reason : Z)
| CallSuccess (req : wg_dynamic_request)
| Returned (b : bool) (req : wg_dynamic_request).

Definition would_block (errno : Z) : bool :=
  ((errno =? EWOULDBLOCK) || (errno =? EAGAIN))%bool.

(** ** [send_message] *)

(** The [while (1)] loop: [Some offset] when it is left by [break], [None]
    when the function returns [true] from inside it.  The loop runs as long
    as the socket answers. *)
Fixpoint write_loop (writes : list write_result) (len_ offset : nat)
  : exec (option nat) :=
  match writes with
  | [] => OutOfFuel
  | WriteFail e :: rest =>
      if would_block e then Ret (Some offset) else Ret None
  | WriteOk room :: rest =>
      let written := Nat.min room (len_ - offset) in
      let offset' := (offset + written)%nat in
      if (offset' =? len_)%nat then Ret None
      else write_loop rest len_ offset'
  end.

Definition set_buf (r : wg_dynamic_request) (b : option (list byte)) (n : nat)
  : wg_dynamic_request :=
  {| cmd := cmd r; fd := fd r; version := version r; buf := b; buflen := n;
     attrs := attrs r |}.

(** [memmove(block, src, n)] with [n] the length of [src]: the block
    afterwards.  Writing past the end of the block is undefined. *)
Definition memmove_into (block src : list byte) : exec (list byte) :=
  if (length src <=? length block)%nat
  then Ret (src ++ skipn (length src) block)
  else Undefined.

Definition send_message (writes : list write_result)
  (req : wg_dynamic_request) (data : list byte)
  : exec (bool * wg_dynamic_request) :=
  o <- write_loop writes (length data) 0 ;;
  match o with
  | None => Ret (true, req)
  | Some offset =>
      let rest := skipn offset data in
      match buf req with
      | None => Ret (false, set_buf req (Some rest) (length data - offset))
      | Some block =>
          block' <- memmove_into block rest ;;
          Ret (false, set_buf req (Some block') (length data - offset))
      end
  end.

(** ** [close_connection] *)

(** What [free] is called on. *)
Inductive freed : Type :=
| FreedAttr (a : wg_dynamic_attr)
| FreedBuf (block : list byte).

(** Modelled from the spec: the code that sets a request up before a
    connection is accepted is not among the sources; its state has every
    field zero or unset, the descriptor being the invalid one. *)
Definition unset_request : wg_dynamic_request :=
  {| cmd := WGKEY_UNKNOWN; fd := -1; version := 0; buf := None; buflen := 0;
     attrs := [] |}.

(** The walk over the list that frees each node. *)
Fixpoint free_attrs (cur : list wg_dynamic_attr) : list freed :=
  match cur with
  | [] => []
  | prev :: rest => FreedAttr prev :: free_attrs rest
  end.

(** The request afterwards and the blocks freed, in order.  The result of
    [close] only decides whether a debug line is printed. *)
Definition close_connection (close_failed : bool) (req : wg_dynamic_request)
  : wg_dynamic_request * list freed :=
  let nodes := free_attrs (attrs req) in
  let block := match buf req with
               | Some b => [FreedBuf b]
               | None => []
               end in
  ({| cmd := WGKEY_UNKNOWN; version := 0; fd := -1; buf := None; buflen := 0;
      attrs := [] |},
   nodes ++ block).

(** ** An [inet_pton] for dotted-quad IPv4 text *)

(** One octet: one to three digits, no leading zero, at most 255. *)
Definition octet (s : list byte) : option byte :=
  match s with
  | [] => None
  | d :: rest =>
      if (forallb isdigit s
          && (length s <=? 3)%nat
          && negb (Byte.eqb d x30 && negb (length rest =? 0)%nat))%bool
      then Byte.of_N (Z.to_N (decimal s))
      else None
  end.

(** The pieces of [s] between the dots, given the piece read so far. *)
Fixpoint split_dots (cur s : list byte) : list (list byte) :=
  match s with
  | [] => [cur]
  | b :: rest =>
      if Byte.eqb b x2e then cur :: split_dots [] rest
      else split_dots (cur ++ [b]) rest
  end.

Definition inet_pton4 (src : list byte) : option (list byte) :=
  match map octet (split_dots [] src) with
  | [Some a; Some b; Some c; Some d] => Some [a; b; c; d]
  | _ => None
  end.

(** Used to run the decoder on concrete text: IPv4 only. *)
Definition inet_pton_v4 (af : Z) (src : list byte) : option (list byte) :=
  if af =? AF_INET then inet_pton4 src else None.

(** ** [print_to_buf] *)

(** [dst[at_ ..] = src]: a store of the bytes of [src] inside the array. *)
Definition overwrite (at_ : nat) (src dst : list byte) : list byte :=
  firstn at_ dst ++ src ++ skipn (at_ + length src) dst.

(** [vsnprintf(buf + offset, size, fmt, ap)] when the formatted text is
    [text]: at most [size - 1] bytes of it and a NUL are stored; nothing is
    stored when [size] is 0. *)
Definition vsnprintf_at (offset size : nat) (text buf_ : list byte)
  : list byte :=
  match size with
  | O => buf_
  | S room => overwrite offset (firstn room text ++ [NUL]) buf_
  end.

(** [buf_] is the array of [bufsize] bytes, [offset] the value of [*offset],
    [formatted] the text [vsnprintf] makes of [fmt] and its arguments, or
    [None] when it reports an error.  The result is the array and [*offset]
    afterwards.  [fatal] and [BUG()] both end the process; when [*offset]
    exceeds [bufsize] the size given to [vsnprintf] wraps around and the
    store falls outside the array. *)
Definition print_to_buf (buf_ : list byte) (bufsize offset : nat)
  (formatted : option (list byte)) : exec (list byte * nat) :=
  if (bufsize <? offset)%nat then Undefined
  else
    match formatted with
    | None => Abort
    | Some text =>
        let n := length text in
        let buf' := vsnprintf_at offset (bufsize - offset) text buf_ in
        if (bufsize <=? n + offset)%nat then Abort
        else Ret (buf', (offset + n)%nat)
    end.

(** Successive calls on one array and one [offset] variable, as a caller
    makes them to build a message. *)
Fixpoint print_all (buf_ : list byte) (bufsize offset : nat)
  (texts : list (list byte)) : exec (list byte * nat) :=
  match texts with
  | [] => Ret (buf_, offset)
  | text :: rest =>
      r <- print_to_buf buf_ bufsize offset (Some text) ;;
      print_all (fst r) bufsize (snd r) rest
  end.

(** ** [is_link_local] *)

(** [IN6_IS_ADDR_LINKLOCAL(addr)]: the first 32-bit word of the address,
    masked with [ffc00000], is [fe800000]; that is, the first byte is [fe]
    and the two high bits of the second are [10].  [addr] holds the 16
    bytes of the address. *)
Definition is_link_local (addr : list byte) : bool :=
  match addr with
  | b0 :: b1 :: _ =>
      (N.eqb (Byte.to_N b0) 254
       && N.eqb (N.land (Byte.to_N b1) 192) 128)%bool
  | _ => false
  end.

(** ** [data_attr_cb] *)

(** [struct nlattr] with its payload. *)
Record nlattr : Type := {
  nla_len : Z;
  nla_type : Z;
  nla_payload : list byte
}.

Definition NLA_TYPE_MASK : Z := 16383.
Definition MNL_CB_ERROR : Z := -1.
Definition MNL_CB_OK : Z := 1.
Definition IFA_ADDRESS : Z := 1.

(** [mnl_attr_get_type]: the type without its two flag bits. *)
Definition mnl_attr_get_type (attr : nlattr) : Z :=
  Z.land (nla_type attr) NLA_TYPE_MASK.

(** [mnl_attr_type_valid(attr, max)]: -1 when the type is above [max]. *)
Definition mnl_attr_type_valid (attr : nlattr) (max : Z) : Z :=
  if max <? mnl_attr_get_type attr then -1 else 1.

(** [tb[i] = v]; [None] when [i] is outside the array. *)
Fixpoint table_set {A : Type} (i : nat) (v : A) (tb : list A)
  : option (list A) :=
  match i, tb with
  | O, _ :: rest => Some (v :: rest)
  | S j, x :: rest =>
      match table_set j v rest with
      | Some rest' => Some (x :: rest')
      | None => None
      end
  | _, [] => None
  end.

(** [ifa_max] is [IFA_MAX] of the kernel headers, [validate_binary attr] the
    result of [mnl_attr_validate(attr, MNL_TYPE_BINARY)], [tb] the array
    behind [data].  The result is the returned [int] and the array
    afterwards. *)
Definition data_attr_cb (ifa_max : Z) (validate_binary : nlattr -> Z)
  (attr : nlattr) (tb : list (option nlattr))
  : exec (Z * list (option nlattr)) :=
  let type := mnl_attr_get_type attr in
  if mnl_attr_type_valid attr ifa_max <? 0 then Ret (MNL_CB_OK, tb)
  else if ((type =? IFA_ADDRESS) && (validate_binary attr <? 0))%bool
  then Ret (MNL_CB_ERROR, tb)
  else
    match table_set (Z.to_nat type) (Some attr) tb with
    | Some tb' => Ret (MNL_CB_OK, tb')
    | None => Undefined
    end.

(** ** Notions used by the statements on writes and numbers *)

(** The bytes of a request that wait to be written. *)
Definition pending_bytes (r : wg_dynamic_request) : list byte :=
  match buf r with
  | Some block => firstn (buflen r) block
  | None => []
  end.

(** The pending block holds at least [buflen] bytes. *)
Definition pending_fits (r : wg_dynamic_request) : Prop :=
  match buf r with
  | Some block => (buflen r <= length block)%nat
  | None => True
  end.

(** The digit for [d], from 0 to 9. *)
Definition digit_byte (d : Z) : byte :=
  nth (Z.to_nat d) [x30; x31; x32; x33; x34; x35; x36; x37; x38; x39] x30.

(** The base-10 digits of [n], at most [fuel] of them, without leading
    zeros. *)
Fixpoint decimal_digits (fuel : nat) (n : Z) : list byte :=
  match fuel with
  | O => []
  | S fuel' =>
      if n <? 10 then [digit_byte n]
      else decimal_digits fuel' (n / 10) ++ [digit_byte (n mod 10)]
  end.

(** The text of an unsigned number of up to 64 bits, as [%u] prints it. *)
Definition decimal_text (n : Z) : list byte := decimal_digits 20 n.

(** ** Concrete text *)

(** A line of the wire format: the text and its newline. *)
Definition line (s : string) : list byte := str s ++ [NL].

(** A request as it is when a connection has just been accepted on
    descriptor 3. *)
Definition accepted : wg_dynamic_request :=
  {| cmd := WGKEY_UNKNOWN; fd := 3; version := 0; buf := None; buflen := 0;
     attrs := [] |}.

(** The size of a read in the examples; lines are of 4096 bytes. *)
Definition recv_bufsize : nat := 4096 + 4096.

(** A request of 8529 bytes as two reads give it: the command line and the
    first 4007 bytes of an error message of 4017; then the rest of that
    line, 300 lease times and the blank line. *)
Definition long_request_head : list byte :=
  line "request=1" ++ str "errmsg=" ++ repeat x61 4000.

Definition long_request_tail : list byte :=
  repeat x61 10 ++ [NL] ++ concat (repeat (line "leasetime=3600") 300) ++ [NL].

Section Common.

(** [MAX_LINESIZE], [RECV_BUFSIZE] and the size of [struct wg_combined_ip]
    come from [common.h]; [inet_pton] is the C library's: the address bytes
    when it returns 1, [None] otherwise. *)
Variable MAX_LINESIZE : nat.
Variable RECV_BUFSIZE : nat.
Variable SIZEOF_COMBINED_IP : nat.
Variable inet_pton : Z -> list byte -> option (list byte).

(** ** [parse_ip_cidr] *)

(** [value] is a C string.  [Some] is the structure written with result
    [true]; [None] is the result [false]. *)
Definition parse_ip_cidr (ip_ : wg_combined_ip) (value : list byte)
  : option wg_combined_ip :=
  if Byte.eqb (deref value 0) NUL then
    Some {| family := family ip_;
            ip := repeat NUL (if family ip_ =? AF_INET then 4 else 16);
            cidr := 0 |}
  else
    match strchr SLASH value with
    | None => None
    | Some sep =>
        (* *sep = '\0' *)
        match inet_pton (family ip_) (firstn sep (cstr value)) with
        | None => None
        | Some addr =>
            let suffix := skipn (S sep) (cstr value) in
            let '(res, endptr) := strtoumax suffix in
            if ((UINT8_MAX <? res)
                || negb (Byte.eqb (deref suffix endptr) NUL)
                || (endptr =? 0)%nat)%bool
            then None
            else Some {| family := family ip_; ip := addr; cidr := res |}
        end
    end.

(** ** [parse_value] *)

(** [value] is a C string.  [Ret None] is the null pointer, [Abort] the
    [BUG()] of the default case.  Of the zeroed [data.ip] only the family
    is given to [parse_ip_cidr]: every path of it that succeeds writes the
    address and the prefix length. *)
Definition parse_value (key_ : nat) (value : list byte)
  : exec (option wg_dynamic_attr) :=
  if (key_ =? WGKEY_IPV4)%nat then
    match parse_ip_cidr {| family := AF_INET; ip := []; cidr := 0 |} value with
    | None => Ret None
    | Some c =>
        Ret (Some {| key := key_; len := SIZEOF_COMBINED_IP; value := D_ip c |})
    end
  else if (key_ =? WGKEY_IPV6)%nat then
    match parse_ip_cidr {| family := AF_INET6; ip := []; cidr := 0 |} value with
    | None => Ret None
    | Some c =>
        Ret (Some {| key := key_; len := SIZEOF_COMBINED_IP; value := D_ip c |})
    end
  else if ((key_ =? WGKEY_LEASESTART) || (key_ =? WGKEY_LEASETIME)
           || (key_ =? WGKEY_ERRNO))%nat%bool then
    let '(uresult, endptr) := strtoumax (cstr value) in
    if ((UINT32_MAX <? uresult)
        || negb (Byte.eqb (deref (cstr value) endptr) NUL))%bool
    then Ret None
    else Ret (Some {| key := key_; len := 4; value := D_uint32 uresult |})
  else if (key_ =? WGKEY_ERRMSG)%nat then
    let errmsg := strncpy 71 value ++ [NUL] in
    let len_ := Nat.min 72 (length (cstr value) + 1) in
    Ret (Some {| key := key_; len := len_;
                 value := D_errmsg (firstn len_ errmsg) |})
  else Abort.

(** ** [parse_key] *)

Fixpoint parse_key_from (e : nat) (names : list (list byte)) (key_ : list byte)
  : nat :=
  match names with
  | [] => WGKEY_UNKNOWN
  | name :: rest =>
      if streq key_ name then e else parse_key_from (S e) rest key_
  end.

(** The loop starts at entry 1 of the table. *)
Definition parse_key (key_ : list byte) : nat :=
  parse_key_from 1 (tl WG_DYNAMIC_KEY) key_.

(** ** [parse_line] *)

Definition set_cmd (r : wg_dynamic_request) (k : nat) (v : Z)
  : wg_dynamic_request :=
  {| cmd := k; fd := fd r; version := v; buf := buf r; buflen := buflen r;
     attrs := attrs r |}.

Definition incomplete (bytes : list byte) : wg_dynamic_attr :=
  {| key := WGKEY_INCOMPLETE; len := length bytes; value := D_raw bytes |}.

(** [buf_] holds the [len] bytes at [buf]; [req] is [None] for the null
    pointer. *)
Definition parse_line (buf_ : list byte) (req : option wg_dynamic_request)
  : exec line_result :=
  let len_ := length buf_ in
  let fail (e : Z) (r : option wg_dynamic_request) :=
    Ret {| lr_ret := - e; lr_attr := None; lr_req := r |} in
  match memchr NL (if (MAX_LINESIZE <? len_)%nat then MAX_LINESIZE else len_)
               buf_ with
  | None =>
      if (MAX_LINESIZE <=? len_)%nat then fail E2BIG req
      else Ret {| lr_ret := Z.of_nat len_;
                  lr_attr := Some (incomplete buf_);
                  lr_req := req |}
  | Some O => Ret {| lr_ret := 0; lr_attr := None; lr_req := req |}
  | Some line_end =>
      let buf1 := store line_end NUL buf_ in
      let line_len := S line_end in
      match memchr EQUALS (line_len - 1) buf1 with
      | None => fail EINVAL req
      | Some key_end =>
          let buf2 := store key_end NUL buf1 in
          let key_ := parse_key buf2 in
          if (key_ =? WGKEY_UNKNOWN)%nat then fail ENOENT req
          else
            match req with
            | Some r =>
                if (WGKEY_ENDCMD <=? key_)%nat then fail ENOENT req
                else
                  let text := cstr (skipn (S key_end) buf2) in
                  let '(res, endptr) := strtoumax text in
                  if ((UINT32_MAX <? res)
                      || negb (Byte.eqb (deref text endptr) NUL))%bool
                  then fail EINVAL req
                  else
                    let r' := set_cmd r key_ res in
                    if negb (version r' =? 1)
                    then fail EPROTONOSUPPORT (Some r')
                    else Ret {| lr_ret := Z.of_nat line_len;
                                lr_attr := None;
                                lr_req := Some r' |}
            | None =>
                if (key_ <=? WGKEY_ENDCMD)%nat then fail ENOENT req
                else
                  a <- parse_value key_ (skipn (S key_end) buf2) ;;
                  match a with
                  | None => fail EINVAL req
                  | Some _ => Ret {| lr_ret := Z.of_nat line_len;
                                     lr_attr := a;
                                     lr_req := req |}
                  end
            end
      end
  end.

(** ** [parse_request] *)

Definition set_attrs (r : wg_dynamic_request) (l : list wg_dynamic_attr)
  : wg_dynamic_request :=
  {| cmd := cmd r; fd := fd r; version := version r; buf := buf r;
     buflen := buflen r; attrs := l |}.

Definition is_incomplete (a : wg_dynamic_attr) : bool :=
  (key a =? WGKEY_INCOMPLETE)%nat.

Definition raw_bytes (a : wg_dynamic_attr) : list byte :=
  match value a with
  | D_raw s => s
  | _ => []
  end.

(** The [while (len > 0)] loop on the bytes from [buf + offset] on.  One
    unit of [fuel] is spent per iteration. *)
Fixpoint parse_loop (fuel : nat) (req : wg_dynamic_request) (rest : list byte)
  : exec (Z * wg_dynamic_request) :=
  match rest with
  | [] => Ret (1, req)
  | _ :: _ =>
      match fuel with
      | O => OutOfFuel
      | S fuel' =>
          res <- parse_line rest
                   (if (cmd req =? WGKEY_UNKNOWN)%nat then Some req else None) ;;
          let req1 := match lr_req res with Some r => r | None => req end in
          if lr_ret res <=? 0 then Ret (lr_ret res, req1)
          else
            let rest' := skipn (Z.to_nat (lr_ret res)) rest in
            match lr_attr res with
            | None => parse_loop fuel' req1 rest'
            | Some a => parse_loop fuel' (set_attrs req1 (attrs req1 ++ [a])) rest'
            end
      end
  end.

(** [req->last], [None] when the list is empty. *)
Fixpoint last_attr (l : list wg_dynamic_attr) : option wg_dynamic_attr :=
  match l with
  | [] => None
  | [a] => Some a
  | _ :: rest => last_attr rest
  end.

(** [req->last && req->last->key == WGKEY_INCOMPLETE] *)
Definition has_fragment (req : wg_dynamic_request) : bool :=
  match last_attr (attrs req) with
  | Some a => is_incomplete a
  | None => false
  end.

(** The [req->last->len] bytes of the fragment left by the previous call. *)
Definition pending_fragment (req : wg_dynamic_request) : list byte :=
  match last_attr (attrs req) with
  | Some a => if is_incomplete a then raw_bytes a else []
  | None => []
  end.

(** The request once the fragment node is unlinked and freed. *)
Definition unlink_fragment (req : wg_dynamic_request) : wg_dynamic_request :=
  if has_fragment req then set_attrs req (removelast (attrs req)) else req.

(** The offset from [buf], in the array behind it, of the end of what the
    [memmove] of the splice stores: it stores at [buf + req->last->len] the
    [len] bytes at [buf], [len] being the length of the chunk already
    increased by that of the fragment. *)
Definition splice_end (req : wg_dynamic_request) (chunk : list byte) : nat :=
  (length (pending_fragment req)
   + (length chunk + length (pending_fragment req)))%nat.

(** [buf_] holds the [len] bytes at [buf], and [room] is the number of
    bytes, from [buf] on, of the array that [buf] points into.  With a
    fragment pending, the [memmove] stores up to [splice_end]: beyond
    [room] that is a store outside the array.  Within it, the [len] bytes at
    [buf] are afterwards the fragment followed by the chunk; what the
    [memmove] leaves after them is not read. *)
Definition parse_request (room : nat) (req : wg_dynamic_request)
  (buf_ : list byte) : exec (Z * wg_dynamic_request) :=
  match memchr NUL (length buf_) buf_ with
  | Some _ => Ret (- EINVAL, req)
  | None =>
      if has_fragment req then
        if (room <? splice_end req buf_)%nat then Undefined
        else
          let spliced := pending_fragment req ++ buf_ in
          parse_loop (length spliced) (unlink_fragment req) spliced
      else parse_loop (length buf_) req buf_
  end.

(** The calls of [parse_request] that the read loop of [handle_request]
    makes on the chunks it reads into its array, up to the first result
    that is not positive.  A [read] of [RECV_BUFSIZE] bytes has no longer
    answer. *)
Fixpoint feed (req : wg_dynamic_request) (chunks : list (list byte))
  : exec (Z * wg_dynamic_request) :=
  match chunks with
  | [] => Ret (1, req)
  | chunk :: rest =>
      if (RECV_BUFSIZE <? length chunk)%nat then OutOfFuel
      else
        res <- parse_request (RECV_BUFSIZE + MAX_LINESIZE) req chunk ;;
        if 0 <? fst res then feed (snd res) rest else Ret res
  end.

(** ** [handle_request] *)

(** [reads] are the results of the successive [read] calls into the array
    [buf] of [RECV_BUFSIZE + MAX_LINESIZE] bytes; the loop runs as long as
    there are any.  A [read] of [RECV_BUFSIZE] bytes gives that many at
    most: a longer answer is none.  The [debug] lines are not kept. *)
Fixpoint handle_request (reads : list read_result) (req : wg_dynamic_request)
  : exec handled :=
  match reads with
  | [] => OutOfFuel
  | ReadFail e :: _ =>
      if would_block e then Ret (Returned false req)
      else Ret (Returned true req)
  | ReadOk [] :: _ => Ret (Returned true req)
  | ReadOk data :: rest =>
      if (RECV_BUFSIZE <? length data)%nat then OutOfFuel
      else
        res <- parse_request (RECV_BUFSIZE + MAX_LINESIZE) req data ;;
        if fst res <? 0 then Ret (CallError (snd res) (- fst res))
        else if fst res =? 0 then Ret (CallSuccess (snd res))
        else handle_request rest (snd res)
  end.

(** ** Notions used by the statements *)

(** The number of bytes [parse_line] scans for the newline. *)
Definition scan_bound (x : list byte) : nat :=
  if (MAX_LINESIZE <? length x)%nat then MAX_LINESIZE else length x.

(** The request a call of [parse_line] leaves differs from the one it was
    given in [cmd] and [version] only. *)
Definition same_but_cmd (o o' : option wg_dynamic_request) : Prop :=
  match o, o' with
  | None, None => True
  | Some r, Some r' =>
      fd r' = fd r /\ buf r' = buf r /\ buflen r' = buflen r /\
      attrs r' = attrs r
  | _, _ => False
  end.

(** No node of the list is a fragment. *)
Definition no_sentinel (l : list wg_dynamic_attr) : Prop :=
  forallb (fun a => negb (is_incomplete a)) l = true.

(** At most one fragment, and only as the last node. *)
Definition sentinel_inv (r : wg_dynamic_request) : Prop :=
  no_sentinel (removelast (attrs r)).

(** The request argument of [parse_line] in the loop. *)
Definition line_mode (req : wg_dynamic_request) : option wg_dynamic_request :=
  if (cmd req =? WGKEY_UNKNOWN)%nat then Some req else None.

(** The guard of [parse_request] lets the chunk through. *)
Definition nul_free (x : list byte) : Prop :=
  memchr NUL (length x) x = None.

(** The [memmove] of the splice, if there is one, stays inside the array of
    [room] bytes. *)
Definition fits (room : nat) (r : wg_dynamic_request) (x : list byte)
  : Prop :=
  has_fragment r = true -> (splice_end r x <= room)%nat.

(** The [memmove] of the splice leaves the array of [room] bytes. *)
Definition overruns (room : nat) (r : wg_dynamic_request) (x : list byte)
  : Prop :=
  nul_free x /\ has_fragment r = true /\ (room < splice_end r x)%nat.

(** The requests a connection can hold: the one set up when it is accepted,
    with an empty attribute list, and what calls of [parse_request] that
    return make of it, whatever the array. *)
Inductive reachable : wg_dynamic_request -> Prop :=
| reachable_accept r : attrs r = [] -> reachable r
| reachable_parse r room x ret r' :
    reachable r -> parse_request room r x = Ret (ret, r') -> reachable r'.

(** The number a sign and a run of digits stand for. *)
Definition converted (sg ds : list byte) : Z :=
  let v := decimal ds in
  if UINTMAX_MAX <? v then UINTMAX_MAX
  else if bytes_eqb sg [MINUS] then (UINTMAX_MAX + 1 - v) mod (UINTMAX_MAX + 1)
  else v.

(** [s] is, from its first to its last byte, white space (possibly none),
    then an optional sign, then one digit or more; [n] is its number. *)
Definition integer_text (s : list byte) (n : Z) : Prop :=
  exists ws sg ds,
    s = ws ++ sg ++ ds /\
    forallb isspace ws = true /\
    (sg = [] \/ sg = [PLUS] \/ sg = [MINUS]) /\
    ds <> [] /\ forallb isdigit ds = true /\
    n = converted sg ds.

(** The timestamp, duration and error-number keys. *)
Definition uint32_key (k : nat) : bool :=
  ((k =? WGKEY_LEASESTART) || (k =? WGKEY_LEASETIME) || (k =? WGKEY_ERRNO))%nat.

(** The CIDR keys, the address family each stands for and the attribute
    [parse_value] builds for them. *)
Definition cidr_key (k : nat) : bool :=
  ((k =? WGKEY_IPV4) || (k =? WGKEY_IPV6))%nat.

Definition key_family (k : nat) : Z :=
  if (k =? WGKEY_IPV4)%nat then AF_INET else AF_INET6.

Definition ip_attr (k : nat) (c : wg_combined_ip) : wg_dynamic_attr :=
  {| key := k; len := SIZEOF_COMBINED_IP; value := D_ip c |}.

(** The whole of [s] is an unsigned base-10 integer of at most [limit]:
    one digit or more and nothing else. *)
Definition unsigned_decimal (limit : Z) (s : list byte) : bool :=
  (negb (length s =? 0)%nat && forallb isdigit s && (decimal s <=? limit))%bool.

(** ** Notions used by the statements on whole messages *)

(** The bytes of the record [name=text] with its newline. *)
Definition record_bytes (name text : list byte) : list byte :=
  name ++ EQUALS :: text ++ [NL].

(** [name=text] is a record that [parse_line] takes in one piece. *)
Definition well_framed (name text : list byte) : Prop :=
  memchr EQUALS (length name) name = None /\
  memchr NL (length name) name = None /\
  memchr NL (length text) text = None /\
  (length name + S (length text) < MAX_LINESIZE)%nat.

(** [name=text] is an attribute record that decodes to [a]. *)
Definition decodes_to (name text : list byte) (a : wg_dynamic_attr) : Prop :=
  well_framed name text /\
  (WGKEY_ENDCMD < parse_key name)%nat /\
  parse_value (parse_key name) text = Ret (Some a).

(** The results [parse_line] and [parse_request] have for an error. *)
Definition parse_error (ret : Z) : Prop :=
  ret = - E2BIG \/ ret = - EINVAL \/ ret = - ENOENT \/
  ret = - EPROTONOSUPPORT.

(** * Properties *)

(** ** Bytes, [memchr], [store] and C strings *)

Lemma byte_eqb_eq (a b : byte) : Byte.eqb a b = true <-> a = b.
Proof.
  split; [apply Byte.byte_dec_bl | apply Byte.byte_dec_lb].
Qed.

Lemma byte_eqb_neq (a b : byte) : Byte.eqb a b = false <-> a <> b.
Proof.
  split.
  - apply Byte.eqb_false.
  - intros Hne. destruct (Byte.eqb a b) eqn:E; [|reflexivity].
    apply byte_eqb_eq in E. contradiction.
Qed.

Lemma memchr_bounds c n x k :
  memchr c n x = Some k -> (k < n /\ k < length x)%nat.
Proof.
  revert x k. induction n as [|n IH]; intros [|b x] k H; simpl in H;
    try discriminate.
  destruct (Byte.eqb b c).
  - injection H as <-. simpl. lia.
  - destruct (memchr c n x) as [j|] eqn:E; [|discriminate].
    injection H as <-. apply IH in E. simpl. lia.
Qed.

Lemma memchr_found_app c n x k :
  memchr c n x = Some k ->
  forall n' b, (n <= n')%nat -> memchr c n' (x ++ b) = Some k.
Proof.
  revert x k. induction n as [|n IH]; intros [|a x] k H n' b Hn; simpl in H;
    try discriminate.
  destruct n' as [|n']; [lia|]. simpl.
  destruct (Byte.eqb a c); [exact H|].
  destruct (memchr c n x) as [j|] eqn:E; [|discriminate].
  rewrite (IH _ _ E n' b) by lia. exact H.
Qed.

Lemma memchr_none_app c n x b :
  memchr c n x = None -> (n <= length x)%nat -> memchr c n (x ++ b) = None.
Proof.
  revert x. induction n as [|n IH]; intros x H Hn.
  - reflexivity.
  - destruct x as [|a x]; simpl in *; [lia|].
    destruct (Byte.eqb a c); [discriminate|].
    destruct (memchr c n x) eqn:E; [discriminate|].
    rewrite IH by (auto; lia). reflexivity.
Qed.

Lemma memchr_prefix c n x b :
  (n <= length x)%nat -> memchr c n (x ++ b) = memchr c n x.
Proof.
  intros Hn. destruct (memchr c n x) as [k|] eqn:E.
  - apply (memchr_found_app _ _ _ _ E). lia.
  - apply memchr_none_app; assumption.
Qed.

Lemma memchr_none_all c x :
  memchr c (length x) x = None <-> ~ In c x.
Proof.
  induction x as [|a x IH]; simpl.
  - tauto.
  - destruct (Byte.eqb a c) eqn:E.
    + apply byte_eqb_eq in E. split; [discriminate | intros H; exfalso; auto].
    + apply byte_eqb_neq in E.
      destruct (memchr c (length x) x) eqn:M.
      * split; [discriminate|]. intros H. exfalso.
        assert (~ In c x) as Hx by tauto.
        apply IH in Hx. discriminate.
      * split; [|reflexivity]. intros _ [H|H]; [contradiction|].
        destruct IH as [IH _]. apply IH; auto.
Qed.

Lemma store_length i v x : length (store i v x) = length x.
Proof.
  revert i. induction x as [|a x IH]; intros [|i]; simpl; auto.
Qed.

Lemma store_app i v x b :
  (i < length x)%nat -> store i v (x ++ b) = store i v x ++ b.
Proof.
  revert i. induction x as [|a x IH]; intros [|i] H; simpl in *; try lia;
    auto.
  rewrite IH by lia. reflexivity.
Qed.

Lemma cstr_idem s : cstr (cstr s) = cstr s.
Proof.
  induction s as [|a s IH]; simpl; auto.
  destruct (Byte.eqb a NUL) eqn:E; simpl; auto.
  rewrite E, IH. reflexivity.
Qed.

Lemma cstr_nul_free s : ~ In NUL s -> cstr s = s.
Proof.
  induction s as [|a s IH]; simpl; intros H; auto.
  destruct (Byte.eqb a NUL) eqn:E.
  - apply byte_eqb_eq in E. exfalso. auto.
  - rewrite IH; auto.
Qed.

Lemma cstr_no_nul s : ~ In NUL (cstr s).
Proof.
  induction s as [|a s IH]; simpl; auto.
  destruct (Byte.eqb a NUL) eqn:E; simpl; auto.
  apply byte_eqb_neq in E. intros [H|H]; auto.
Qed.

Lemma store_nth_same i v x :
  (i < length x)%nat -> nth_error (store i v x) i = Some v.
Proof.
  revert i. induction x as [|a x IH]; intros [|i] H; simpl in *; try lia;
    auto.
  apply IH. lia.
Qed.

Lemma store_nth_other i v x p :
  p <> i -> nth_error (store i v x) p = nth_error x p.
Proof.
  revert i p. induction x as [|a x IH]; intros [|i] [|p] H; simpl; auto;
    try congruence.
Qed.

(** A string that is terminated inside [y] does not see what follows [y]. *)
Lemma cstr_terminated o p y b :
  nth_error y p = Some NUL -> (o <= p)%nat ->
  cstr (skipn o (y ++ b)) = cstr (skipn o y).
Proof.
  revert o p. induction y as [|a y IH]; intros o p H Hop.
  - destruct p; discriminate.
  - destruct p as [|p]; destruct o as [|o]; try lia; simpl in *.
    + injection H as ->. reflexivity.
    + destruct (Byte.eqb a NUL); [reflexivity|].
      f_equal. apply (IH 0%nat p); [assumption | lia].
    + apply (IH o p); [assumption | lia].
Qed.

Lemma cstr_store_prefix k x :
  (k < length x)%nat -> ~ In NUL x ->
  cstr (store k NUL x) = firstn k x.
Proof.
  revert k. induction x as [|a x IH]; intros k H Hn; simpl in H; [lia|].
  destruct k as [|k]; simpl.
  - reflexivity.
  - destruct (Byte.eqb a NUL) eqn:E.
    + apply byte_eqb_eq in E. exfalso. apply Hn. left. auto.
    + f_equal. apply IH; [lia|]. intros Hin. apply Hn. right. exact Hin.
Qed.

(** ** The decoders read their argument as a C string *)

Lemma deref_head_nul v :
  Byte.eqb (deref v 0) NUL = match cstr v with [] => true | _ :: _ => false end.
Proof.
  unfold deref. destruct v as [|a v]; simpl; [reflexivity|].
  destruct (Byte.eqb a NUL); reflexivity.
Qed.

Lemma parse_key_from_ext e names a a' :
  cstr a = cstr a' -> parse_key_from e names a = parse_key_from e names a'.
Proof.
  intros H. revert e. induction names as [|n names IH]; intros e; simpl; auto.
  unfold streq. rewrite H, IH. reflexivity.
Qed.

Lemma parse_key_ext a a' : cstr a = cstr a' -> parse_key a = parse_key a'.
Proof. apply parse_key_from_ext. Qed.

Lemma parse_ip_cidr_ext c v v' :
  cstr v = cstr v' -> parse_ip_cidr c v = parse_ip_cidr c v'.
Proof.
  intros H. unfold parse_ip_cidr, strchr.
  rewrite !deref_head_nul, H. reflexivity.
Qed.

Lemma parse_value_ext k v v' :
  cstr v = cstr v' -> parse_value k v = parse_value k v'.
Proof.
  intros H. unfold parse_value, strncpy.
  rewrite (parse_ip_cidr_ext {| family := AF_INET; ip := []; cidr := 0 |}
             v v' H).
  rewrite (parse_ip_cidr_ext {| family := AF_INET6; ip := []; cidr := 0 |}
             v v' H).
  rewrite H. reflexivity.
Qed.

(** The keys [parse_key] can return: never the fragment marker, whose empty
    name in the table comes after that of [WGKEY_ENDCMD]. *)
Lemma parse_key_range s :
  (parse_key s <= WGKEY_ENDCMD \/
   WGKEY_IPV4 <= parse_key s <= WGKEY_ERRMSG)%nat.
Proof.
  unfold parse_key, WG_DYNAMIC_KEY. simpl.
  repeat match goal with
         | |- context [streq s ?n] => destruct (streq s n)
         end;
    unfold WGKEY_UNKNOWN, WGKEY_ENDCMD, WGKEY_IPV4, WGKEY_ERRMSG; lia.
Qed.

(** ** [parse_value] and [parse_line] always return *)

Lemma parse_value_returns k v :
  (WGKEY_IPV4 <= k <= WGKEY_ERRMSG)%nat ->
  exists o, parse_value k v = Ret o /\
            forall a, o = Some a -> key a = k.
Proof.
  intros Hk. unfold parse_value.
  destruct (k =? WGKEY_IPV4)%nat eqn:E4.
  { destruct (parse_ip_cidr _ v); eexists; split; try reflexivity;
      intros a [= <-]; reflexivity || discriminate. }
  destruct (k =? WGKEY_IPV6)%nat eqn:E6.
  { destruct (parse_ip_cidr _ v); eexists; split; try reflexivity;
      intros a [= <-]; reflexivity || discriminate. }
  destruct ((k =? WGKEY_LEASESTART) || (k =? WGKEY_LEASETIME)
            || (k =? WGKEY_ERRNO))%nat%bool eqn:EU.
  { destruct (strtoumax (cstr v)) as [u e].
    destruct ((UINT32_MAX <? u) || _)%bool; eexists; split; try reflexivity;
      intros a [= <-]; reflexivity || discriminate. }
  destruct (k =? WGKEY_ERRMSG)%nat eqn:EM.
  { eexists; split; [reflexivity|]. intros a [= <-]. reflexivity. }
  exfalso.
  apply Nat.eqb_neq in E4, E6, EM.
  apply orb_false_iff in EU as [EU E8].
  apply orb_false_iff in EU as [E5 E7].
  apply Nat.eqb_neq in E5, E7, E8.
  unfold WGKEY_IPV4, WGKEY_IPV6, WGKEY_LEASESTART, WGKEY_LEASETIME,
    WGKEY_ERRNO, WGKEY_ERRMSG in *. lia.
Qed.

(** ** One call of [parse_line] *)

Lemma scan_bound_app x b : (scan_bound x <= scan_bound (x ++ b))%nat.
Proof.
  unfold scan_bound. rewrite length_app.
  destruct (Nat.ltb_spec MAX_LINESIZE (length x));
    destruct (Nat.ltb_spec MAX_LINESIZE (length x + length b)); lia.
Qed.

Lemma scan_bound_le x : (scan_bound x <= length x)%nat.
Proof.
  unfold scan_bound. destruct (Nat.ltb_spec MAX_LINESIZE (length x)); lia.
Qed.

Lemma same_but_cmd_refl o : same_but_cmd o o.
Proof. destruct o; simpl; auto. Qed.

(** When the newline is within reach, the call depends on the line only. *)
Lemma parse_line_local x b req k :
  memchr NL (scan_bound x) x = Some k ->
  parse_line (x ++ b) req = parse_line x req.
Proof.
  intros H. unfold parse_line. fold (scan_bound (x ++ b)) (scan_bound x).
  rewrite (memchr_found_app _ _ _ _ H _ b (scan_bound_app x b)), H.
  destruct k as [|k]; [reflexivity|].
  apply memchr_bounds in H as [_ Hk].
  rewrite store_app by assumption.
  replace (S (S k) - 1)%nat with (S k) by lia.
  rewrite memchr_prefix by (rewrite store_length; lia).
  destruct (memchr EQUALS (S k) (store (S k) NUL x)) as [j|] eqn:Ej;
    [|reflexivity].
  apply memchr_bounds in Ej as [Hj Hj']. rewrite store_length in Hj'.
  set (buf1 := store (S k) NUL x) in *.
  assert (Hlen1 : length buf1 = length x) by apply store_length.
  rewrite store_app by lia.
  set (buf2 := store j NUL buf1) in *.
  assert (Hkey : cstr (buf2 ++ b) = cstr buf2).
  { apply (cstr_terminated 0 j buf2 b); [|lia].
    apply store_nth_same. lia. }
  assert (Hval : cstr (skipn (S j) (buf2 ++ b)) = cstr (skipn (S j) buf2)).
  { apply (cstr_terminated (S j) (S k) buf2 b); [|lia].
    unfold buf2. rewrite store_nth_other by lia.
    apply store_nth_same. lia. }
  rewrite (parse_key_ext _ _ Hkey), Hval.
  rewrite (parse_value_ext _ _ _ Hval). reflexivity.
Qed.

Lemma parse_line_too_long x b req :
  memchr NL (scan_bound x) x = None -> (MAX_LINESIZE <= length x)%nat ->
  parse_line (x ++ b) req =
    Ret {| lr_ret := - E2BIG; lr_attr := None; lr_req := req |}.
Proof.
  intros H Hlen. unfold parse_line.
  fold (scan_bound (x ++ b)).
  assert (Hb : scan_bound (x ++ b) = MAX_LINESIZE /\ scan_bound x = MAX_LINESIZE).
  { unfold scan_bound. rewrite length_app.
    destruct (Nat.ltb_spec MAX_LINESIZE (length x));
      destruct (Nat.ltb_spec MAX_LINESIZE (length x + length b)); lia. }
  destruct Hb as [Hb1 Hb2]. rewrite Hb1. rewrite Hb2 in H.
  rewrite memchr_none_app by assumption.
  rewrite length_app.
  destruct (Nat.leb_spec MAX_LINESIZE (length x + length b)); [reflexivity|lia].
Qed.

Lemma parse_line_fragment x req :
  memchr NL (scan_bound x) x = None -> (length x < MAX_LINESIZE)%nat ->
  parse_line x req =
    Ret {| lr_ret := Z.of_nat (length x); lr_attr := Some (incomplete x);
           lr_req := req |}.
Proof.
  intros H Hlen. unfold parse_line. fold (scan_bound x). rewrite H.
  destruct (Nat.leb_spec MAX_LINESIZE (length x)); [lia|reflexivity].
Qed.

(** What a call that found the newline returns. *)
Lemma parse_line_found x req k :
  memchr NL (scan_bound x) x = Some k ->
  exists res,
    parse_line x req = Ret res /\
    (lr_ret res <= 0 \/ lr_ret res = Z.of_nat (S k)) /\
    (forall a, lr_attr res = Some a -> is_incomplete a = false) /\
    same_but_cmd req (lr_req res).
Proof.
  intros H. unfold parse_line. fold (scan_bound x). rewrite H.
  pose proof (same_but_cmd_refl req) as Hrefl.
  assert (Hneg : forall e, 0 < e -> - e <= 0) by (intros; lia).
  assert (H7 : - E2BIG <= 0) by (unfold E2BIG; lia).
  assert (H22 : - EINVAL <= 0) by (unfold EINVAL; lia).
  assert (H2 : - ENOENT <= 0) by (unfold ENOENT; lia).
  assert (H93 : - EPROTONOSUPPORT <= 0) by (unfold EPROTONOSUPPORT; lia).
  destruct k as [|k].
  { eexists. split; [reflexivity|]. simpl. repeat split; auto; try lia.
    discriminate. }
  replace (S (S k) - 1)%nat with (S k) by lia.
  destruct (memchr EQUALS (S k) (store (S k) NUL x)) as [j|].
  2:{ eexists. split; [reflexivity|]. simpl. repeat split; auto.
      discriminate. }
  set (buf2 := store j NUL (store (S k) NUL x)).
  destruct (parse_key buf2 =? WGKEY_UNKNOWN)%nat eqn:EU.
  { eexists. split; [reflexivity|]. simpl. repeat split; auto.
    discriminate. }
  destruct req as [r|].
  - destruct (WGKEY_ENDCMD <=? parse_key buf2)%nat.
    { eexists. split; [reflexivity|]. simpl. repeat split; auto.
      discriminate. }
    destruct (strtoumax (cstr (skipn (S j) buf2))) as [res e].
    destruct ((UINT32_MAX <? res) || _)%bool.
    { eexists. split; [reflexivity|]. simpl. repeat split; auto.
      discriminate. }
    destruct (negb (version (set_cmd r (parse_key buf2) res) =? 1)).
    + eexists. split; [reflexivity|]. simpl. repeat split; auto.
      discriminate.
    + eexists. split; [reflexivity|]. simpl. repeat split; auto.
      discriminate.
  - destruct (Nat.leb_spec (parse_key buf2) WGKEY_ENDCMD) as [Hle|Hgt].
    { eexists. split; [reflexivity|]. simpl. repeat split; auto.
      discriminate. }
    destruct (parse_key_range buf2) as [Hr|Hr]; [lia|].
    destruct (parse_value_returns (parse_key buf2) (skipn (S j) buf2) Hr)
      as [o [Ho Hkey]].
    rewrite Ho. simpl.
    destruct o as [a|].
    + eexists. split; [reflexivity|]. simpl. repeat split; auto.
      intros a' [= <-]. unfold is_incomplete.
      rewrite (Hkey a eq_refl). apply Nat.eqb_neq.
      unfold WGKEY_IPV4, WGKEY_INCOMPLETE in *. lia.
    + eexists. split; [reflexivity|]. simpl. repeat split; auto.
      discriminate.
Qed.

(** [parse_line] returns on every input. *)
Lemma parse_line_returns x req :
  exists res,
    parse_line x req = Ret res /\
    (lr_ret res <= Z.of_nat (length x)) /\
    same_but_cmd req (lr_req res).
Proof.
  destruct (memchr NL (scan_bound x) x) as [k|] eqn:E.
  - destruct (parse_line_found x req k E) as [res [H [Hr [_ Hs]]]].
    exists res. repeat split; auto.
    apply memchr_bounds in E. lia.
  - destruct (Nat.leb_spec MAX_LINESIZE (length x)).
    + exists {| lr_ret := - E2BIG; lr_attr := None; lr_req := req |}.
      pose proof (parse_line_too_long x [] req E H) as Hp.
      rewrite app_nil_r in Hp. repeat split; auto.
      * simpl. unfold E2BIG. lia.
      * apply same_but_cmd_refl.
    + eexists. split; [apply parse_line_fragment; assumption|].
      simpl. split; [lia | apply same_but_cmd_refl].
Qed.

(** ** The loop of [parse_request] *)

Lemma no_sentinel_Forall l :
  no_sentinel l <-> Forall (fun a => is_incomplete a = false) l.
Proof.
  unfold no_sentinel. rewrite forallb_forall, Forall_forall.
  split; intros H a Ha; specialize (H a Ha);
    destruct (is_incomplete a); simpl in *; congruence.
Qed.

Lemma parse_loop_nil f st : parse_loop f st [] = Ret (1, st).
Proof. destruct f; reflexivity. Qed.

Lemma parse_loop_step f st a x :
  parse_loop (S f) st (a :: x) =
    (res <- parse_line (a :: x) (line_mode st) ;;
     let req1 := match lr_req res with Some r => r | None => st end in
     if lr_ret res <=? 0 then Ret (lr_ret res, req1)
     else
       let rest' := skipn (Z.to_nat (lr_ret res)) (a :: x) in
       match lr_attr res with
       | None => parse_loop f req1 rest'
       | Some at_ => parse_loop f (set_attrs req1 (attrs req1 ++ [at_])) rest'
       end).
Proof. reflexivity. Qed.

Lemma skipn_shorter (n : nat) (a : byte) (x : list byte) f :
  (1 <= n)%nat -> (length (a :: x) <= S f)%nat ->
  (length (skipn n (a :: x)) <= f)%nat.
Proof.
  intros Hn Hl. rewrite length_skipn.
  change (length (a :: x)) with (S (length x)) in *. lia.
Qed.

(** Any fuel that covers the bytes gives the same run. *)
Lemma parse_loop_fuel f1 :
  forall f2 st x,
    (length x <= f1)%nat -> (length x <= f2)%nat ->
    parse_loop f1 st x = parse_loop f2 st x.
Proof.
  induction f1 as [|f1 IH]; intros f2 st x H1 H2.
  - destruct x; [|simpl in H1; lia]. rewrite !parse_loop_nil. reflexivity.
  - destruct x as [|a x]; [rewrite !parse_loop_nil; reflexivity|].
    destruct f2 as [|f2]; [simpl in H2; lia|].
    rewrite !parse_loop_step.
    destruct (parse_line (a :: x) (line_mode st)) as [res| | |]; simpl; auto.
    destruct (Z.leb_spec (lr_ret res) 0) as [Hle|Hgt]; [reflexivity|].
    assert (Hn : (1 <= Z.to_nat (lr_ret res))%nat) by lia.
    destruct (lr_attr res); apply IH; apply skipn_shorter; assumption.
Qed.

Lemma line_mode_req1 st o :
  same_but_cmd (line_mode st) o ->
  attrs (match o with Some r => r | None => st end) = attrs st.
Proof.
  unfold line_mode. destruct (cmd st =? WGKEY_UNKNOWN)%nat; destruct o;
    simpl; tauto.
Qed.

Lemma line_mode_same st :
  match line_mode st with Some r => r | None => st end = st.
Proof. unfold line_mode. destruct (cmd st =? WGKEY_UNKNOWN)%nat; auto. Qed.

(** [parse_request]'s loop returns on every input. *)
Lemma parse_loop_returns f :
  forall st x, (length x <= f)%nat ->
    exists ret st', parse_loop f st x = Ret (ret, st').
Proof.
  induction f as [|f IH]; intros st x Hl.
  - destruct x; [|simpl in Hl; lia]. eexists _, _. apply parse_loop_nil.
  - destruct x as [|a x]; [eexists _, _; apply parse_loop_nil|].
    rewrite parse_loop_step.
    destruct (parse_line_returns (a :: x) (line_mode st)) as [res [Hp _]].
    rewrite Hp. simpl.
    destruct (Z.leb_spec (lr_ret res) 0) as [Hle|Hgt]; [eexists _, _; eauto|].
    assert (Hn : (1 <= Z.to_nat (lr_ret res))%nat) by lia.
    destruct (lr_attr res); apply IH; apply skipn_shorter; assumption.
Qed.

Lemma last_attr_in l a : last_attr l = Some a -> In a l.
Proof.
  induction l as [|b l IH]; simpl; [discriminate|].
  destruct l as [|c l].
  - intros [= ->]. left. reflexivity.
  - intros H. right. apply IH. exact H.
Qed.

Lemma last_attr_snoc l a : last_attr (l ++ [a]) = Some a.
Proof.
  induction l as [|b l IH]; simpl; [reflexivity|].
  destruct (l ++ [a]) eqn:E; [destruct l; discriminate|]. exact IH.
Qed.

Lemma last_attr_removelast l a :
  last_attr l = Some a -> l = removelast l ++ [a].
Proof.
  induction l as [|b l IH]; [discriminate|].
  destruct l as [|c l].
  - simpl. intros [= ->]. reflexivity.
  - intros H. change (last_attr (b :: c :: l)) with (last_attr (c :: l)) in H.
    change (removelast (b :: c :: l)) with (b :: removelast (c :: l)).
    simpl. f_equal. apply IH. exact H.
Qed.

Lemma no_sentinel_no_fragment st :
  no_sentinel (attrs st) ->
  has_fragment st = false /\ pending_fragment st = [] /\
  unlink_fragment st = st.
Proof.
  intros H. unfold unlink_fragment, has_fragment, pending_fragment.
  destruct (last_attr (attrs st)) as [a|] eqn:E; [|auto].
  apply last_attr_in in E.
  apply no_sentinel_Forall in H. rewrite Forall_forall in H.
  rewrite (H a E). auto.
Qed.

Lemma no_sentinel_removelast l : no_sentinel l -> no_sentinel (removelast l).
Proof.
  rewrite !no_sentinel_Forall, !Forall_forall. intros H a Ha.
  apply H. clear H. induction l as [|b l IH]; simpl in *; [tauto|].
  destruct l; simpl in *; tauto.
Qed.

Lemma set_attrs_same st : set_attrs st (attrs st) = st.
Proof. destruct st; reflexivity. Qed.

Lemma fragment_stashed st x :
  let st' := set_attrs st (attrs st ++ [incomplete x]) in
  pending_fragment st' = x /\ unlink_fragment st' = st /\
  has_fragment st' = true.
Proof.
  simpl. unfold pending_fragment, unlink_fragment, has_fragment. simpl.
  rewrite last_attr_snoc. simpl. rewrite removelast_last.
  repeat split; auto. destruct st; reflexivity.
Qed.

Lemma skipn_app_le (n : nat) (x b : list byte) :
  (n <= length x)%nat -> skipn n (x ++ b) = skipn n x ++ b.
Proof.
  intros H. rewrite skipn_app.
  replace (n - length x)%nat with 0%nat by lia. reflexivity.
Qed.

(** The loop on [x] against the loop on [x ++ b]: a run that ends on [x]
    with an error or the end of the message ends the same way on [x ++ b];
    a run that uses [x] up leaves exactly what the next call needs to carry
    on as if it had been given [x ++ b] at once. *)
Lemma parse_loop_split f :
  forall st x ret st',
    no_sentinel (attrs st) -> (length x <= f)%nat ->
    parse_loop f st x = Ret (ret, st') ->
    (ret <= 0 /\ no_sentinel (attrs st') /\
     forall b f', (length (x ++ b) <= f')%nat ->
       parse_loop f' st (x ++ b) = Ret (ret, st'))
    \/
    (ret = 1 /\ sentinel_inv st' /\
     forall b f' f'',
       (length (x ++ b) <= f')%nat ->
       (length (pending_fragment st' ++ b) <= f'')%nat ->
       parse_loop f' st (x ++ b) =
         parse_loop f'' (unlink_fragment st') (pending_fragment st' ++ b)).
Proof.
  assert (Hnil : forall st ret st',
             no_sentinel (attrs st) -> Ret (1, st) = Ret (ret, st') ->
             ret = 1 /\ sentinel_inv st' /\
             forall b f' f'',
               (length ([] ++ b) <= f')%nat ->
               (length (pending_fragment st' ++ b) <= f'')%nat ->
               parse_loop f' st ([] ++ b) =
                 parse_loop f'' (unlink_fragment st')
                   (pending_fragment st' ++ b)).
  { intros st ret st' Hc [= <- <-]. split; [reflexivity|].
    split; [apply no_sentinel_removelast; assumption|].
    destruct (no_sentinel_no_fragment st Hc) as (_ & -> & ->).
    intros b f' f'' H1 H2. apply parse_loop_fuel; assumption. }
  induction f as [|f IH]; intros st x ret st' Hc Hl H.
  { destruct x; [|simpl in Hl; lia]. rewrite parse_loop_nil in H.
    right. apply Hnil; assumption. }
  destruct x as [|a x].
  { rewrite parse_loop_nil in H. right. apply Hnil; assumption. }
  rewrite parse_loop_step in H.
  destruct (memchr NL (scan_bound (a :: x)) (a :: x)) as [k|] eqn:E.
  - destruct (parse_line_found _ (line_mode st) k E)
      as [res [Hp [Hret [Hattr Hsame]]]].
    rewrite Hp in H. unfold bind in H.
    pose proof (line_mode_req1 st _ Hsame) as Hattrs.
    assert (Hstep : forall b f',
               (length ((a :: x) ++ b) <= S f')%nat ->
               parse_loop (S f') st ((a :: x) ++ b) =
                 (let req1 := match lr_req res with
                              | Some r => r
                              | None => st
                              end in
                  if lr_ret res <=? 0 then Ret (lr_ret res, req1)
                  else
                    let rest' := skipn (Z.to_nat (lr_ret res)) ((a :: x) ++ b) in
                    match lr_attr res with
                    | None => parse_loop f' req1 rest'
                    | Some at_ =>
                        parse_loop f' (set_attrs req1 (attrs req1 ++ [at_]))
                          rest'
                    end)).
    { intros b f' _. change ((a :: x) ++ b) with (a :: (x ++ b)).
      rewrite parse_loop_step. change (a :: (x ++ b)) with ((a :: x) ++ b).
      rewrite (parse_line_local _ b _ k E), Hp. reflexivity. }
    cbv zeta in H, Hstep.
    set (req1 := match lr_req res with Some r => r | None => st end) in *.
    destruct (Z.leb_spec (lr_ret res) 0) as [Hle|Hgt].
    + injection H as <- <-. left. split; [assumption|].
      split; [rewrite Hattrs; assumption|].
      intros b f' Hf'. destruct f' as [|f']; [simpl in Hf'; lia|].
      rewrite Hstep by assumption. reflexivity.
    + destruct Hret as [Hret|Hret]; [lia|].
      assert (Hk : (S k <= length (a :: x))%nat).
      { apply memchr_bounds in E. lia. }
      rewrite Hret, Nat2Z.id in H, Hstep.
      set (st2 := match lr_attr res with
                  | None => req1
                  | Some at_ => set_attrs req1 (attrs req1 ++ [at_])
                  end).
      assert (Hst2 : no_sentinel (attrs st2)).
      { unfold st2. destruct (lr_attr res) as [at_|] eqn:Ea.
        - simpl. rewrite Hattrs. apply no_sentinel_Forall.
          apply Forall_app. split; [apply no_sentinel_Forall; assumption|].
          constructor; [|constructor]. apply Hattr. reflexivity.
        - rewrite Hattrs. assumption. }
      assert (H' : parse_loop f st2 (skipn (S k) (a :: x)) = Ret (ret, st')).
      { unfold st2. destruct (lr_attr res); exact H. }
      assert (Hstep' : forall b f',
                 (length ((a :: x) ++ b) <= S f')%nat ->
                 parse_loop (S f') st ((a :: x) ++ b) =
                   parse_loop f' st2 (skipn (S k) (a :: x) ++ b)).
      { intros b f' Hf'. rewrite Hstep by assumption.
        rewrite skipn_app_le by assumption.
        unfold st2. destruct (lr_attr res); reflexivity. }
      assert (Hshort : forall b f',
                 (length ((a :: x) ++ b) <= S f')%nat ->
                 (length (skipn (S k) (a :: x) ++ b) <= f')%nat).
      { intros b f' Hf'. rewrite length_app, length_skipn.
        rewrite length_app in Hf'. lia. }
      apply IH in H'; [|assumption|apply skipn_shorter; [lia|assumption]].
      destruct H' as [(Hr & Hcl & Hb)|(Hr & Hinv & Hb)].
      * left. split; [assumption|]. split; [assumption|].
        intros b f' Hf'. destruct f' as [|f']; [simpl in Hf'; lia|].
        rewrite Hstep' by assumption. apply Hb. apply Hshort. assumption.
      * right. split; [assumption|]. split; [assumption|].
        intros b f' f'' Hf' Hf''.
        destruct f' as [|f']; [simpl in Hf'; lia|].
        rewrite Hstep' by assumption.
        apply Hb; [apply Hshort|]; assumption.
  - destruct (Nat.leb_spec MAX_LINESIZE (length (a :: x))) as [Hlong|Hshort].
    + pose proof (parse_line_too_long (a :: x) [] (line_mode st) E Hlong) as Hp.
      rewrite app_nil_r in Hp. rewrite Hp in H. unfold bind in H.
      cbn [lr_ret lr_attr lr_req] in H. rewrite line_mode_same in H.
      change (- E2BIG <=? 0) with true in H. cbv iota in H.
      injection H as <- <-. left.
      split; [unfold E2BIG; lia|]. split; [assumption|].
      intros b f' Hf'. destruct f' as [|f']; [simpl in Hf'; lia|].
      change ((a :: x) ++ b) with (a :: (x ++ b)).
      rewrite parse_loop_step. change (a :: (x ++ b)) with ((a :: x) ++ b).
      rewrite (parse_line_too_long (a :: x) b (line_mode st) E Hlong).
      unfold bind. cbn [lr_ret lr_attr lr_req]. rewrite line_mode_same.
      reflexivity.
    + rewrite (parse_line_fragment (a :: x) (line_mode st) E Hshort) in H.
      unfold bind in H. cbn [lr_ret lr_attr lr_req] in H.
      rewrite line_mode_same in H.
      destruct (Z.leb_spec (Z.of_nat (length (a :: x))) 0) as [Hle|Hgt];
        [simpl in Hle; lia|].
      rewrite Nat2Z.id, skipn_all, parse_loop_nil in H.
      injection H as <- <-. right.
      destruct (fragment_stashed st (a :: x)) as (Hpf & Hun & _).
      cbv zeta in Hpf, Hun.
      split; [reflexivity|]. split.
      { unfold sentinel_inv. simpl. rewrite removelast_last. assumption. }
      intros b f' f'' Hf' Hf''. rewrite Hpf, Hun.
      rewrite Hpf in Hf''. apply parse_loop_fuel; assumption.
Qed.

(** ** One call of [parse_request] against the next *)

Lemma nul_free_app x y : nul_free (x ++ y) <-> nul_free x /\ nul_free y.
Proof.
  unfold nul_free. rewrite !memchr_none_all, in_app_iff. tauto.
Qed.

Lemma last_attr_none l : last_attr l = None -> l = [].
Proof.
  induction l as [|a l IH]; [reflexivity|].
  destruct l as [|b l]; [discriminate|].
  intros H. change (last_attr (a :: b :: l)) with (last_attr (b :: l)) in H.
  apply IH in H. discriminate.
Qed.

Lemma unlink_no_sentinel r :
  sentinel_inv r -> no_sentinel (attrs (unlink_fragment r)).
Proof.
  unfold sentinel_inv, unlink_fragment, has_fragment. intros H.
  destruct (last_attr (attrs r)) as [a|] eqn:E.
  - destruct (is_incomplete a) eqn:Ea; [exact H|].
    rewrite (last_attr_removelast _ _ E).
    apply no_sentinel_Forall, Forall_app. split.
    + apply no_sentinel_Forall. exact H.
    + constructor; [exact Ea | constructor].
  - apply last_attr_none in E. rewrite E. reflexivity.
Qed.

Lemma no_sentinel_inv r : no_sentinel (attrs r) -> sentinel_inv r.
Proof. apply no_sentinel_removelast. Qed.

Lemma fragment_absent r :
  has_fragment r = false -> pending_fragment r = [] /\ unlink_fragment r = r.
Proof.
  unfold pending_fragment, unlink_fragment, has_fragment.
  destruct (last_attr (attrs r)); [intros ->|]; auto.
Qed.

Lemma parse_request_guarded room r x :
  ~ nul_free x -> parse_request room r x = Ret (- EINVAL, r).
Proof.
  unfold nul_free, parse_request. destruct (memchr NUL (length x) x);
    [reflexivity | congruence].
Qed.

Lemma parse_request_unguarded room r x :
  nul_free x -> fits room r x ->
  parse_request room r x =
    parse_loop (length (pending_fragment r ++ x)) (unlink_fragment r)
      (pending_fragment r ++ x).
Proof.
  unfold nul_free, parse_request, fits. intros -> Hfit.
  destruct (has_fragment r) eqn:Ef.
  - specialize (Hfit eq_refl).
    destruct (Nat.ltb_spec room (splice_end r x)); [lia | reflexivity].
  - destruct (fragment_absent r Ef) as [-> ->]. reflexivity.
Qed.

(** A splice that leaves the array is undefined behaviour. *)
Lemma parse_request_overrun room r x :
  overruns room r x -> parse_request room r x = Undefined.
Proof.
  unfold overruns, nul_free, parse_request. intros (-> & -> & H).
  destruct (Nat.ltb_spec room (splice_end r x)); [reflexivity | lia].
Qed.

Lemma nul_free_dec x : nul_free x \/ ~ nul_free x.
Proof.
  unfold nul_free. destruct (memchr NUL (length x) x);
    [right; discriminate | left; reflexivity].
Qed.

Lemma fits_dec room r x :
  fits room r x \/ (has_fragment r = true /\ (room < splice_end r x)%nat).
Proof.
  unfold fits. destruct (has_fragment r); [|left; discriminate].
  destruct (Nat.le_gt_cases (splice_end r x) room); [left|right]; auto.
Qed.

(** A request without a fragment is parsed in any array. *)
Lemma fits_plain room r x : has_fragment r = false -> fits room r x.
Proof. unfold fits. congruence. Qed.

Lemma fits_le room room' r x :
  fits room r x -> (room <= room')%nat -> fits room' r x.
Proof. unfold fits. intros H Hle Hf. specialize (H Hf). lia. Qed.

Lemma fits_splice_end r x : fits (splice_end r x) r x.
Proof. unfold fits. auto. Qed.

(** A call that returned on bytes without NUL had room for its splice. *)
Lemma parse_request_ret room r x ret r' :
  parse_request room r x = Ret (ret, r') -> nul_free x -> fits room r x.
Proof.
  intros H Hx. destruct (fits_dec room r x) as [Hf|[Hf Hlt]]; [assumption|].
  rewrite parse_request_overrun in H by (repeat split; assumption).
  discriminate.
Qed.

(** A call that returned on bytes without NUL ran the loop on the fragment
    followed by the chunk. *)
Lemma parse_request_loop room r x ret r' :
  parse_request room r x = Ret (ret, r') -> nul_free x ->
  parse_loop (length (pending_fragment r ++ x)) (unlink_fragment r)
    (pending_fragment r ++ x) = Ret (ret, r').
Proof.
  intros H Hx. pose proof (parse_request_ret _ _ _ _ _ H Hx) as Hf.
  rewrite parse_request_unguarded in H by assumption. exact H.
Qed.

(** [parse_request] returns whenever its splice stays inside the array. *)
Lemma parse_request_returns room r x :
  fits room r x -> exists ret r', parse_request room r x = Ret (ret, r').
Proof.
  intros Hfit. destruct (nul_free_dec x) as [H|H].
  - rewrite parse_request_unguarded by assumption.
    apply parse_loop_returns. lia.
  - eexists _, _. apply parse_request_guarded. assumption.
Qed.

(** Either the splice leaves the array or the call returns. *)
Lemma parse_request_cases room r x :
  (overruns room r x /\ parse_request room r x = Undefined) \/
  (exists ret r', parse_request room r x = Ret (ret, r')).
Proof.
  destruct (nul_free_dec x) as [Hx|Hx].
  - destruct (fits_dec room r x) as [Hf|[Hf Hlt]].
    + right. apply parse_request_returns. assumption.
    + left. assert (Ho : overruns room r x) by (repeat split; assumption).
      split; [assumption | apply parse_request_overrun; assumption].
  - right. eexists _, _. apply parse_request_guarded. assumption.
Qed.

(** The result of a call that returns does not depend on the array. *)
Lemma parse_request_room room room' r x ret r' :
  parse_request room r x = Ret (ret, r') -> fits room' r x ->
  parse_request room' r x = Ret (ret, r').
Proof.
  intros H Hfit. destruct (nul_free_dec x) as [Hx|Hx].
  - pose proof (parse_request_ret _ _ _ _ _ H Hx) as Hf.
    rewrite parse_request_unguarded in H by assumption.
    rewrite parse_request_unguarded by assumption. exact H.
  - rewrite parse_request_guarded in H by assumption.
    rewrite parse_request_guarded by assumption. exact H.
Qed.

(** What a call leaves behind. *)
Lemma parse_request_post room r x ret r' :
  sentinel_inv r -> parse_request room r x = Ret (ret, r') ->
  sentinel_inv r' /\
  (ret <= 0 \/ ret = 1) /\
  (ret = 0 -> no_sentinel (attrs r')).
Proof.
  intros Hinv H. destruct (nul_free_dec x) as [Hx|Hx].
  - pose proof (parse_request_ret _ _ _ _ _ H Hx) as Hfit.
    rewrite parse_request_unguarded in H by assumption.
    apply parse_loop_split in H; [|apply unlink_no_sentinel; assumption|lia].
    destruct H as [(Hr & Hc & _)|(Hr & Hi & _)].
    + split; [apply no_sentinel_inv; assumption|]. split; [left|]; auto.
    + split; [assumption|]. split; [right; assumption|]. lia.
  - rewrite parse_request_guarded in H by assumption.
    injection H as <- <-. split; [assumption|].
    unfold EINVAL. split; [left|]; lia.
Qed.

(** A call that ended the parse ends it the same way with more bytes. *)
Lemma parse_request_app_done room room' r a b ret r' :
  sentinel_inv r -> nul_free b ->
  parse_request room r a = Ret (ret, r') -> ret <= 0 ->
  fits room' r (a ++ b) ->
  parse_request room' r (a ++ b) = Ret (ret, r').
Proof.
  intros Hinv Hb H Hret Hfit. destruct (nul_free_dec a) as [Ha|Ha].
  - pose proof (parse_request_ret _ _ _ _ _ H Ha) as Hfa.
    rewrite parse_request_unguarded in H by assumption.
    rewrite parse_request_unguarded by (try apply nul_free_app; auto).
    apply parse_loop_split in H; [|apply unlink_no_sentinel; assumption|lia].
    destruct H as [(_ & _ & Hs)|(Hr & _)]; [|lia].
    rewrite app_assoc. apply Hs. lia.
  - rewrite parse_request_guarded in H by assumption.
    rewrite parse_request_guarded; [assumption|].
    intros Hab. apply nul_free_app in Hab. tauto.
Qed.

(** A call that asked for more bytes, followed by a call with those bytes,
    is one call with all of them, as long as each has room for its
    splice. *)
Lemma parse_request_app_more room room1 room2 r a b r' :
  sentinel_inv r -> nul_free b ->
  parse_request room r a = Ret (1, r') ->
  fits room1 r' b -> fits room2 r (a ++ b) ->
  parse_request room1 r' b = parse_request room2 r (a ++ b).
Proof.
  intros Hinv Hb H Hf1 Hf2. destruct (nul_free_dec a) as [Ha|Ha].
  - pose proof (parse_request_ret _ _ _ _ _ H Ha) as Hfa.
    rewrite parse_request_unguarded in H by assumption.
    rewrite (parse_request_unguarded room2 r (a ++ b))
      by (try apply nul_free_app; auto).
    rewrite (parse_request_unguarded room1 r' b) by assumption.
    apply parse_loop_split in H; [|apply unlink_no_sentinel; assumption|lia].
    destruct H as [(Hr & _)|(_ & _ & Hs)]; [lia|].
    rewrite app_assoc. symmetry. apply Hs; lia.
  - rewrite parse_request_guarded in H by assumption.
    unfold EINVAL in H. discriminate.
Qed.

Lemma reachable_inv r : reachable r -> sentinel_inv r.
Proof.
  induction 1 as [r H|r room x ret r' _ IH H].
  - unfold sentinel_inv. rewrite H. reflexivity.
  - apply (parse_request_post room r x ret r' IH H).
Qed.

(** ** The fragment marker *)

(** C9.  A call of [parse_request] on a reachable request returns, unless a
    fragment is pending and its splice leaves the array; and when it
    returns it leaves an attribute list in which a fragment marker can only
    be the last node, and no marker at all when it returns 0. *)
Theorem sentinel_only_last room r x :
  reachable r ->
  (overruns room r x /\ parse_request room r x = Undefined) \/
  (exists ret r',
     parse_request room r x = Ret (ret, r') /\
     no_sentinel (removelast (attrs r')) /\
     (ret = 0 -> no_sentinel (attrs r'))).
Proof.
  intros Hr. destruct (parse_request_cases room r x) as [Ho|(ret & r' & H)];
    [left; exact Ho|].
  right. exists ret, r'. split; [exact H|].
  destruct (parse_request_post room r x ret r' (reachable_inv r Hr) H)
    as (Hinv & _ & Hz).
  split; assumption.
Qed.

(** ** Fragment splicing *)

Lemma feed_cons r c cs :
  (length c <= RECV_BUFSIZE)%nat ->
  feed r (c :: cs) =
    (res <- parse_request (RECV_BUFSIZE + MAX_LINESIZE) r c ;;
     if 0 <? fst res then feed (snd res) cs else Ret res).
Proof.
  intros H. cbn [feed].
  destruct (Nat.ltb_spec RECV_BUFSIZE (length c)); [lia | reflexivity].
Qed.

(** As long as no splice leaves the array of the read loop, the calls on
    the chunks give what one call on all the bytes gives in an array with
    room for its splice. *)
Lemma feed_concat room r chunks :
  sentinel_inv r -> chunks <> [] -> nul_free (concat chunks) ->
  Forall (fun c => (length c <= RECV_BUFSIZE)%nat) chunks ->
  feed r chunks <> Undefined -> fits room r (concat chunks) ->
  feed r chunks = parse_request room r (concat chunks).
Proof.
  intros Hinv Hne. destruct chunks as [|c cs]; [congruence|]. clear Hne.
  revert room r c Hinv.
  induction cs as [|c2 cs IH]; intros room r c Hinv Hnul Hlen Hdef Hfit.
  - inversion Hlen as [|? ? Hc _]; subst.
    rewrite feed_cons in * by assumption.
    cbn [concat] in *. rewrite app_nil_r in *.
    destruct (parse_request_cases (RECV_BUFSIZE + MAX_LINESIZE) r c)
      as [[_ Hu]|(ret & r' & H)].
    { rewrite Hu in Hdef. exfalso. apply Hdef. reflexivity. }
    rewrite H. rewrite (parse_request_room _ room _ _ _ _ H Hfit).
    destruct (parse_request_post _ r c ret r' Hinv H) as (_ & Hr & _).
    unfold bind. cbn [fst snd feed].
    destruct (Z.ltb_spec 0 ret) as [Hpos|Hle]; [|reflexivity].
    destruct Hr as [Hr|Hr]; [lia|]. subst ret. reflexivity.
  - change (concat (c :: c2 :: cs)) with (c ++ concat (c2 :: cs)) in *.
    apply nul_free_app in Hnul as [Hc Hrest].
    inversion Hlen as [|? ? Hlc Hlcs]; subst.
    rewrite feed_cons in * by assumption.
    destruct (parse_request_cases (RECV_BUFSIZE + MAX_LINESIZE) r c)
      as [[_ Hu]|(ret & r' & H)].
    { rewrite Hu in Hdef. exfalso. apply Hdef. reflexivity. }
    rewrite H in *.
    destruct (parse_request_post _ r c ret r' Hinv H) as (Hinv' & Hr & _).
    unfold bind in *. cbn [fst snd] in *.
    destruct (Z.ltb_spec 0 ret) as [Hpos|Hle].
    + destruct Hr as [Hr|Hr]; [lia|]. subst ret.
      rewrite (IH (splice_end r' (concat (c2 :: cs))) r' c2 Hinv' Hrest Hlcs
                 Hdef (fits_splice_end _ _)).
      apply parse_request_app_more
        with (room := (RECV_BUFSIZE + MAX_LINESIZE)%nat) (a := c);
        try assumption. apply fits_splice_end.
    + symmetry.
      apply parse_request_app_done
        with (room := (RECV_BUFSIZE + MAX_LINESIZE)%nat); assumption.
Qed.

(** ** Lines that are too long *)

Lemma memchr_absent c n x : ~ In c x -> memchr c n x = None.
Proof.
  revert x. induction n as [|n IH]; intros [|a x] H; simpl; auto.
  destruct (Byte.eqb a c) eqn:E.
  - apply byte_eqb_eq in E. exfalso. apply H. left. exact E.
  - rewrite IH; [reflexivity|]. intros Hin. apply H. right. exact Hin.
Qed.

Lemma parse_request_too_long room r record rest :
  has_fragment r = false -> nul_free (record ++ NL :: rest) ->
  (MAX_LINESIZE <= length record)%nat ->
  memchr NL (length record) record = None ->
  parse_request room r (record ++ NL :: rest) = Ret (- E2BIG, r).
Proof.
  intros Hf Hnul Hlen Hnl. apply memchr_none_all in Hnl.
  rewrite parse_request_unguarded by (auto using fits_plain).
  destruct (fragment_absent r Hf) as [-> ->]. rewrite app_nil_l.
  destruct (record ++ NL :: rest) as [|a x] eqn:E.
  { destruct record; discriminate. }
  cbn [length]. rewrite parse_loop_step. rewrite <- E.
  rewrite parse_line_too_long.
  - unfold bind. cbn [lr_ret lr_attr lr_req]. rewrite line_mode_same.
    reflexivity.
  - apply memchr_absent. assumption.
  - assumption.
Qed.

(** C6.  Let a stream hold, after records that [parse_request] consumes
    without an error and without reaching the end of the message, a record
    of at least [MAX_LINESIZE] bytes before its newline.  However the
    stream, free of NUL bytes, is cut into chunks such as [read] gives
    them for successive calls, the parse fails with [-E2BIG], as long as
    no splice on the way leaves the array of the read loop. *)
Theorem over_long_line_rejected room r0 before r1 record rest chunks :
  reachable r0 ->
  parse_request room r0 before = Ret (1, r1) -> has_fragment r1 = false ->
  (MAX_LINESIZE <= length record)%nat ->
  memchr NL (length record) record = None ->
  chunks <> [] -> concat chunks = before ++ record ++ NL :: rest ->
  nul_free (concat chunks) ->
  Forall (fun c => (length c <= RECV_BUFSIZE)%nat) chunks ->
  feed r0 chunks <> Undefined ->
  feed r0 chunks = Ret (- E2BIG, r1).
Proof.
  intros Hr Hb Hf Hlen Hnl Hne Hcat Hnul Hsz Hdef.
  rewrite (feed_concat (splice_end r0 (concat chunks)));
    try assumption;
    [|apply reachable_inv; assumption|apply fits_splice_end].
  rewrite Hcat in *. apply nul_free_app in Hnul as [_ Hnul].
  rewrite <- (parse_request_app_more room room _ r0 before _ r1);
    [|apply reachable_inv; assumption|assumption|assumption
     |apply fits_plain; assumption|apply fits_splice_end].
  apply parse_request_too_long; assumption.
Qed.

(** ** What the loop does to the request *)

Lemma parse_line_unsupported x req res :
  parse_line x req = Ret res -> lr_ret res = - EPROTONOSUPPORT ->
  exists r k v,
    req = Some r /\ lr_req res = Some (set_cmd r k v) /\
    (0 < k < WGKEY_ENDCMD)%nat /\ v <> 1 /\ v <= UINT32_MAX.
Proof.
  unfold parse_line.
  destruct (memchr NL _ x) as [[|k]|].
  - intros [= <-]. discriminate.
  - destruct (memchr EQUALS _ _) as [j|]; [|intros [= <-]; discriminate].
    set (buf2 := store j NUL (store (S k) NUL x)).
    destruct (Nat.eqb_spec (parse_key buf2) WGKEY_UNKNOWN) as [Hu|Hu];
      [intros [= <-]; discriminate|].
    destruct req as [r|].
    + destruct (Nat.leb_spec WGKEY_ENDCMD (parse_key buf2)) as [Hc|Hc];
        [intros [= <-]; discriminate|].
      destruct (strtoumax (cstr (skipn (S j) buf2))) as [v e].
      destruct (Z.ltb_spec UINT32_MAX v) as [Hv|Hv]; simpl orb;
        [intros [= <-]; discriminate|].
      destruct (negb (Byte.eqb _ NUL)); [intros [= <-]; discriminate|].
      cbn [version set_cmd].
      destruct (Z.eqb_spec v 1) as [H1|H1]; cbn [negb].
      * intros [= <-]. cbn [lr_ret]. unfold EPROTONOSUPPORT. lia.
      * intros [= <-] _. exists r, (parse_key buf2), v.
        unfold WGKEY_UNKNOWN in Hu. repeat split; auto; lia.
    + destruct (parse_key buf2 <=? WGKEY_ENDCMD)%nat;
        [intros [= <-]; discriminate|].
      destruct (parse_value _ _) as [[a|]| | |]; simpl;
        try discriminate; intros [= <-]; cbn [lr_ret];
        unfold EPROTONOSUPPORT, EINVAL; lia.
  - destruct (MAX_LINESIZE <=? length x)%nat; intros [= <-]; cbn [lr_ret];
      unfold EPROTONOSUPPORT, E2BIG; lia.
Qed.

Lemma line_mode_some st r : line_mode st = Some r -> r = st /\ cmd st = WGKEY_UNKNOWN.
Proof.
  unfold line_mode. destruct (Nat.eqb_spec (cmd st) WGKEY_UNKNOWN);
    [intros [= <-]; auto | discriminate].
Qed.

(** The loop only appends to the list, and an unsupported version is
    reported with [cmd] and [version] already stored. *)
Lemma parse_loop_grows f :
  forall st x ret st',
    parse_loop f st x = Ret (ret, st') ->
    (exists more, attrs st' = attrs st ++ more) /\
    (ret = - EPROTONOSUPPORT ->
     cmd st = WGKEY_UNKNOWN /\ (0 < cmd st' < WGKEY_ENDCMD)%nat /\
     version st' <> 1 /\ version st' <= UINT32_MAX).
Proof.
  induction f as [|f IH]; intros st x ret st' H.
  { destruct x; [|discriminate]. injection H as <- <-.
    split; [exists []; rewrite app_nil_r; reflexivity|].
    unfold EPROTONOSUPPORT. lia. }
  destruct x as [|a x].
  { injection H as <- <-.
    split; [exists []; rewrite app_nil_r; reflexivity|].
    unfold EPROTONOSUPPORT. lia. }
  rewrite parse_loop_step in H.
  destruct (parse_line_returns (a :: x) (line_mode st)) as (res & Hp & _ & Hs).
  rewrite Hp in H. unfold bind in H. cbv zeta in H.
  pose proof (line_mode_req1 st _ Hs) as Hattrs.
  set (req1 := match lr_req res with Some r => r | None => st end) in *.
  destruct (Z.leb_spec (lr_ret res) 0) as [Hle|Hgt].
  - injection H as <- <-. split.
    + exists []. rewrite app_nil_r. assumption.
    + intros Hret.
      destruct (parse_line_unsupported _ _ _ Hp Hret)
        as (r & k & v & Hm & Hreq & Hk & Hv & Hv').
      apply line_mode_some in Hm as [-> Hcmd].
      unfold req1. rewrite Hreq. cbn [cmd version set_cmd]. auto.
  - assert (Hcmd1 : cmd req1 = WGKEY_UNKNOWN -> cmd st = WGKEY_UNKNOWN).
    { unfold req1. destruct (line_mode st) as [r|] eqn:Em.
      - apply line_mode_some in Em as [_ Hc]. auto.
      - destruct (lr_req res); [contradiction|auto]. }
    destruct (lr_attr res) as [at_|].
    + apply IH in H as [[more Hm] Hv]. cbn [attrs cmd set_attrs] in *.
      split; [|tauto].
      exists (at_ :: more). rewrite Hm, Hattrs, <- app_assoc. reflexivity.
    + apply IH in H as [[more Hm] Hv].
      split; [|tauto].
      exists more. rewrite Hm, Hattrs. reflexivity.
Qed.

(** ** The anatomy of a record *)

Lemma memchr_at c a t n :
  memchr c (length a) a = None -> (length a < n)%nat ->
  memchr c n (a ++ c :: t) = Some (length a).
Proof.
  revert n. induction a as [|b a IH]; intros n H Hn; simpl in *.
  - destruct n; [lia|]. simpl. rewrite (proj2 (byte_eqb_eq c c) eq_refl).
    reflexivity.
  - destruct n; [lia|]. simpl.
    destruct (Byte.eqb b c); [discriminate|].
    destruct (memchr c (length a) a) eqn:E; [discriminate|].
    rewrite IH by (auto; lia). reflexivity.
Qed.

Lemma store_at v a c t : store (length a) v (a ++ c :: t) = a ++ v :: t.
Proof.
  induction a as [|b a IH]; simpl; [reflexivity|]. rewrite IH. reflexivity.
Qed.

Lemma cstr_app_nul a t : cstr (a ++ NUL :: t) = cstr a.
Proof.
  induction a as [|b a IH]; simpl; [reflexivity|].
  destruct (Byte.eqb b NUL); [reflexivity|]. rewrite IH. reflexivity.
Qed.

Lemma skipn_past (a : list byte) c t : skipn (S (length a)) (a ++ c :: t) = t.
Proof.
  induction a as [|b a IH]; simpl; [reflexivity|]. exact IH.
Qed.

(** [parse_line] on a buffer that starts with the record [name=text]. *)
Lemma parse_line_record name text rest req :
  memchr EQUALS (length name) name = None ->
  memchr NL (length name) name = None ->
  memchr NL (length text) text = None ->
  (length name + S (length text) < MAX_LINESIZE)%nat ->
  parse_line (name ++ EQUALS :: text ++ NL :: rest) req =
    (let fail (e : Z) (r : option wg_dynamic_request) :=
       Ret {| lr_ret := - e; lr_attr := None; lr_req := r |} in
     let line_len := S (length name + S (length text)) in
     let key_ := parse_key name in
     if (key_ =? WGKEY_UNKNOWN)%nat then fail ENOENT req
     else
       match req with
       | Some r =>
           if (WGKEY_ENDCMD <=? key_)%nat then fail ENOENT req
           else
             let '(res, endptr) := strtoumax (cstr text) in
             if ((UINT32_MAX <? res)
                 || negb (Byte.eqb (deref (cstr text) endptr) NUL))%bool
             then fail EINVAL req
             else
               let r' := set_cmd r key_ res in
               if negb (version r' =? 1)
               then fail EPROTONOSUPPORT (Some r')
               else Ret {| lr_ret := Z.of_nat line_len; lr_attr := None;
                           lr_req := Some r' |}
       | None =>
           if (key_ <=? WGKEY_ENDCMD)%nat then fail ENOENT req
           else
             a <- parse_value key_ text ;;
             match a with
             | None => fail EINVAL req
             | Some _ => Ret {| lr_ret := Z.of_nat line_len; lr_attr := a;
                                lr_req := req |}
             end
       end).
Proof.
  intros Heq Hnl1 Hnl2 Hlen.
  set (a := name ++ EQUALS :: text).
  assert (Hx : name ++ EQUALS :: text ++ NL :: rest = a ++ NL :: rest).
  { unfold a. rewrite <- app_assoc. reflexivity. }
  assert (Hla : length a = S (length name + length text)).
  { unfold a. rewrite length_app. simpl. lia. }
  assert (Ha : memchr NL (length a) a = None).
  { apply memchr_none_all. unfold a. rewrite in_app_iff. simpl.
    apply memchr_none_all in Hnl1, Hnl2.
    intros [H|[H|H]]; auto. discriminate. }
  unfold parse_line. rewrite Hx.
  rewrite memchr_at; [|assumption|].
  2:{ rewrite length_app. simpl.
      destruct (Nat.ltb_spec MAX_LINESIZE (length a + S (length rest))); lia. }
  destruct (length a) as [|k] eqn:Ek; [lia|]. cbv iota.
  replace (S (S k) - 1)%nat with (S k) by lia.
  rewrite <- Ek, store_at.
  assert (Hb : a ++ NUL :: rest = name ++ EQUALS :: (text ++ NUL :: rest)).
  { unfold a. rewrite <- app_assoc. reflexivity. }
  rewrite Hb. rewrite memchr_at by (auto; lia).
  rewrite store_at.
  rewrite (parse_key_ext _ name) by (rewrite cstr_app_nul; reflexivity).
  rewrite skipn_past, cstr_app_nul.
  rewrite (parse_value_ext _ (text ++ NUL :: rest) text)
    by (rewrite cstr_app_nul; reflexivity).
  replace (length name + S (length text))%nat with (length a) by lia.
  reflexivity.
Qed.

(** ** Keys on the wrong side of the boundary *)

(** C3.  In attribute mode a record [name=text] whose name the table does
    not have, or has at or before [WGKEY_ENDCMD], is rejected with
    [-ENOENT]: one code for an unknown name and for a key that is not past
    the boundary. *)
Theorem key_not_past_boundary_rejected name text rest :
  memchr EQUALS (length name) name = None ->
  memchr NL (length name) name = None ->
  memchr NL (length text) text = None ->
  (length name + S (length text) < MAX_LINESIZE)%nat ->
  (parse_key name <= WGKEY_ENDCMD)%nat ->
  parse_line (name ++ EQUALS :: text ++ NL :: rest) None =
    Ret {| lr_ret := - ENOENT; lr_attr := None; lr_req := None |}.
Proof.
  intros Heq Hnl1 Hnl2 Hlen Hkey.
  rewrite parse_line_record by assumption. cbv zeta.
  destruct (parse_key name =? WGKEY_UNKNOWN)%nat; [reflexivity|].
  destruct (Nat.leb_spec (parse_key name) WGKEY_ENDCMD); [reflexivity|lia].
Qed.

(** ** What [strtoumax] converts *)

Lemma span_length_le p s : (span_length p s <= length s)%nat.
Proof.
  induction s as [|b s IH]; simpl; [lia|]. destruct (p b); simpl; lia.
Qed.

Lemma span_firstn p s : forallb p (firstn (span_length p s) s) = true.
Proof.
  induction s as [|b s IH]; simpl; [reflexivity|].
  destruct (p b) eqn:E; simpl; [rewrite E, IH|]; reflexivity.
Qed.

Lemma span_length_all p s : forallb p s = true -> span_length p s = length s.
Proof.
  induction s as [|b s IH]; simpl; [reflexivity|].
  destruct (p b); simpl; [|discriminate]. intros H. rewrite IH; auto.
Qed.

Lemma span_length_app p a b :
  forallb p a = true ->
  match b with [] => True | c :: _ => p c = false end ->
  span_length p (a ++ b) = length a.
Proof.
  intros Ha Hb. induction a as [|x a IH]; simpl in *.
  - destruct b as [|c b]; simpl; [reflexivity|]. rewrite Hb. reflexivity.
  - destruct (p x); simpl in *; [|discriminate]. rewrite IH; auto.
Qed.

Lemma isdigit_not_space b : isdigit b = true -> isspace b = false.
Proof.
  unfold isdigit, isspace. set (n := Byte.to_N b).
  intros H. apply andb_true_iff in H as [H1 H2].
  apply N.leb_le in H1, H2.
  destruct (N.eqb_spec n 32); [lia|].
  destruct (N.leb_spec n 13); [lia|]. rewrite andb_false_r. reflexivity.
Qed.

Lemma isdigit_not_sign b :
  isdigit b = true -> Byte.eqb b MINUS = false /\ Byte.eqb b PLUS = false.
Proof.
  intros H. split.
  - destruct (Byte.eqb b MINUS) eqn:E; [|reflexivity].
    apply byte_eqb_eq in E. subst b. discriminate.
  - destruct (Byte.eqb b PLUS) eqn:E; [|reflexivity].
    apply byte_eqb_eq in E. subst b. discriminate.
Qed.

Lemma skipn_length_app (a b : list byte) : skipn (length a) (a ++ b) = b.
Proof. induction a; simpl; auto. Qed.

Lemma firstn_length_app (a b : list byte) : firstn (length a) (a ++ b) = a.
Proof. induction a; simpl; [destruct b|]; congruence. Qed.

Lemma integer_text_strtoumax s n :
  integer_text s n -> strtoumax s = (n, length s) /\ s <> [].
Proof.
  intros (ws & sg & ds & -> & Hws & Hsg & Hds & Hdig & ->).
  destruct ds as [|d ds]; [congruence|]. clear Hds.
  assert (Hd : isdigit d = true).
  { simpl in Hdig. apply andb_true_iff in Hdig. tauto. }
  destruct (isdigit_not_sign d Hd) as [Hm Hp].
  split.
  2:{ destruct ws; [|discriminate]. destruct Hsg as [->|[->| ->]];
      discriminate. }
  unfold strtoumax.
  assert (Hspan : span_length isspace (ws ++ sg ++ d :: ds) = length ws).
  { apply span_length_app; [assumption|].
    destruct Hsg as [->|[->| ->]]; simpl; auto.
    apply isdigit_not_space. assumption. }
  rewrite Hspan, skipn_length_app.
  rewrite !length_app.
  destruct Hsg as [->|[->| ->]]; cbn [app length].
  - rewrite Hm, Hp. cbn [orb skipn].
    rewrite (span_length_all _ _ Hdig). cbn [length firstn].
    rewrite firstn_all. unfold converted. cbn [bytes_eqb].
    f_equal. lia.
  - cbn [skipn]. change (Byte.eqb PLUS MINUS) with false.
    change (Byte.eqb PLUS PLUS) with true. cbn [orb skipn].
    rewrite (span_length_all _ _ Hdig). cbn [length firstn].
    rewrite firstn_all. unfold converted.
    change (bytes_eqb [PLUS] [MINUS]) with false. f_equal. lia.
  - cbn [skipn]. change (Byte.eqb MINUS MINUS) with true. cbn [orb skipn].
    rewrite (span_length_all _ _ Hdig). cbn [length firstn].
    rewrite firstn_all. unfold converted.
    change (bytes_eqb [MINUS] [MINUS]) with true. f_equal. lia.
Qed.

Lemma deref_nul_end s e :
  nul_free s -> deref s e = NUL -> (length s <= e)%nat.
Proof.
  intros Hn Hd. apply memchr_none_all in Hn.
  destruct (Nat.leb_spec (length s) e) as [H|H]; [assumption|].
  exfalso. apply Hn. rewrite <- Hd. apply nth_In. assumption.
Qed.

Lemma deref_end s : deref s (length s) = NUL.
Proof. unfold deref. apply nth_overflow. lia. Qed.

Lemma strtoumax_integer_text s u e :
  nul_free s -> strtoumax s = (u, e) -> e <> 0%nat -> deref s e = NUL ->
  integer_text s u.
Proof.
  intros Hn H He Hd. unfold strtoumax in H.
  set (ws := span_length isspace s) in *.
  set (s1 := skipn ws s) in *.
  set (neg := match s1 with b :: _ => Byte.eqb b MINUS | [] => false end) in *.
  set (sg := match s1 with
             | b :: _ => if (Byte.eqb b MINUS || Byte.eqb b PLUS)%bool
                         then 1%nat else 0%nat
             | [] => 0%nat
             end) in *.
  set (s2 := skipn sg s1) in *.
  set (nd := span_length isdigit s2) in *.
  destruct nd as [|nd'] eqn:End; [injection H as <- <-; congruence|].
  apply pair_equal_spec in H as [Hu Hend]. subst e.
  pose proof (deref_nul_end s _ Hn Hd) as Hlong.
  pose proof (span_length_le isspace s) as Hws. fold ws in Hws.
  assert (Hl1 : length s1 = (length s - ws)%nat) by apply length_skipn.
  assert (Hsg : (sg <= length s1)%nat).
  { unfold sg. destruct s1 as [|b t]; simpl; [lia|].
    destruct (_ || _)%bool; lia. }
  assert (Hl2 : length s2 = (length s1 - sg)%nat) by apply length_skipn.
  pose proof (span_length_le isdigit s2) as Hnd. fold nd in Hnd.
  rewrite End in Hnd.
  assert (Hall : S nd' = length s2) by lia.
  exists (firstn ws s), (firstn sg s1), s2.
  assert (Hdig : forallb isdigit s2 = true).
  { pose proof (span_firstn isdigit s2) as Hf. fold nd in Hf.
    rewrite End, Hall, firstn_all in Hf. exact Hf. }
  split.
  { unfold s2. rewrite (firstn_skipn sg s1). unfold s1.
    rewrite (firstn_skipn ws s). reflexivity. }
  split; [apply span_firstn|].
  rewrite Hall, firstn_all in Hu.
  assert (Hcases :
    (firstn sg s1 = [] /\ neg = false) \/
    (firstn sg s1 = [PLUS] /\ neg = false) \/
    (firstn sg s1 = [MINUS] /\ neg = true)).
  { unfold sg, neg. destruct s1 as [|b t]; [left; auto|].
    destruct (Byte.eqb b MINUS) eqn:Em.
    - apply byte_eqb_eq in Em. subst b. right. right. auto.
    - destruct (Byte.eqb b PLUS) eqn:Ep.
      + apply byte_eqb_eq in Ep. subst b. right. left. auto.
      + left. auto. }
  split; [tauto|].
  split; [intros E2; rewrite E2 in Hall; discriminate|].
  split; [assumption|].
  unfold converted. rewrite <- Hu.
  destruct Hcases as [[-> ->]|[[-> ->]|[-> ->]]]; reflexivity.
Qed.

(** ** Numbers *)

Lemma parse_value_uint32 k s :
  uint32_key k = true ->
  parse_value k s =
    (let '(uresult, endptr) := strtoumax (cstr s) in
     if ((UINT32_MAX <? uresult)
         || negb (Byte.eqb (deref (cstr s) endptr) NUL))%bool
     then Ret None
     else Ret (Some {| key := k; len := 4; value := D_uint32 uresult |})).
Proof.
  intros Hk. unfold parse_value. unfold uint32_key in Hk. rewrite Hk.
  assert (H4 : (k =? WGKEY_IPV4)%nat = false /\ (k =? WGKEY_IPV6)%nat = false).
  { apply orb_true_iff in Hk as [Hk|Hk];
      [apply orb_true_iff in Hk as [Hk|Hk]|];
      apply Nat.eqb_eq in Hk; subst k; split; reflexivity. }
  destruct H4 as [-> ->]. reflexivity.
Qed.

(** C4.  Under a timestamp, duration or error-number key a value that is
    not empty is decoded exactly when it is, from its first to its last
    byte, optional white space, an optional sign and one digit or more, and
    the number [strtoumax] makes of it (negated modulo 2^64 after a minus
    sign, capped at 2^64-1) is at most 2^32-1; the attribute then holds
    that number, and any other value gives the null pointer. *)
Theorem uint32_value_decoding k s :
  uint32_key k = true -> nul_free s -> s <> [] ->
  (forall n, integer_text s n -> n <= UINT32_MAX ->
     parse_value k s =
       Ret (Some {| key := k; len := 4; value := D_uint32 n |})) /\
  ((~ exists n, integer_text s n /\ n <= UINT32_MAX) ->
     parse_value k s = Ret None).
Proof.
  intros Hk Hn Hne. rewrite (parse_value_uint32 k s Hk).
  rewrite (cstr_nul_free s) by (apply memchr_none_all; assumption).
  split.
  - intros n Hi Hle. apply integer_text_strtoumax in Hi as [-> _].
    rewrite deref_end. destruct (Z.ltb_spec UINT32_MAX n); [lia|].
    rewrite (proj2 (byte_eqb_eq NUL NUL) eq_refl). reflexivity.
  - intros Hno. destruct (strtoumax s) as [u e] eqn:Es.
    destruct (Z.ltb_spec UINT32_MAX u) as [Hu|Hu]; [reflexivity|].
    destruct (Byte.eqb (deref s e) NUL) eqn:Ed; [|reflexivity].
    exfalso. apply byte_eqb_eq in Ed. apply Hno. exists u. split; [|assumption].
    apply (strtoumax_integer_text s u e); try assumption.
    intros ->. destruct s as [|b s]; [congruence|].
    apply deref_nul_end in Ed; [simpl in Ed; lia|assumption].
Qed.

(** ** Addresses with a prefix length *)

Lemma parse_ip_cidr_decoding c v :
  nul_free v ->
  (v = [] ->
     parse_ip_cidr c v =
       Some {| family := family c;
               ip := repeat NUL (if family c =? AF_INET then 4 else 16);
               cidr := 0 |}) /\
  (v <> [] -> memchr SLASH (length v) v = None -> parse_ip_cidr c v = None) /\
  (forall a suffix,
     v = a ++ SLASH :: suffix -> memchr SLASH (length a) a = None ->
     (forall addr n,
        inet_pton (family c) a = Some addr ->
        integer_text suffix n -> n <= UINT8_MAX ->
        parse_ip_cidr c v =
          Some {| family := family c; ip := addr; cidr := n |}) /\
     ((~ exists addr n, inet_pton (family c) a = Some addr /\
                        integer_text suffix n /\ n <= UINT8_MAX) ->
      parse_ip_cidr c v = None)).
Proof.
  intros Hn. pose proof Hn as Hin. apply memchr_none_all in Hin.
  unfold parse_ip_cidr, strchr. rewrite deref_head_nul.
  rewrite (cstr_nul_free v Hin).
  split; [intros ->; reflexivity|].
  split.
  { intros Hne Hs. destruct v; [congruence|]. rewrite Hs. reflexivity. }
  intros a suffix -> Ha.
  assert (Hsfx : nul_free suffix).
  { apply nul_free_app in Hn as [_ Hn].
    change (SLASH :: suffix) with ([SLASH] ++ suffix) in Hn.
    apply nul_free_app in Hn. tauto. }
  assert (Hhead : match a ++ SLASH :: suffix with
                  | [] => true
                  | _ :: _ => false
                  end = false) by (destruct a; reflexivity).
  rewrite Hhead.
  rewrite memchr_at by (auto; rewrite length_app; simpl; lia).
  rewrite firstn_length_app, skipn_past.
  split.
  - intros addr n Ha' Hi Hle. rewrite Ha'.
    apply integer_text_strtoumax in Hi as [-> Hne].
    rewrite deref_end. destruct (Z.ltb_spec UINT8_MAX n); [lia|].
    rewrite (proj2 (byte_eqb_eq NUL NUL) eq_refl).
    destruct suffix; [congruence|]. reflexivity.
  - intros Hno. destruct (inet_pton (family c) a) as [addr|]; [|reflexivity].
    destruct (strtoumax suffix) as [u e] eqn:Es.
    destruct (Z.ltb_spec UINT8_MAX u) as [Hu|Hu]; [reflexivity|].
    destruct (Byte.eqb (deref suffix e) NUL) eqn:Ed; [|reflexivity].
    destruct (Nat.eqb_spec e 0) as [He|He]; [reflexivity|].
    exfalso. apply byte_eqb_eq in Ed. apply Hno. exists addr, u.
    split; [reflexivity|]. split; [|assumption].
    apply (strtoumax_integer_text suffix u e); assumption.
Qed.

Lemma parse_value_cidr k v :
  cidr_key k = true ->
  parse_value k v =
    match parse_ip_cidr {| family := key_family k; ip := []; cidr := 0 |} v with
    | None => Ret None
    | Some c => Ret (Some (ip_attr k c))
    end.
Proof.
  unfold cidr_key, key_family, parse_value. intros Hk.
  destruct (Nat.eqb_spec k WGKEY_IPV4) as [->|H4]; [reflexivity|].
  simpl in Hk. rewrite Hk. reflexivity.
Qed.

(** C5.  Under a CIDR key the empty value gives the all-zero address with
    prefix length 0; a value without a slash that is not empty is refused;
    a value with a slash is decoded exactly when [inet_pton] accepts what
    stands before the first slash for the family of the key and what
    follows it is, to its end, optional white space, an optional sign and
    one digit or more, standing for a number of at most 255. *)
Theorem cidr_value_decoding k v :
  cidr_key k = true -> nul_free v ->
  (v = [] ->
     parse_value k v =
       Ret (Some (ip_attr k
              {| family := key_family k;
                 ip := repeat NUL (if key_family k =? AF_INET then 4 else 16);
                 cidr := 0 |}))) /\
  (v <> [] -> memchr SLASH (length v) v = None ->
     parse_value k v = Ret None) /\
  (forall a suffix,
     v = a ++ SLASH :: suffix -> memchr SLASH (length a) a = None ->
     (forall addr n,
        inet_pton (key_family k) a = Some addr ->
        integer_text suffix n -> n <= UINT8_MAX ->
        parse_value k v =
          Ret (Some (ip_attr k {| family := key_family k; ip := addr;
                                  cidr := n |}))) /\
     ((~ exists addr n, inet_pton (key_family k) a = Some addr /\
                        integer_text suffix n /\ n <= UINT8_MAX) ->
      parse_value k v = Ret None)).
Proof.
  intros Hk Hn. rewrite (parse_value_cidr k v Hk).
  destruct (parse_ip_cidr_decoding
              {| family := key_family k; ip := []; cidr := 0 |} v Hn)
    as (H1 & H2 & H3).
  cbn [family] in *.
  split; [intros Hv; rewrite (H1 Hv); reflexivity|].
  split; [intros Hv Hs; rewrite (H2 Hv Hs); reflexivity|].
  intros a suffix Hv Ha. destruct (H3 a suffix Hv Ha) as [H4 H5]. split.
  - intros addr n Hi Ht Hle. rewrite (H4 addr n Hi Ht Hle). reflexivity.
  - intros Hno. rewrite (H5 Hno). reflexivity.
Qed.

(** ** The read loop *)

(** C2.  When a [read] returns no byte, or fails with an [errno] other than
    the one for would-block, after chunks that each left the parse asking
    for more, [handle_request] returns [true] at once: neither callback is
    called, the caller learns of the failure from the result alone. *)
Theorem transport_error_returns chunks r r1 last_read rest :
  forallb (fun c => negb (length c =? 0)%nat) chunks = true ->
  feed r chunks = Ret (1, r1) ->
  match last_read with
  | ReadOk data => data = []
  | ReadFail e => would_block e = false
  end ->
  handle_request (map ReadOk chunks ++ last_read :: rest) r =
    Ret (Returned true r1).
Proof.
  intros Hne Hfeed Hlast. revert r Hfeed.
  induction chunks as [|c cs IH]; intros r Hfeed.
  - injection Hfeed as <-. destruct last_read as [data|e]; simpl.
    + subst data. reflexivity.
    + rewrite Hlast. reflexivity.
  - simpl in Hne. apply andb_true_iff in Hne as [Hc Hcs].
    destruct c as [|b c]; [discriminate|].
    cbn [map app handle_request]. cbn [feed] in Hfeed.
    destruct (RECV_BUFSIZE <? length (b :: c))%nat; [discriminate|].
    destruct (parse_request _ r (b :: c)) as [[ret r']| | |];
      try discriminate.
    unfold bind in *. cbn [fst snd] in *.
    destruct (Z.ltb_spec 0 ret) as [Hpos|Hle].
    + destruct (Z.ltb_spec ret 0); [lia|].
      destruct (Z.eqb_spec ret 0); [lia|].
      apply IH; assumption.
    + injection Hfeed as -> _. lia.
Qed.

(** ** Deferred writes *)

Lemma write_loop_blocked rooms e rest len_ :
  would_block e = true ->
  forall offset,
    (offset + list_sum rooms < len_)%nat ->
    write_loop (map WriteOk rooms ++ WriteFail e :: rest) len_ offset =
      Ret (Some (offset + list_sum rooms)%nat).
Proof.
  intros He. induction rooms as [|room rooms IH]; intros offset Hsum;
    simpl in *.
  - rewrite He, Nat.add_0_r. reflexivity.
  - rewrite Nat.min_l by lia.
    destruct (Nat.eqb_spec (offset + room) len_); [lia|].
    rewrite IH by lia. f_equal. f_equal. lia.
Qed.

(** C7.  When the socket takes less than the whole buffer and then reports
    would-block, and the request has no pending block or one large enough
    for what is left, [send_message] returns [false] with the bytes not yet
    written at the start of the pending block and their number in
    [buflen]; nothing else in the request changes. *)
Theorem partial_write_saved rooms e rest r data :
  would_block e = true ->
  (list_sum rooms < length data)%nat ->
  match buf r with
  | None => True
  | Some block => (length data - list_sum rooms <= length block)%nat
  end ->
  exists block',
    send_message (map WriteOk rooms ++ WriteFail e :: rest) r data =
      Ret (false, set_buf r (Some block') (length data - list_sum rooms)) /\
    firstn (length data - list_sum rooms) block' =
      skipn (list_sum rooms) data /\
    (buf r = None -> block' = skipn (list_sum rooms) data).
Proof.
  intros He Hsum Hfit. unfold send_message.
  rewrite (write_loop_blocked rooms e rest (length data) He 0%nat) by lia.
  cbn [bind Nat.add].
  assert (Hlen : length (skipn (list_sum rooms) data)
                 = (length data - list_sum rooms)%nat) by apply length_skipn.
  destruct (buf r) as [block|].
  - unfold memmove_into. rewrite Hlen.
    destruct (Nat.leb_spec (length data - list_sum rooms) (length block));
      [|lia].
    cbn [bind]. eexists. split; [reflexivity|]. split; [|discriminate].
    rewrite <- Hlen. apply firstn_length_app.
  - eexists. split; [reflexivity|]. split; [|reflexivity].
    rewrite <- Hlen. apply firstn_all.
Qed.

(** ** Teardown *)

(** C8.  Whatever the request holds and whether or not [close] succeeds,
    [close_connection] frees every node of the attribute list once, then
    the pending block if there is one, and leaves the request with every
    field as it is before a connection is accepted. *)
Theorem close_connection_resets close_failed r :
  close_connection close_failed r =
    (unset_request,
     map FreedAttr (attrs r)
       ++ match buf r with Some block => [FreedBuf block] | None => [] end).
Proof.
  assert (Hfree : forall l, free_attrs l = map FreedAttr l).
  { induction l as [|a l IH]; simpl; [|rewrite IH]; reflexivity. }
  unfold close_connection, unset_request. rewrite Hfree. reflexivity.
Qed.

(** * Further properties of the parser *)

(** ** What [parse_line] can return *)

Lemma parse_line_codes x req res :
  parse_line x req = Ret res -> lr_ret res <= 0 ->
  lr_ret res = 0 \/ parse_error (lr_ret res).
Proof.
  unfold parse_line, parse_error.
  destruct (memchr NL _ x) as [[|k]|].
  - intros [= <-]. auto.
  - destruct (memchr EQUALS _ _) as [j|]; [|intros [= <-]; cbn; auto].
    set (buf2 := store j NUL (store (S k) NUL x)).
    destruct (parse_key buf2 =? WGKEY_UNKNOWN)%nat; [intros [= <-]; cbn; auto|].
    destruct req as [r|].
    + destruct (WGKEY_ENDCMD <=? parse_key buf2)%nat;
        [intros [= <-]; cbn; auto|].
      destruct (strtoumax (cstr (skipn (S j) buf2))) as [v e].
      destruct ((UINT32_MAX <? v) || _)%bool; [intros [= <-]; cbn; auto|].
      destruct (negb _); intros [= <-]; cbn; auto. lia.
    + destruct (parse_key buf2 <=? WGKEY_ENDCMD)%nat;
        [intros [= <-]; cbn; auto|].
      destruct (parse_value _ _) as [[a|]| | |]; simpl;
        try discriminate; intros [= <-]; cbn; auto. lia.
  - destruct (MAX_LINESIZE <=? length x)%nat; intros [= <-]; cbn; auto.
    intros H. left. lia.
Qed.

Lemma parse_line_consumed x req res :
  parse_line x req = Ret res -> 0 < lr_ret res ->
  lr_ret res <= Z.of_nat (Nat.min (length x) MAX_LINESIZE).
Proof.
  intros H Hpos.
  destruct (memchr NL (scan_bound x) x) as [k|] eqn:E.
  - destruct (parse_line_found x req k E) as (res' & H' & Hret & _).
    rewrite H in H'. injection H' as <-.
    destruct Hret as [Hret|Hret]; [lia|].
    apply memchr_bounds in E as [E1 E2].
    pose proof (scan_bound_le x).
    unfold scan_bound in *.
    destruct (Nat.ltb_spec MAX_LINESIZE (length x)); lia.
  - destruct (Nat.leb_spec MAX_LINESIZE (length x)) as [Hl|Hl].
    + pose proof (parse_line_too_long x [] req E Hl) as Hp.
      rewrite app_nil_r, H in Hp. injection Hp as ->.
      cbn in Hpos. unfold E2BIG in Hpos. lia.
    + rewrite (parse_line_fragment x req E Hl) in H. injection H as <-.
      cbn. lia.
Qed.

Lemma parse_line_nonblank x req res k :
  memchr NL (scan_bound x) x = Some (S k) ->
  parse_line x req = Ret res -> lr_ret res <> 0.
Proof.
  intros E. unfold parse_line. fold (scan_bound x). rewrite E.
  destruct (memchr EQUALS _ _) as [j|];
    [|intros [= <-]; cbn; unfold EINVAL; lia].
  set (buf2 := store j NUL (store (S k) NUL x)).
  destruct (parse_key buf2 =? WGKEY_UNKNOWN)%nat;
    [intros [= <-]; cbn; unfold ENOENT; lia|].
  destruct req as [r|].
  - destruct (WGKEY_ENDCMD <=? parse_key buf2)%nat;
      [intros [= <-]; cbn; unfold ENOENT; lia|].
    destruct (strtoumax (cstr (skipn (S j) buf2))) as [v e].
    destruct ((UINT32_MAX <? v) || _)%bool;
      [intros [= <-]; cbn; unfold EINVAL; lia|].
    destruct (negb _); intros [= <-]; cbn; unfold EPROTONOSUPPORT; lia.
  - destruct (parse_key buf2 <=? WGKEY_ENDCMD)%nat;
      [intros [= <-]; cbn; unfold ENOENT; lia|].
    destruct (parse_value _ _) as [[a|]| | |]; simpl;
      try discriminate; intros [= <-]; cbn; unfold EINVAL; lia.
Qed.

(** X3.  On a buffer that is not empty [parse_line] returns one of the four
    error codes, or a number of bytes from 0 to the smaller of [len] and
    [MAX_LINESIZE]; it returns 0 exactly when the first byte is a
    newline. *)
Theorem parse_line_result_range x req :
  x <> [] -> (0 < MAX_LINESIZE)%nat ->
  exists res,
    parse_line x req = Ret res /\
    (parse_error (lr_ret res) \/
     0 <= lr_ret res <= Z.of_nat (Nat.min (length x) MAX_LINESIZE)) /\
    (lr_ret res = 0 <-> hd NUL x = NL).
Proof.
  intros Hne Hmax.
  destruct (parse_line_returns x req) as (res & H & _ & _).
  exists res. split; [exact H|]. split.
  - destruct (Z.leb_spec (lr_ret res) 0) as [Hle|Hgt].
    + destruct (parse_line_codes x req res H Hle) as [H0|He]; [|auto].
      right. lia.
    + right. pose proof (parse_line_consumed x req res H Hgt). lia.
  - destruct x as [|b x]; [congruence|]. cbn [hd].
    assert (Hb : (1 <= scan_bound (b :: x))%nat).
    { unfold scan_bound.
      destruct (Nat.ltb_spec MAX_LINESIZE (length (b :: x))); simpl in *; lia. }
    destruct (Byte.eqb b NL) eqn:Eb.
    + apply byte_eqb_eq in Eb. subst b.
      assert (E : memchr NL (scan_bound (NL :: x)) (NL :: x) = Some 0%nat).
      { destruct (scan_bound (NL :: x)); [lia|]. reflexivity. }
      unfold parse_line in H. fold (scan_bound (NL :: x)) in H.
      rewrite E in H. injection H as <-. cbn. tauto.
    + apply byte_eqb_neq in Eb. split; [|intros; contradiction].
      intros H0. exfalso.
      destruct (memchr NL (scan_bound (b :: x)) (b :: x)) as [k|] eqn:E.
      * destruct (parse_line_found _ req k E) as (res' & H' & Hret & _).
        rewrite H in H'. injection H' as <-.
        destruct k as [|k].
        -- destruct (scan_bound (b :: x)); [discriminate|].
           simpl in E. destruct (Byte.eqb b NL) eqn:Eb'.
           ++ apply byte_eqb_eq in Eb'. contradiction.
           ++ destruct (memchr NL n x); discriminate.
        -- exact (parse_line_nonblank _ req res k E H H0).
      * destruct (Nat.leb_spec MAX_LINESIZE (length (b :: x))) as [Hl|Hl].
        -- pose proof (parse_line_too_long (b :: x) [] req E Hl) as Hp.
           rewrite app_nil_r, H in Hp. injection Hp as ->.
           cbn in H0. unfold E2BIG in H0. lia.
        -- rewrite (parse_line_fragment (b :: x) req E Hl) in H.
           injection H as <-. cbn in H0. lia.
Qed.

(** ** What [parse_request] can return and what it leaves alone *)

Lemma parse_loop_codes f :
  forall st x ret st',
    parse_loop f st x = Ret (ret, st') ->
    ret = 1 \/ ret = 0 \/ parse_error ret.
Proof.
  induction f as [|f IH]; intros st x ret st' H.
  { destruct x; [|discriminate]. injection H as <- _. auto. }
  destruct x as [|a x]; [injection H as <- _; auto|].
  rewrite parse_loop_step in H.
  destruct (parse_line (a :: x) (line_mode st)) as [res| | |] eqn:Hp;
    try discriminate.
  unfold bind in H. cbv zeta in H.
  destruct (Z.leb_spec (lr_ret res) 0) as [Hle|Hgt].
  - injection H as <- _. right. apply (parse_line_codes _ _ _ Hp Hle).
  - destruct (lr_attr res); apply IH in H; exact H.
Qed.

(** X4.  Whatever the request, the chunk and the array, a call of
    [parse_request] has one of two outcomes.  Either the chunk has no NUL
    byte, a fragment is pending and the [memmove] of the splice ends beyond
    the array: the call stores outside the array.  Or the call returns,
    with 1, 0 or one of the four error codes: the [BUG()] of [parse_value]
    is out of reach of the bytes received. *)
Theorem parse_request_result room r x :
  (nul_free x /\ has_fragment r = true /\ (room < splice_end r x)%nat /\
   parse_request room r x = Undefined)
  \/
  ((nul_free x -> has_fragment r = true -> (splice_end r x <= room)%nat) /\
   exists ret r',
     parse_request room r x = Ret (ret, r') /\
     (ret = 1 \/ ret = 0 \/ parse_error ret)).
Proof.
  destruct (parse_request_cases room r x) as [[(Hx & Hf & Hlt) Hu]|Hret];
    [left; auto|].
  right. destruct Hret as (ret & r' & H). split.
  { intros Hx Hf. apply (parse_request_ret _ _ _ _ _ H Hx Hf). }
  exists ret, r'. split; [exact H|].
  destruct (nul_free_dec x) as [Hx|Hx].
  - apply parse_request_loop in H; [|assumption].
    apply (parse_loop_codes _ _ _ _ _ H).
  - rewrite parse_request_guarded in H by assumption.
    injection H as <- _. right. right. unfold parse_error. auto.
Qed.

Lemma parse_loop_frame f :
  forall st x ret st',
    parse_loop f st x = Ret (ret, st') ->
    fd st' = fd st /\ buf st' = buf st /\ buflen st' = buflen st /\
    (cmd st <> WGKEY_UNKNOWN ->
     cmd st' = cmd st /\ version st' = version st).
Proof.
  induction f as [|f IH]; intros st x ret st' H.
  { destruct x; [|discriminate]. injection H as _ <-. auto. }
  destruct x as [|a x]; [injection H as _ <-; auto|].
  rewrite parse_loop_step in H.
  destruct (parse_line_returns (a :: x) (line_mode st)) as (res & Hp & _ & Hs).
  rewrite Hp in H. unfold bind in H. cbv zeta in H.
  set (req1 := match lr_req res with Some r => r | None => st end) in *.
  assert (Hreq1 : fd req1 = fd st /\ buf req1 = buf st /\
                  buflen req1 = buflen st /\
                  (cmd st <> WGKEY_UNKNOWN ->
                   cmd req1 = cmd st /\ version req1 = version st)).
  { unfold req1, line_mode in *.
    destruct (Nat.eqb_spec (cmd st) WGKEY_UNKNOWN) as [Hc|Hc];
      destruct (lr_req res) as [r'|]; simpl in Hs; try contradiction.
    - destruct Hs as (H1 & H2 & H3 & _). repeat split; auto; contradiction.
    - auto. }
  destruct (Z.leb_spec (lr_ret res) 0) as [Hle|Hgt].
  - injection H as _ <-. exact Hreq1.
  - assert (Hgo : forall st2,
               fd st2 = fd req1 -> buf st2 = buf req1 ->
               buflen st2 = buflen req1 -> cmd st2 = cmd req1 ->
               version st2 = version req1 ->
               parse_loop f st2 (skipn (Z.to_nat (lr_ret res)) (a :: x))
                 = Ret (ret, st') ->
               fd st' = fd st /\ buf st' = buf st /\ buflen st' = buflen st /\
               (cmd st <> WGKEY_UNKNOWN ->
                cmd st' = cmd st /\ version st' = version st)).
    { intros st2 E1 E2 E3 E4 E5 H2. apply IH in H2.
      destruct H2 as (F1 & F2 & F3 & F4).
      destruct Hreq1 as (G1 & G2 & G3 & G4).
      repeat split; try congruence.
      - destruct (G4 H0) as [G5 G6]. destruct F4 as [F5 F6]; congruence.
      - destruct (G4 H0) as [G5 G6]. destruct F4 as [F5 F6]; congruence. }
    destruct (lr_attr res); eapply Hgo; try exact H; reflexivity.
Qed.

Lemma unlink_fragment_fields r :
  cmd (unlink_fragment r) = cmd r /\ version (unlink_fragment r) = version r /\
  fd (unlink_fragment r) = fd r /\ buf (unlink_fragment r) = buf r /\
  buflen (unlink_fragment r) = buflen r.
Proof.
  unfold unlink_fragment. destruct (has_fragment r); simpl; auto.
Qed.

(** X5.  A call of [parse_request] returns unless its splice leaves the
    array, and a call that returns never touches the descriptor nor the
    pending write ([fd], [buf], [buflen]), and once a command is set it
    leaves [cmd] and [version] as they are: a second command line cannot
    replace the first. *)
Theorem parse_request_frame room r x :
  (overruns room r x /\ parse_request room r x = Undefined) \/
  (exists ret r',
     parse_request room r x = Ret (ret, r') /\
     fd r' = fd r /\ buf r' = buf r /\ buflen r' = buflen r /\
     (cmd r <> WGKEY_UNKNOWN -> cmd r' = cmd r /\ version r' = version r)).
Proof.
  destruct (parse_request_cases room r x) as [Ho|(ret & r' & H)];
    [left; exact Ho|].
  right. exists ret, r'. split; [exact H|].
  destruct (nul_free_dec x) as [Hx|Hx].
  - apply parse_request_loop in H; [|assumption].
    apply parse_loop_frame in H.
    destruct (unlink_fragment_fields r) as (E1 & E2 & E3 & E4 & E5).
    rewrite E1, E2, E3, E4, E5 in H. exact H.
  - rewrite parse_request_guarded in H by assumption.
    injection H as _ <-. auto.
Qed.

(** ** The version of an accepted command *)

Lemma parse_line_accepts x r res :
  parse_line x (Some r) = Ret res -> 0 <= lr_ret res ->
  lr_req res = Some r \/
  exists k, (0 < k < WGKEY_ENDCMD)%nat /\ lr_req res = Some (set_cmd r k 1).
Proof.
  unfold parse_line.
  destruct (memchr NL _ x) as [[|k]|].
  - intros [= <-]. auto.
  - destruct (memchr EQUALS _ _) as [j|]; [|intros [= <-]; cbn; auto].
    set (buf2 := store j NUL (store (S k) NUL x)).
    destruct (Nat.eqb_spec (parse_key buf2) WGKEY_UNKNOWN) as [Hu|Hu];
      [intros [= <-]; cbn; auto|].
    destruct (Nat.leb_spec WGKEY_ENDCMD (parse_key buf2)) as [Hc|Hc];
      [intros [= <-]; cbn; auto|].
    destruct (strtoumax (cstr (skipn (S j) buf2))) as [v e].
    destruct ((UINT32_MAX <? v) || _)%bool; [intros [= <-]; cbn; auto|].
    cbn [version set_cmd].
    destruct (Z.eqb_spec v 1) as [->|H1]; cbn [negb].
    + intros [= <-] _. right. exists (parse_key buf2).
      unfold WGKEY_UNKNOWN in Hu. split; [lia|reflexivity].
    + intros [= <-]. cbn. unfold EPROTONOSUPPORT. lia.
  - destruct (MAX_LINESIZE <=? length x)%nat; intros [= <-]; cbn; auto.
Qed.

Lemma parse_loop_version f :
  forall st x ret st',
    parse_loop f st x = Ret (ret, st') -> 0 <= ret ->
    cmd st = WGKEY_UNKNOWN \/ version st = 1 ->
    cmd st' = WGKEY_UNKNOWN \/ version st' = 1.
Proof.
  induction f as [|f IH]; intros st x ret st' H Hret Hst.
  { destruct x; [|discriminate]. injection H as _ <-. exact Hst. }
  destruct x as [|a x]; [injection H as _ <-; exact Hst|].
  rewrite parse_loop_step in H.
  destruct (parse_line (a :: x) (line_mode st)) as [res| | |] eqn:Hp;
    try discriminate.
  unfold bind in H. cbv zeta in H.
  set (req1 := match lr_req res with Some r => r | None => st end) in *.
  assert (Hreq1 : 0 <= lr_ret res ->
                  cmd req1 = WGKEY_UNKNOWN \/ version req1 = 1).
  { intros Hnn. unfold req1. unfold line_mode in Hp.
    destruct (Nat.eqb_spec (cmd st) WGKEY_UNKNOWN) as [Hc|Hc].
    - destruct (parse_line_accepts _ _ _ Hp Hnn) as [E|(k & _ & E)];
        rewrite E; [left; exact Hc | right; reflexivity].
    - destruct (parse_line_returns (a :: x) None) as (res' & Hp' & _ & Hs).
      rewrite Hp in Hp'. injection Hp' as <-.
      destruct (lr_req res); [contradiction|].
      destruct Hst; [contradiction|auto]. }
  destruct (Z.leb_spec (lr_ret res) 0) as [Hle|Hgt].
  - injection H as <- <-. apply Hreq1. exact Hret.
  - destruct (lr_attr res); apply IH in H; auto; apply Hreq1; lia.
Qed.

(** X6.  If the request has no command yet, or has version 1, then a call
    of [parse_request] returns unless its splice leaves the array, and
    after a call that did not fail the same holds: a command is only ever
    stored, without an error being returned, together with version 1. *)
Theorem accepted_command_has_version_1 room r x :
  cmd r = WGKEY_UNKNOWN \/ version r = 1 ->
  (overruns room r x /\ parse_request room r x = Undefined) \/
  (exists ret r',
     parse_request room r x = Ret (ret, r') /\
     (0 <= ret -> cmd r' = WGKEY_UNKNOWN \/ version r' = 1)).
Proof.
  intros Hr.
  destruct (parse_request_cases room r x) as [Ho|(ret & r' & H)];
    [left; exact Ho|].
  right. exists ret, r'. split; [exact H|]. intros Hret.
  destruct (nul_free_dec x) as [Hx|Hx].
  - apply parse_request_loop in H; [|assumption].
    apply (parse_loop_version _ _ _ _ _ H Hret).
    destruct (unlink_fragment_fields r) as (E1 & E2 & _). rewrite E1, E2.
    exact Hr.
  - rewrite parse_request_guarded in H by assumption.
    injection H as <- _. unfold EINVAL in Hret. lia.
Qed.

(** ** The fragment kept between two calls *)

Lemma pending_no_fragment r : has_fragment r = false -> pending_fragment r = [].
Proof.
  unfold has_fragment, pending_fragment.
  destruct (last_attr (attrs r)); [intros ->|]; reflexivity.
Qed.

(** The fragment a run of the loop leaves is the end of the bytes it was
    given, shorter than a full line and without a newline. *)
Lemma parse_loop_fragment f :
  forall st x ret st',
    no_sentinel (attrs st) -> (length x <= f)%nat ->
    parse_loop f st x = Ret (ret, st') -> has_fragment st' = true ->
    exists before,
      x = before ++ pending_fragment st' /\
      pending_fragment st' <> [] /\
      (length (pending_fragment st') < MAX_LINESIZE)%nat /\
      memchr NL (length (pending_fragment st')) (pending_fragment st') = None.
Proof.
  induction f as [|f IH]; intros st x ret st' Hc Hl H Hf.
  { destruct x; [|simpl in Hl; lia]. rewrite parse_loop_nil in H.
    injection H as _ <-.
    destruct (no_sentinel_no_fragment st Hc) as (E & _). congruence. }
  destruct x as [|a x].
  { rewrite parse_loop_nil in H. injection H as _ <-.
    destruct (no_sentinel_no_fragment st Hc) as (E & _). congruence. }
  rewrite parse_loop_step in H.
  destruct (memchr NL (scan_bound (a :: x)) (a :: x)) as [k|] eqn:E.
  - destruct (parse_line_found _ (line_mode st) k E)
      as [res [Hp [Hret [Hattr Hsame]]]].
    rewrite Hp in H. unfold bind in H. cbv zeta in H.
    pose proof (line_mode_req1 st _ Hsame) as Hattrs.
    set (req1 := match lr_req res with Some r => r | None => st end) in *.
    destruct (Z.leb_spec (lr_ret res) 0) as [Hle|Hgt].
    + injection H as _ <-.
      assert (Hc1 : no_sentinel (attrs req1)) by (rewrite Hattrs; exact Hc).
      destruct (no_sentinel_no_fragment req1 Hc1) as (E1 & _). congruence.
    + destruct Hret as [Hret|Hret]; [lia|].
      rewrite Hret, Nat2Z.id in H.
      set (st2 := match lr_attr res with
                  | None => req1
                  | Some at_ => set_attrs req1 (attrs req1 ++ [at_])
                  end).
      assert (Hst2 : no_sentinel (attrs st2)).
      { unfold st2. destruct (lr_attr res) as [at_|] eqn:Ea.
        - simpl. rewrite Hattrs. apply no_sentinel_Forall.
          apply Forall_app. split; [apply no_sentinel_Forall; assumption|].
          constructor; [|constructor]. apply Hattr. reflexivity.
        - rewrite Hattrs. assumption. }
      assert (H' : parse_loop f st2 (skipn (S k) (a :: x)) = Ret (ret, st')).
      { unfold st2. destruct (lr_attr res); exact H. }
      apply IH in H'; [|assumption|apply skipn_shorter; [lia|assumption]
                       |assumption].
      destruct H' as (before & Hx & Hrest).
      exists (firstn (S k) (a :: x) ++ before). split; [|exact Hrest].
      rewrite <- app_assoc, <- Hx. symmetry. apply firstn_skipn.
  - destruct (Nat.leb_spec MAX_LINESIZE (length (a :: x))) as [Hlong|Hshort].
    + pose proof (parse_line_too_long (a :: x) [] (line_mode st) E Hlong) as Hp.
      rewrite app_nil_r in Hp. rewrite Hp in H. unfold bind in H.
      cbn [lr_ret lr_attr lr_req] in H. rewrite line_mode_same in H.
      change (- E2BIG <=? 0) with true in H. cbv iota in H.
      injection H as _ <-.
      destruct (no_sentinel_no_fragment st Hc) as (E1 & _). congruence.
    + rewrite (parse_line_fragment (a :: x) (line_mode st) E Hshort) in H.
      unfold bind in H. cbn [lr_ret lr_attr lr_req] in H.
      rewrite line_mode_same in H.
      destruct (Z.leb_spec (Z.of_nat (length (a :: x))) 0) as [Hle|Hgt];
        [simpl in Hle; lia|].
      rewrite Nat2Z.id, skipn_all, parse_loop_nil in H.
      injection H as _ <-.
      destruct (fragment_stashed st (a :: x)) as (Hpf & _ & _).
      cbv zeta in Hpf. rewrite Hpf.
      exists []. split; [reflexivity|]. split; [discriminate|].
      split; [assumption|].
      unfold scan_bound in E.
      destruct (Nat.ltb_spec MAX_LINESIZE (length (a :: x))); [lia|exact E].
Qed.

(** X7.  In every request reachable from an accepted connection, a pending
    fragment is not empty, is shorter than [MAX_LINESIZE] and holds neither
    a newline nor a NUL byte: what a connection keeps of an unfinished line
    is bounded. *)
Theorem pending_fragment_bounded r :
  reachable r -> has_fragment r = true ->
  pending_fragment r <> [] /\
  (length (pending_fragment r) < MAX_LINESIZE)%nat /\
  memchr NL (length (pending_fragment r)) (pending_fragment r) = None /\
  nul_free (pending_fragment r).
Proof.
  induction 1 as [r H|r room x ret r' Hr IH H]; intros Hf.
  - unfold has_fragment in Hf. rewrite H in Hf. discriminate.
  - destruct (nul_free_dec x) as [Hx|Hx].
    + apply parse_request_loop in H; [|assumption].
      assert (Hsplice : nul_free (pending_fragment r ++ x)).
      { apply nul_free_app. split; [|exact Hx].
        destruct (has_fragment r) eqn:Er.
        - apply IH. reflexivity.
        - rewrite (pending_no_fragment r Er). reflexivity. }
      apply parse_loop_fragment in H;
        [|apply unlink_no_sentinel, reachable_inv; assumption|lia|assumption].
      destruct H as (before & Hb & Hne & Hlen & Hnl).
      repeat split; try assumption.
      rewrite Hb in Hsplice. apply nul_free_app in Hsplice. tauto.
    + rewrite parse_request_guarded in H by assumption.
      injection H as _ <-. apply IH. exact Hf.
Qed.

Lemma parse_request_stashes room x :
  x <> [] -> (length x < MAX_LINESIZE)%nat ->
  memchr NL (length x) x = None -> nul_free x ->
  parse_request room accepted x
    = Ret (1, set_attrs accepted (attrs accepted ++ [incomplete x])).
Proof.
  intros Hne Hlen Hnl Hnul.
  rewrite parse_request_unguarded
    by (try assumption; apply fits_plain; reflexivity).
  change (pending_fragment accepted) with (@nil byte).
  change (unlink_fragment accepted) with accepted. rewrite app_nil_l.
  destruct x as [|a x]; [congruence|].
  cbn [length]. rewrite parse_loop_step.
  rewrite parse_line_fragment.
  - unfold bind. cbn [lr_ret lr_attr lr_req]. rewrite line_mode_same.
    destruct (Z.leb_spec (Z.of_nat (length (a :: x))) 0) as [Hle|Hgt];
      [simpl in Hle; lia|].
    rewrite Nat2Z.id, skipn_all, parse_loop_nil. reflexivity.
  - apply memchr_absent. apply memchr_none_all. assumption.
  - assumption.
Qed.

(** X19.  The [memmove] of the splice stores [len] bytes after [len] has been
    increased by the length of the fragment.  For [MAX_LINESIZE] of 3 or
    more and any read size [recv], there are a reachable request and a
    chunk of at most [recv] bytes, free of NUL bytes, for which that store
    ends beyond [recv + MAX_LINESIZE] bytes, the size of the array of
    [handle_request] when [recv] is [RECV_BUFSIZE]: the call of
    [parse_request] in such an array stores outside it. *)
Theorem splice_can_overrun recv :
  (3 <= MAX_LINESIZE)%nat -> (1 <= recv)%nat ->
  exists r chunk,
    reachable r /\ has_fragment r = true /\
    chunk <> [] /\ (length chunk <= recv)%nat /\ nul_free chunk /\
    (recv + MAX_LINESIZE < splice_end r chunk)%nat /\
    parse_request (recv + MAX_LINESIZE) r chunk = Undefined.
Proof.
  intros Hmax Hrecv.
  set (frag := repeat x61 (MAX_LINESIZE - 1)).
  assert (Hfl : length frag = (MAX_LINESIZE - 1)%nat) by apply repeat_length.
  assert (Hin : forall c n, c <> x61 -> ~ In c (repeat x61 n)).
  { intros c n Hc Hi. apply repeat_spec in Hi. congruence. }
  exists (set_attrs accepted (attrs accepted ++ [incomplete frag])),
         (repeat x61 recv).
  destruct (fragment_stashed accepted frag) as (Hpf & _ & Hhas).
  cbv zeta in Hpf, Hhas.
  split.
  { apply (reachable_parse accepted MAX_LINESIZE frag 1).
    - apply reachable_accept. reflexivity.
    - apply parse_request_stashes.
      + intros E. rewrite E in Hfl. simpl in Hfl. lia.
      + lia.
      + apply memchr_none_all. apply Hin. discriminate.
      + apply memchr_none_all. apply Hin. discriminate. }
  assert (Hnul : nul_free (repeat x61 recv))
    by (apply memchr_none_all, Hin; discriminate).
  assert (Hend : (recv + MAX_LINESIZE
                  < splice_end
                      (set_attrs accepted (attrs accepted ++ [incomplete frag]))
                      (repeat x61 recv))%nat).
  { unfold splice_end. rewrite Hpf, Hfl, repeat_length. lia. }
  split; [exact Hhas|].
  split; [destruct recv; [lia|discriminate]|].
  split; [rewrite repeat_length; lia|].
  split; [exact Hnul|].
  split; [exact Hend|].
  apply parse_request_overrun. repeat split; assumption.
Qed.

(** ** The command line *)

Lemma parse_line_command name text rest r :
  well_framed name text -> nul_free text ->
  parse_line (name ++ EQUALS :: text ++ NL :: rest) (Some r) =
    (let fail (e : Z) (q : option wg_dynamic_request) :=
       Ret {| lr_ret := - e; lr_attr := None; lr_req := q |} in
     let key_ := parse_key name in
     if ((key_ =? WGKEY_UNKNOWN) || (WGKEY_ENDCMD <=? key_))%nat%bool
     then fail ENOENT (Some r)
     else
       let '(res, endptr) := strtoumax text in
       if ((UINT32_MAX <? res)
           || negb (Byte.eqb (deref text endptr) NUL))%bool
       then fail EINVAL (Some r)
       else if res =? 1
       then Ret {| lr_ret := Z.of_nat (S (length name + S (length text)));
                   lr_attr := None;
                   lr_req := Some (set_cmd r key_ 1) |}
       else fail EPROTONOSUPPORT (Some (set_cmd r key_ res))).
Proof.
  intros (H1 & H2 & H3 & H4) Hn.
  rewrite parse_line_record by assumption. cbv zeta.
  rewrite (cstr_nul_free text) by (apply memchr_none_all; assumption).
  destruct (parse_key name =? WGKEY_UNKNOWN)%nat; [reflexivity|].
  destruct (WGKEY_ENDCMD <=? parse_key name)%nat; [reflexivity|].
  cbn [orb]. destruct (strtoumax text) as [v e].
  destruct ((UINT32_MAX <? v) || _)%bool; [reflexivity|].
  cbn [version set_cmd]. destruct (Z.eqb_spec v 1) as [->|Hv]; reflexivity.
Qed.

(** X8.  While no command is set, a record [name=text] is refused with
    [-ENOENT], the request untouched, unless [name] is a command name.  With
    a command name it is accepted exactly when [text] reads as the number
    1; for another number of at most 2^32-1, and for an empty [text], read
    as 0, it fails with [-EPROTONOSUPPORT] once [cmd] and [version] are
    stored; any other [text] gives [-EINVAL] and leaves the request
    untouched. *)
Theorem command_line_decoding name text rest r :
  well_framed name text -> nul_free text ->
  ((parse_key name = WGKEY_UNKNOWN \/ (WGKEY_ENDCMD <= parse_key name)%nat) ->
   parse_line (name ++ EQUALS :: text ++ NL :: rest) (Some r) =
     Ret {| lr_ret := - ENOENT; lr_attr := None; lr_req := Some r |}) /\
  ((0 < parse_key name < WGKEY_ENDCMD)%nat ->
   (forall n, integer_text text n -> n <= UINT32_MAX ->
      parse_line (name ++ EQUALS :: text ++ NL :: rest) (Some r) =
        if n =? 1
        then Ret {| lr_ret := Z.of_nat (S (length name + S (length text)));
                    lr_attr := None;
                    lr_req := Some (set_cmd r (parse_key name) 1) |}
        else Ret {| lr_ret := - EPROTONOSUPPORT; lr_attr := None;
                    lr_req := Some (set_cmd r (parse_key name) n) |}) /\
   (text = [] ->
      parse_line (name ++ EQUALS :: text ++ NL :: rest) (Some r) =
        Ret {| lr_ret := - EPROTONOSUPPORT; lr_attr := None;
               lr_req := Some (set_cmd r (parse_key name) 0) |}) /\
   (text <> [] -> (~ exists n, integer_text text n /\ n <= UINT32_MAX) ->
      parse_line (name ++ EQUALS :: text ++ NL :: rest) (Some r) =
        Ret {| lr_ret := - EINVAL; lr_attr := None; lr_req := Some r |})).
Proof.
  intros Hw Hn. rewrite (parse_line_command name text rest r Hw Hn). cbv zeta.
  split.
  - intros [Hk|Hk].
    + rewrite Hk. reflexivity.
    + destruct (Nat.leb_spec WGKEY_ENDCMD (parse_key name)); [|lia].
      rewrite orb_true_r. reflexivity.
  - intros Hk.
    destruct (Nat.eqb_spec (parse_key name) WGKEY_UNKNOWN) as [Hu|Hu];
      [unfold WGKEY_UNKNOWN in Hu; lia|].
    destruct (Nat.leb_spec WGKEY_ENDCMD (parse_key name)); [lia|].
    cbn [orb]. split; [|split].
    + intros n Hi Hle. apply integer_text_strtoumax in Hi as [-> _].
      rewrite deref_end. destruct (Z.ltb_spec UINT32_MAX n); [lia|].
      rewrite (proj2 (byte_eqb_eq NUL NUL) eq_refl). cbn [orb negb].
      destruct (n =? 1); reflexivity.
    + intros ->. reflexivity.
    + intros Hne Hno. destruct (strtoumax text) as [u e] eqn:Es.
      destruct (Z.ltb_spec UINT32_MAX u) as [Hu'|Hu']; [reflexivity|].
      destruct (Byte.eqb (deref text e) NUL) eqn:Ed; [|reflexivity].
      exfalso. apply byte_eqb_eq in Ed. apply Hno. exists u.
      split; [|assumption].
      apply (strtoumax_integer_text text u e); try assumption.
      intros ->. destruct text as [|b t]; [congruence|].
      apply deref_nul_end in Ed; [simpl in Ed; lia|assumption].
Qed.

(** ** Errors do not roll the request back *)

Lemma memchr_split c n x i :
  memchr c n x = Some i ->
  exists a t, x = a ++ c :: t /\ length a = i /\
              memchr c (length a) a = None.
Proof.
  revert x i. induction n as [|n IH]; intros [|b x] i H; try discriminate.
  simpl in H. destruct (Byte.eqb b c) eqn:E.
  - injection H as <-. apply byte_eqb_eq in E. subst b.
    exists [], x. auto.
  - destruct (memchr c n x) as [k|] eqn:Ek; [|discriminate].
    injection H as <-. destruct (IH x k Ek) as (a & t & -> & Hl & Hn).
    exists (b :: a), t. split; [reflexivity|]. split; [simpl; congruence|].
    simpl. rewrite E, Hn. reflexivity.
Qed.

(** A call that fails with [-EPROTONOSUPPORT] has found a newline and,
    before it, an equals sign. *)
Lemma parse_line_unsupported_shape x req res :
  parse_line x req = Ret res -> lr_ret res = - EPROTONOSUPPORT ->
  exists k j,
    memchr NL (scan_bound x) x = Some (S k) /\
    memchr EQUALS (S k) (store (S k) NUL x) = Some j.
Proof.
  unfold parse_line. fold (scan_bound x).
  destruct (memchr NL (scan_bound x) x) as [[|k]|].
  - intros [= <-]. discriminate.
  - replace (S (S k) - 1)%nat with (S k) by lia.
    destruct (memchr EQUALS (S k) (store (S k) NUL x)) as [j|] eqn:Eq;
      [|intros [= <-]; discriminate].
    intros _ _. exists k, j. auto.
  - destruct (MAX_LINESIZE <=? length x)%nat; intros [= <-]; cbn [lr_ret];
      unfold EPROTONOSUPPORT, E2BIG; lia.
Qed.

(** The line on which a call in command mode fails with
    [-EPROTONOSUPPORT] is a record whose name is a command name and whose
    text is empty or an integer other than 1: the request it leaves has
    that command and that number as its [cmd] and [version]. *)
Lemma parse_line_unsupported_record x r res :
  nul_free x -> parse_line x (Some r) = Ret res ->
  lr_ret res = - EPROTONOSUPPORT ->
  exists name text tail n,
    x = name ++ EQUALS :: text ++ NL :: tail /\
    well_framed name text /\
    (0 < parse_key name < WGKEY_ENDCMD)%nat /\
    (text = [] /\ n = 0 \/ integer_text text n) /\
    n <> 1 /\ n <= UINT32_MAX /\
    lr_req res = Some (set_cmd r (parse_key name) n).
Proof.
  intros Hnul H Hret.
  destruct (parse_line_unsupported_shape x _ res H Hret) as (k & j & E & Eq).
  pose proof (memchr_bounds _ _ _ _ E) as [Hk _].
  destruct (memchr_split _ _ _ _ E) as (a & t & -> & Hla & Hna).
  rewrite <- Hla in Eq. rewrite store_at in Eq.
  rewrite memchr_prefix in Eq by lia.
  destruct (memchr_split _ _ _ _ Eq) as (name & text & -> & Hlj & Hne).
  assert (Hframe : well_framed name text).
  { apply memchr_none_all in Hna. unfold well_framed.
    repeat split; try assumption.
    - apply memchr_none_all. intros Hi. apply Hna.
      apply in_or_app. left. exact Hi.
    - apply memchr_none_all. intros Hi. apply Hna.
      apply in_or_app. right. right. exact Hi.
    - rewrite length_app in Hla. cbn [length] in Hla.
      assert (scan_bound ((name ++ EQUALS :: text) ++ NL :: t)
              <= MAX_LINESIZE)%nat.
      { unfold scan_bound.
        destruct (Nat.ltb_spec MAX_LINESIZE
                    (length ((name ++ EQUALS :: text) ++ NL :: t))); lia. }
      lia. }
  assert (Htext : nul_free text).
  { apply nul_free_app in Hnul as [Hnul _].
    apply nul_free_app in Hnul as [_ Hnul].
    change (EQUALS :: text) with ([EQUALS] ++ text) in Hnul.
    apply nul_free_app in Hnul. tauto. }
  rewrite <- app_assoc in H. cbn [app] in H.
  rewrite (parse_line_command name text t r Hframe Htext) in H.
  cbv zeta in H.
  destruct (Nat.eqb_spec (parse_key name) WGKEY_UNKNOWN) as [Hu|Hu];
    [injection H as <-; discriminate|].
  destruct (Nat.leb_spec WGKEY_ENDCMD (parse_key name)) as [Hc|Hc];
    [injection H as <-; discriminate|].
  cbn [orb] in H. destruct (strtoumax text) as [v e] eqn:Es.
  destruct (Z.ltb_spec UINT32_MAX v) as [Hv|Hv];
    [injection H as <-; discriminate|].
  destruct (Byte.eqb (deref text e) NUL) eqn:Ed;
    [|injection H as <-; discriminate].
  cbn [orb negb] in H.
  destruct (Z.eqb_spec v 1) as [H1|H1].
  { injection H as <-. cbn [lr_ret] in Hret. unfold EPROTONOSUPPORT in Hret.
    lia. }
  injection H as <-. apply byte_eqb_eq in Ed.
  exists name, text, t, v. rewrite <- app_assoc. cbn [app].
  split; [reflexivity|]. split; [exact Hframe|].
  split; [unfold WGKEY_UNKNOWN in Hu; lia|].
  split.
  { destruct e as [|e].
    - left. apply deref_nul_end in Ed; [|assumption].
      destruct text; [|simpl in Ed; lia].
      split; [reflexivity|]. vm_compute in Es. congruence.
    - right. apply (strtoumax_integer_text text v (S e));
        [assumption | assumption | discriminate | assumption]. }
  split; [assumption|]. split; [assumption|]. reflexivity.
Qed.

(** A line consumed in command mode is an unfinished line, which takes all
    the bytes, or a command line with version 1. *)
Lemma parse_line_command_consumed x r res :
  parse_line x (Some r) = Ret res -> 0 < lr_ret res ->
  lr_ret res = Z.of_nat (length x) \/
  exists k, (0 < k < WGKEY_ENDCMD)%nat /\
            lr_req res = Some (set_cmd r k 1) /\ lr_attr res = None.
Proof.
  unfold parse_line.
  destruct (memchr NL _ x) as [[|k]|].
  - intros [= <-]. cbn [lr_ret]. lia.
  - destruct (memchr EQUALS _ _) as [j|];
      [|intros [= <-]; cbn [lr_ret]; unfold EINVAL; lia].
    set (buf2 := store j NUL (store (S k) NUL x)).
    destruct (Nat.eqb_spec (parse_key buf2) WGKEY_UNKNOWN) as [Hu|Hu];
      [intros [= <-]; cbn [lr_ret]; unfold ENOENT; lia|].
    destruct (Nat.leb_spec WGKEY_ENDCMD (parse_key buf2)) as [Hc|Hc];
      [intros [= <-]; cbn [lr_ret]; unfold ENOENT; lia|].
    destruct (strtoumax (cstr (skipn (S j) buf2))) as [v e].
    destruct ((UINT32_MAX <? v) || _)%bool;
      [intros [= <-]; cbn [lr_ret]; unfold EINVAL; lia|].
    cbn [version set_cmd].
    destruct (Z.eqb_spec v 1) as [->|H1]; cbn [negb].
    + intros [= <-] _. right. exists (parse_key buf2).
      unfold WGKEY_UNKNOWN in Hu. split; [lia|]. split; reflexivity.
    + intros [= <-]. cbn [lr_ret]. unfold EPROTONOSUPPORT. lia.
  - destruct (MAX_LINESIZE <=? length x)%nat; intros [= <-]; cbn [lr_ret].
    + unfold E2BIG. lia.
    + intros _. left. reflexivity.
Qed.

(** When the loop ends with [-EPROTONOSUPPORT], it is its first line that
    was refused. *)
Lemma parse_loop_unsupported f :
  forall st x st',
    parse_loop f st x = Ret (- EPROTONOSUPPORT, st') ->
    cmd st = WGKEY_UNKNOWN /\
    exists res,
      parse_line x (Some st) = Ret res /\
      lr_ret res = - EPROTONOSUPPORT /\ lr_req res = Some st'.
Proof.
  intros st x st' H.
  destruct (parse_loop_grows f st x _ st' H) as [_ Hg].
  destruct (Hg eq_refl) as (Hcmd & _). split; [exact Hcmd|].
  destruct f as [|f]; [destruct x; discriminate|].
  destruct x as [|a x]; [discriminate|].
  rewrite parse_loop_step in H.
  assert (Hm : line_mode st = Some st).
  { unfold line_mode. rewrite Hcmd. reflexivity. }
  rewrite Hm in H.
  destruct (parse_line (a :: x) (Some st)) as [res| | |] eqn:Hp;
    try discriminate.
  unfold bind in H. cbv zeta in H.
  destruct (Z.leb_spec (lr_ret res) 0) as [Hle|Hgt].
  - injection H as Hr Hs. exists res. split; [reflexivity|].
    split; [exact Hr|].
    destruct (parse_line_unsupported _ _ _ Hp Hr)
      as (r0 & k & v & _ & Hreq & _).
    rewrite Hreq in *. congruence.
  - exfalso.
    destruct (parse_line_command_consumed _ _ _ Hp Hgt)
      as [Hall|(k & Hk & Hreq & Hattr)].
    + rewrite Hall, Nat2Z.id, skipn_all in H.
      destruct (lr_attr res); rewrite parse_loop_nil in H; discriminate.
    + rewrite Hreq, Hattr in H.
      destruct (parse_loop_grows f _ _ _ st' H) as [_ Hg'].
      destruct (Hg' eq_refl) as (Hcmd' & _).
      cbn [cmd set_cmd] in Hcmd'. unfold WGKEY_UNKNOWN in Hcmd'. lia.
Qed.

(** C10.  When a call fails after lines that a call on their own would have
    consumed, the attributes those lines gave are still in the list.  And
    when it fails with [-EPROTONOSUPPORT], [cmd] was unset and the line
    that failed is a record [name=text] with a command name and with a
    text that is empty, read as 0, or an integer other than 1: the request
    is left as it was but for [cmd], now the command of that name, and
    [version], now that number. *)
Theorem error_keeps_progress room r before r1 rest ret r2 :
  reachable r -> nul_free (before ++ rest) ->
  parse_request room r before = Ret (1, r1) -> has_fragment r1 = false ->
  parse_request room r (before ++ rest) = Ret (ret, r2) -> ret < 0 ->
  (exists more, attrs r2 = attrs r1 ++ more) /\
  (ret = - EPROTONOSUPPORT ->
   cmd r1 = WGKEY_UNKNOWN /\
   exists name text tail n,
     rest = name ++ EQUALS :: text ++ NL :: tail /\
     well_framed name text /\
     (0 < parse_key name < WGKEY_ENDCMD)%nat /\
     (text = [] /\ n = 0 \/ integer_text text n) /\
     n <> 1 /\ n <= UINT32_MAX /\
     r2 = set_cmd r1 (parse_key name) n).
Proof.
  intros Hr Hnul Hb Hf H Hret.
  pose proof (parse_request_ret _ _ _ _ _ H Hnul) as Hfit.
  apply nul_free_app in Hnul as [_ Hrest].
  rewrite <- (parse_request_app_more room room room r before rest r1) in H;
    [|apply reachable_inv; assumption|assumption|assumption
     |apply fits_plain; assumption|assumption].
  apply parse_request_loop in H; [|assumption].
  destruct (fragment_absent r1 Hf) as [Hp1 Hp2]. rewrite Hp1, Hp2 in H.
  cbn [app] in H. split.
  - apply parse_loop_grows in H as [Hm _]. exact Hm.
  - intros ->. apply parse_loop_unsupported in H as (Hcmd & res & Hp & Hl & Hq).
    split; [exact Hcmd|].
    destruct (parse_line_unsupported_record rest r1 res Hrest Hp Hl)
      as (name & text & tail & n & Hx & Hw & Hk & Hn & Hn1 & Hn32 & Hreq).
    exists name, text, tail, n. rewrite Hq in Hreq.
    injection Hreq as ->. auto 10.
Qed.

(** ** A whole message *)

Lemma record_bytes_app name text tl :
  record_bytes name text ++ tl = name ++ EQUALS :: text ++ NL :: tl.
Proof.
  unfold record_bytes. rewrite <- app_assoc. cbn [app].
  rewrite <- app_assoc. reflexivity.
Qed.

Lemma skipn_record name text (tl : list byte) :
  skipn (S (length name + S (length text)))
    (name ++ EQUALS :: text ++ NL :: tl) = tl.
Proof.
  replace (name ++ EQUALS :: text ++ NL :: tl)
    with ((name ++ EQUALS :: text) ++ NL :: tl)
    by (rewrite <- app_assoc; reflexivity).
  replace (length name + S (length text))%nat
    with (length (name ++ EQUALS :: text))
    by (rewrite length_app; reflexivity).
  apply skipn_past.
Qed.

Lemma parse_loop_cons f st x :
  x <> [] ->
  parse_loop (S f) st x =
    (res <- parse_line x (line_mode st) ;;
     let req1 := match lr_req res with Some r => r | None => st end in
     if lr_ret res <=? 0 then Ret (lr_ret res, req1)
     else
       let rest' := skipn (Z.to_nat (lr_ret res)) x in
       match lr_attr res with
       | None => parse_loop f req1 rest'
       | Some at_ => parse_loop f (set_attrs req1 (attrs req1 ++ [at_])) rest'
       end).
Proof.
  destruct x; [congruence|]. intros _. apply parse_loop_step.
Qed.

Lemma record_not_nil name text (tl : list byte) :
  name ++ EQUALS :: text ++ NL :: tl <> [].
Proof. destruct name; discriminate. Qed.

Lemma parse_loop_record f st name text a tl :
  cmd st <> WGKEY_UNKNOWN -> decodes_to name text a ->
  parse_loop (S f) st (record_bytes name text ++ tl) =
    parse_loop f (set_attrs st (attrs st ++ [a])) tl.
Proof.
  intros Hc ((H1 & H2 & H3 & H4) & Hk & Hv).
  rewrite record_bytes_app.
  rewrite parse_loop_cons by apply record_not_nil.
  assert (Hm : line_mode st = None).
  { unfold line_mode. destruct (Nat.eqb_spec (cmd st) WGKEY_UNKNOWN);
      [contradiction|reflexivity]. }
  rewrite Hm, parse_line_record by assumption. cbv zeta.
  destruct (Nat.eqb_spec (parse_key name) WGKEY_UNKNOWN) as [Hu|Hu];
    [unfold WGKEY_UNKNOWN, WGKEY_ENDCMD in *; lia|].
  destruct (Nat.leb_spec (parse_key name) WGKEY_ENDCMD); [lia|].
  rewrite Hv. unfold bind. cbn [lr_ret lr_attr lr_req].
  destruct (Z.leb_spec (Z.of_nat (S (length name + S (length text)))) 0);
    [lia|].
  rewrite Nat2Z.id, skipn_record. reflexivity.
Qed.

Lemma parse_loop_records recs :
  forall f st tl,
    cmd st <> WGKEY_UNKNOWN ->
    Forall (fun rec => decodes_to (fst (fst rec)) (snd (fst rec)) (snd rec))
      recs ->
    parse_loop (length recs + f) st
      (concat (map (fun rec => record_bytes (fst (fst rec)) (snd (fst rec)))
                 recs) ++ tl)
    = parse_loop f (set_attrs st (attrs st ++ map snd recs)) tl.
Proof.
  induction recs as [|[[name text] a] recs IH]; intros f st tl Hc Hall.
  - simpl. rewrite app_nil_r, set_attrs_same. reflexivity.
  - inversion Hall as [|? ? Hd Hrest]; subst. cbn [fst snd] in Hd.
    cbn [map concat length Nat.add fst snd]. rewrite <- app_assoc.
    rewrite (parse_loop_record _ st name text a) by assumption.
    rewrite IH by (auto). cbn [attrs set_attrs].
    rewrite <- app_assoc. reflexivity.
Qed.

Lemma parse_loop_blank f st tl :
  (0 < MAX_LINESIZE)%nat -> parse_loop (S f) st (NL :: tl) = Ret (0, st).
Proof.
  intros Hmax. rewrite parse_loop_step. unfold parse_line.
  fold (scan_bound (NL :: tl)).
  assert (E : memchr NL (scan_bound (NL :: tl)) (NL :: tl) = Some 0%nat).
  { unfold scan_bound.
    destruct (Nat.ltb_spec MAX_LINESIZE (length (NL :: tl)));
      [destruct MAX_LINESIZE; [lia|reflexivity] | reflexivity]. }
  rewrite E. unfold bind. cbn [lr_ret lr_attr lr_req].
  rewrite line_mode_same. reflexivity.
Qed.

Lemma parse_loop_command f st name text tl :
  cmd st = WGKEY_UNKNOWN -> well_framed name text -> nul_free text ->
  (0 < parse_key name < WGKEY_ENDCMD)%nat -> integer_text text 1 ->
  parse_loop (S f) st (record_bytes name text ++ tl) =
    parse_loop f (set_cmd st (parse_key name) 1) tl.
Proof.
  intros Hc Hw Hn Hk Hi.
  rewrite record_bytes_app.
  rewrite parse_loop_cons by apply record_not_nil.
  assert (Hm : line_mode st = Some st).
  { unfold line_mode. rewrite Hc. reflexivity. }
  rewrite Hm, (parse_line_command name text tl st Hw Hn). cbv zeta.
  destruct (Nat.eqb_spec (parse_key name) WGKEY_UNKNOWN) as [Hu|Hu];
    [unfold WGKEY_UNKNOWN in Hu; lia|].
  destruct (Nat.leb_spec WGKEY_ENDCMD (parse_key name)); [lia|].
  cbn [orb]. apply integer_text_strtoumax in Hi as [-> _].
  rewrite deref_end.
  rewrite (proj2 (byte_eqb_eq NUL NUL) eq_refl).
  change (UINT32_MAX <? 1) with false. cbn [orb negb Z.eqb Pos.eqb].
  unfold bind. cbn [lr_ret lr_attr lr_req].
  destruct (Z.leb_spec (Z.of_nat (S (length name + S (length text)))) 0);
    [lia|].
  rewrite Nat2Z.id, skipn_record. reflexivity.
Qed.

(** X9.  A message made of a command line with version 1, attribute
    records that each decode, and a blank line is parsed in one call to
    result 0: the command is stored with version 1 and the attributes are
    appended in the order of their records.  What follows the blank line
    in the chunk is not parsed, but it is scanned for NUL bytes with the
    rest of the chunk before anything is parsed: a NUL byte anywhere in
    the chunk makes the call return [-EINVAL] and leave the request as it
    was. *)
Theorem message_decoded room r name0 text0 recs trailing :
  cmd r = WGKEY_UNKNOWN -> has_fragment r = false ->
  well_framed name0 text0 ->
  (0 < parse_key name0 < WGKEY_ENDCMD)%nat -> integer_text text0 1 ->
  Forall (fun rec => decodes_to (fst (fst rec)) (snd (fst rec)) (snd rec))
    recs ->
  (nul_free (record_bytes name0 text0
             ++ concat (map (fun rec =>
                               record_bytes (fst (fst rec)) (snd (fst rec)))
                          recs)
             ++ NL :: trailing) ->
   parse_request room r
     (record_bytes name0 text0
      ++ concat (map (fun rec => record_bytes (fst (fst rec)) (snd (fst rec)))
                   recs)
      ++ NL :: trailing)
   = Ret (0, set_attrs (set_cmd r (parse_key name0) 1)
               (attrs r ++ map snd recs)))
  /\
  (~ nul_free (record_bytes name0 text0
               ++ concat (map (fun rec =>
                                 record_bytes (fst (fst rec)) (snd (fst rec)))
                            recs)
               ++ NL :: trailing) ->
   parse_request room r
     (record_bytes name0 text0
      ++ concat (map (fun rec => record_bytes (fst (fst rec)) (snd (fst rec)))
                   recs)
      ++ NL :: trailing)
   = Ret (- EINVAL, r)).
Proof.
  intros Hc Hf Hw Hk Hi Hall.
  split; [|intros Hnul; apply parse_request_guarded; exact Hnul].
  intros Hnul.
  set (body := concat (map (fun rec =>
                              record_bytes (fst (fst rec)) (snd (fst rec)))
                         recs)) in *.
  set (msg := record_bytes name0 text0 ++ body ++ NL :: trailing) in *.
  assert (Hmax : (0 < MAX_LINESIZE)%nat) by (destruct Hw as (_ & _ & _ & H); lia).
  assert (Htext : nul_free text0).
  { unfold msg, record_bytes in Hnul.
    apply nul_free_app in Hnul as [Hnul _].
    apply nul_free_app in Hnul as [_ Hnul].
    change (EQUALS :: text0 ++ [NL]) with ([EQUALS] ++ text0 ++ [NL]) in Hnul.
    apply nul_free_app in Hnul as [_ Hnul].
    apply nul_free_app in Hnul. tauto. }
  rewrite parse_request_unguarded
    by (try assumption; apply fits_plain; assumption).
  rewrite (pending_no_fragment r Hf), app_nil_l.
  assert (Hun : unlink_fragment r = r).
  { unfold unlink_fragment. rewrite Hf. reflexivity. }
  rewrite Hun.
  rewrite (parse_loop_fuel _ (S (length recs + S (length msg))));
    [|lia|lia].
  unfold msg.
  rewrite (parse_loop_command _ r name0 text0) by assumption.
  rewrite parse_loop_records;
    [|cbn [cmd set_cmd]; unfold WGKEY_UNKNOWN; lia|assumption].
  rewrite parse_loop_blank by assumption. reflexivity.
Qed.

(** ** Key lookup *)

Lemma bytes_eqb_eq a b : bytes_eqb a b = true <-> a = b.
Proof.
  revert b. induction a as [|x a IH]; intros [|y b]; simpl;
    try (split; [discriminate | congruence]); [tauto|].
  rewrite andb_true_iff, byte_eqb_eq, IH. split.
  - intros [-> ->]. reflexivity.
  - intros [= -> ->]. auto.
Qed.

Lemma streq_eq a b : streq a b = true <-> cstr a = cstr b.
Proof. apply bytes_eqb_eq. Qed.

Lemma parse_key_from_first names :
  forall e key_,
    (parse_key_from e names key_ = WGKEY_UNKNOWN /\
     forall i name, nth_error names i = Some name -> cstr name <> cstr key_)
    \/
    (exists i name,
       parse_key_from e names key_ = (e + i)%nat /\
       nth_error names i = Some name /\ cstr name = cstr key_ /\
       forall j other, (j < i)%nat -> nth_error names j = Some other ->
                       cstr other <> cstr key_).
Proof.
  induction names as [|name names IH]; intros e key_.
  - left. split; [reflexivity|]. intros [|i] nm; discriminate.
  - simpl. destruct (streq key_ name) eqn:E.
    + right. exists 0%nat, name. apply streq_eq in E.
      split; [lia|]. split; [reflexivity|]. split; [auto|].
      intros j other Hj. lia.
    + assert (Hne : cstr name <> cstr key_).
      { intros Heq. symmetry in Heq. apply streq_eq in Heq. congruence. }
      destruct (IH (S e) key_) as [[H1 H2]|(i & nm & H1 & H2 & H3 & H4)].
      * left. split; [exact H1|]. intros [|i] nm Hn.
        -- injection Hn as <-. exact Hne.
        -- apply (H2 i). exact Hn.
      * right. exists (S i), nm.
        split; [rewrite H1; lia|]. split; [exact H2|]. split; [exact H3|].
        intros [|j] other Hj Hn.
        -- injection Hn as <-. exact Hne.
        -- apply (H4 j); [lia|exact Hn].
Qed.

(** X1.  [parse_key] returns the index of the first entry of the table,
    from entry 1 on, whose name is the key byte for byte as a C string, and
    [WGKEY_UNKNOWN] when there is none: no prefix or case-blind match, and
    entry 0 is never compared. *)
Theorem parse_key_first_match key_ :
  (parse_key key_ = WGKEY_UNKNOWN /\
   forall i name, (1 <= i)%nat -> nth_error WG_DYNAMIC_KEY i = Some name ->
                  cstr name <> cstr key_)
  \/
  (exists name,
     (1 <= parse_key key_)%nat /\
     nth_error WG_DYNAMIC_KEY (parse_key key_) = Some name /\
     cstr name = cstr key_ /\
     forall j other, (1 <= j < parse_key key_)%nat ->
                     nth_error WG_DYNAMIC_KEY j = Some other ->
                     cstr other <> cstr key_).
Proof.
  unfold parse_key.
  destruct (parse_key_from_first (tl WG_DYNAMIC_KEY) 1 key_)
    as [[H1 H2]|(i & name & H1 & H2 & H3 & H4)].
  - left. split; [exact H1|]. intros [|i] name Hi Hn; [lia|].
    apply (H2 i). exact Hn.
  - right. exists name. rewrite H1.
    split; [lia|]. split; [exact H2|]. split; [exact H3|].
    intros [|j] other Hj Hn; [lia|]. apply (H4 j); [lia|exact Hn].
Qed.

(** ** Error messages *)

Lemma firstn_repeat_le (c : byte) m n :
  (m <= n)%nat -> firstn m (repeat c n) = repeat c m.
Proof.
  revert n. induction m as [|m IH]; intros [|n] H; simpl; try lia; auto.
  rewrite IH by lia. reflexivity.
Qed.

Lemma firstn_app_pad (s : list byte) n :
  (length s <= n)%nat ->
  firstn (S (length s)) (firstn n (s ++ repeat NUL n) ++ [NUL]) = s ++ [NUL].
Proof.
  intros Hl.
  assert (H1 : firstn n (s ++ repeat NUL n) = s ++ repeat NUL (n - length s)).
  { rewrite firstn_app. rewrite (firstn_all2 s) by lia.
    rewrite firstn_repeat_le by lia. reflexivity. }
  rewrite H1, <- app_assoc, firstn_app.
  rewrite (firstn_all2 s) by lia.
  replace (S (length s) - length s)%nat with 1%nat by lia.
  f_equal. destruct (n - length s)%nat; reflexivity.
Qed.

(** X2.  An error message is always decoded: the attribute holds the first
    71 bytes of the text and a NUL after them, and its [len] is the number
    of bytes it holds, 72 at most. *)
Theorem errmsg_decoding v :
  parse_value WGKEY_ERRMSG v =
    Ret (Some {| key := WGKEY_ERRMSG;
                 len := length (firstn 71 (cstr v) ++ [NUL]);
                 value := D_errmsg (firstn 71 (cstr v) ++ [NUL]) |})
  /\ (length (firstn 71 (cstr v) ++ [NUL]) <= 72)%nat.
Proof.
  split.
  2:{ rewrite length_app, length_firstn. change (length [NUL]) with 1%nat.
      lia. }
  unfold parse_value, strncpy.
  change (WGKEY_ERRMSG =? WGKEY_IPV4)%nat with false.
  change (WGKEY_ERRMSG =? WGKEY_IPV6)%nat with false.
  change ((WGKEY_ERRMSG =? WGKEY_LEASESTART) || (WGKEY_ERRMSG =? WGKEY_LEASETIME)
          || (WGKEY_ERRMSG =? WGKEY_ERRNO))%nat%bool with false.
  change (WGKEY_ERRMSG =? WGKEY_ERRMSG)%nat with true. cbv iota.
  set (s := cstr v).
  destruct (Nat.leb_spec (length s) 71) as [Hs|Hs].
  - replace (Nat.min 72 (length s + 1)) with (S (length s)) by lia.
    rewrite firstn_app_pad by assumption.
    rewrite (firstn_all2 s) by lia.
    rewrite length_app. change (length [NUL]) with 1%nat.
    replace (length s + 1)%nat with (S (length s)) by lia.
    reflexivity.
  - replace (Nat.min 72 (length s + 1)) with 72%nat by lia.
    assert (H71 : firstn 71 (s ++ repeat NUL 71) = firstn 71 s).
    { rewrite firstn_app. replace (71 - length s)%nat with 0%nat by lia.
      simpl. apply app_nil_r. }
    rewrite H71.
    assert (Hl : length (firstn 71 s ++ [NUL]) = 72%nat).
    { rewrite length_app, length_firstn. change (length [NUL]) with 1%nat.
      lia. }
    rewrite <- Hl at 2. rewrite firstn_all. rewrite Hl. reflexivity.
Qed.

(** ** The read loop, further *)

Lemma parse_request_codes room r x ret r' :
  parse_request room r x = Ret (ret, r') ->
  ret = 1 \/ ret = 0 \/ parse_error ret.
Proof.
  intros H. destruct (nul_free_dec x) as [Hx|Hx].
  - apply parse_request_loop in H; [|assumption].
    apply (parse_loop_codes _ _ _ _ _ H).
  - rewrite parse_request_guarded in H by assumption.
    injection H as <- _. right. right. unfold parse_error. auto.
Qed.

Lemma parse_request_fields room r x ret r' :
  parse_request room r x = Ret (ret, r') ->
  fd r' = fd r /\ buf r' = buf r /\ buflen r' = buflen r.
Proof.
  intros H. destruct (nul_free_dec x) as [Hx|Hx].
  - apply parse_request_loop in H; [|assumption].
    apply parse_loop_frame in H.
    destruct (unlink_fragment_fields r) as (_ & _ & E3 & E4 & E5).
    rewrite E3, E4, E5 in H. tauto.
  - rewrite parse_request_guarded in H by assumption.
    injection H as _ <-. auto.
Qed.

(** X10.  When the loop is left because a [read] would block, nothing is
    lost: calling [handle_request] again later on the request as it was left
    goes on exactly as the first call would have, had the later reads
    followed the earlier ones at once. *)
Theorem would_block_resumes chunks e r r1 reads :
  forallb (fun c => negb (length c =? 0)%nat) chunks = true ->
  would_block e = true ->
  handle_request (map ReadOk chunks ++ [ReadFail e]) r
    = Ret (Returned false r1) ->
  handle_request (map ReadOk chunks ++ reads) r = handle_request reads r1.
Proof.
  intros Hne He. revert r.
  induction chunks as [|c cs IH]; intros r H.
  - simpl in H. rewrite He in H. injection H as <-. reflexivity.
  - simpl in Hne. apply andb_true_iff in Hne as [Hc Hcs].
    destruct c as [|b c]; [discriminate|].
    cbn [map app handle_request] in *.
    destruct (RECV_BUFSIZE <? length (b :: c))%nat; [discriminate|].
    destruct (parse_request _ r (b :: c)) as [[ret r']| | |];
      try discriminate.
    unfold bind in *. cbn [fst snd] in *.
    destruct (ret <? 0); [discriminate|].
    destruct (ret =? 0); [discriminate|].
    apply IH; assumption.
Qed.

(** X11.  However [handle_request] ends, the request it hands on or leaves
    has the descriptor and the pending write it started with, and the
    reason given to the error callback is one of [E2BIG], [EINVAL],
    [ENOENT] and [EPROTONOSUPPORT]. *)
Theorem handle_request_outcome reads r out :
  handle_request reads r = Ret out ->
  match out with
  | CallError q reason =>
      (fd q = fd r /\ buf q = buf r /\ buflen q = buflen r) /\
      (reason = E2BIG \/ reason = EINVAL \/ reason = ENOENT \/
       reason = EPROTONOSUPPORT)
  | CallSuccess q | Returned _ q =>
      fd q = fd r /\ buf q = buf r /\ buflen q = buflen r
  end.
Proof.
  revert r. induction reads as [|rd reads IH]; intros r H; [discriminate|].
  destruct rd as [data|e].
  - destruct data as [|b data].
    + injection H as <-. auto.
    + cbn [handle_request] in H.
      destruct (RECV_BUFSIZE <? length (b :: data))%nat; [discriminate|].
      destruct (parse_request _ r (b :: data)) as [[ret r']| | |] eqn:Hp;
        try discriminate.
      unfold bind in H. cbn [fst snd] in H.
      pose proof (parse_request_fields _ _ _ _ _ Hp) as (F1 & F2 & F3).
      destruct (Z.ltb_spec ret 0) as [Hneg|Hnn].
      * injection H as <-. split; [auto|].
        destruct (parse_request_codes _ _ _ _ _ Hp) as [E|[E|E]]; try lia.
        unfold parse_error in E.
        destruct E as [->|[->|[->| ->]]]; rewrite Z.opp_involutive; auto.
      * destruct (Z.eqb_spec ret 0).
        -- injection H as <-. auto.
        -- apply IH in H. destruct out as [q reason|q|bq q];
             rewrite <- F1, <- F2, <- F3; exact H.
  - simpl in H. destruct (would_block e); injection H as <-; auto.
Qed.

(** ** Writes, further *)

Lemma write_loop_complete rooms rest len_ :
  forall offset,
    rooms <> [] -> (offset <= len_)%nat ->
    (len_ <= offset + list_sum rooms)%nat ->
    write_loop (map WriteOk rooms ++ rest) len_ offset = Ret None.
Proof.
  induction rooms as [|room rooms IH]; intros offset Hne Hoff Hsum;
    [congruence|].
  simpl in *.
  destruct (Nat.eqb_spec (offset + Nat.min room (len_ - offset)) len_)
    as [E|E]; [reflexivity|].
  apply IH; [|lia|lia].
  intros ->. simpl in Hsum. lia.
Qed.

Lemma write_loop_hard_error rooms e rest len_ :
  would_block e = false ->
  forall offset,
    (offset + list_sum rooms < len_)%nat ->
    write_loop (map WriteOk rooms ++ WriteFail e :: rest) len_ offset
      = Ret None.
Proof.
  intros He. induction rooms as [|room rooms IH]; intros offset Hsum;
    simpl in *.
  - rewrite He. reflexivity.
  - rewrite Nat.min_l by lia.
    destruct (Nat.eqb_spec (offset + room) len_); [lia|].
    apply IH. lia.
Qed.

(** X12.  [send_message] returns [true] and leaves the request as it was
    both when the socket has taken every byte and when a [write] has failed
    for good: the result does not tell the two apart, and a pending block
    that has been sent in full is still held, with its [buflen]. *)
Theorem send_message_true writes rooms e rest r data :
  (rooms <> [] /\ (length data <= list_sum rooms)%nat /\
   writes = map WriteOk rooms ++ rest)
  \/
  ((list_sum rooms < length data)%nat /\ would_block e = false /\
   writes = map WriteOk rooms ++ WriteFail e :: rest) ->
  send_message writes r data = Ret (true, r).
Proof.
  unfold send_message. intros [(Hne & Hsum & ->)|(Hsum & He & ->)].
  - rewrite write_loop_complete by (auto; lia). reflexivity.
  - rewrite write_loop_hard_error by (auto; lia). reflexivity.
Qed.

Lemma write_loop_offset writes len_ :
  forall offset o,
    write_loop writes len_ offset = Ret (Some o) -> (offset <= len_)%nat ->
    (offset <= o <= len_)%nat.
Proof.
  induction writes as [|w writes IH]; intros offset o H Hoff;
    [discriminate|].
  destruct w as [room|e]; simpl in H.
  - destruct (Nat.eqb_spec (offset + Nat.min room (len_ - offset)) len_);
      [discriminate|].
    apply IH in H; lia.
  - destruct (would_block e); [|discriminate]. injection H as <-. lia.
Qed.

Lemma write_loop_defined writes len_ :
  forall offset, write_loop writes len_ offset <> Undefined.
Proof.
  induction writes as [|w writes IH]; intros offset; [discriminate|].
  destruct w as [room|e]; simpl.
  - destruct (_ =? _)%nat; [discriminate|apply IH].
  - destruct (would_block e); discriminate.
Qed.

(** X13.  When the pending block holds at least [buflen] bytes, sending the
    pending bytes again never stores outside the block; if the write is put
    off once more, the block still holds at least [buflen] bytes and the
    pending bytes are what was left unwritten, an end piece of the pending
    bytes before; if the call returns [true] the request is unchanged. *)
Theorem resend_keeps_suffix writes r :
  pending_fits r ->
  send_message writes r (pending_bytes r) <> Undefined /\
  forall b r',
    send_message writes r (pending_bytes r) = Ret (b, r') ->
    pending_fits r' /\
    ((b = true /\ r' = r) \/
     (b = false /\
      exists o, (o <= length (pending_bytes r))%nat /\
                pending_bytes r' = skipn o (pending_bytes r))).
Proof.
  intros Hfit. unfold send_message.
  destruct (write_loop writes (length (pending_bytes r)) 0) as [[o|]| | |]
    eqn:Hw; cbn [bind].
  - apply write_loop_offset in Hw as [_ Ho]; [|lia].
    set (data := pending_bytes r) in *.
    assert (Hl : length (skipn o data) = (length data - o)%nat)
      by apply length_skipn.
    unfold pending_fits, pending_bytes in *.
    destruct (buf r) as [block|] eqn:Eb.
    + assert (Hd : length data = buflen r).
      { unfold data. rewrite length_firstn. lia. }
      unfold memmove_into. rewrite Hl.
      destruct (Nat.leb_spec (length data - o) (length block)); [|lia].
      cbn [bind]. split; [discriminate|].
      intros b r' [= <- <-]. cbn [buf buflen set_buf].
      split; [rewrite length_app, Hl; lia|].
      right. split; [reflexivity|]. exists o. split; [assumption|].
      rewrite <- Hl. apply firstn_length_app.
    + split; [discriminate|].
      intros b r' [= <- <-]. cbn [buf buflen set_buf].
      split; [lia|].
      right. split; [reflexivity|]. exists o. split; [assumption|].
      unfold data. destruct o; reflexivity.
  - split; [discriminate|]. intros b r' [= <- <-]. auto.
  - split; discriminate.
  - exfalso. apply (write_loop_defined _ _ _ Hw).
  - split; discriminate.
Qed.

(** ** Numbers in base 10 *)

Lemma digit_byte_ok d :
  0 <= d < 10 ->
  isdigit (digit_byte d) = true /\ digit_value (digit_byte d) = d.
Proof.
  intros H.
  assert (Hd : d = 0 \/ d = 1 \/ d = 2 \/ d = 3 \/ d = 4 \/ d = 5 \/ d = 6
               \/ d = 7 \/ d = 8 \/ d = 9) by lia.
  repeat destruct Hd as [->|Hd]; try subst d; split; reflexivity.
Qed.

Lemma decimal_snoc l d : decimal (l ++ [d]) = 10 * decimal l + digit_value d.
Proof. unfold decimal. rewrite fold_left_app. reflexivity. Qed.

Lemma decimal_digits_ok fuel :
  forall n, 0 <= n < 10 ^ Z.of_nat (S fuel) ->
    decimal_digits (S fuel) n <> [] /\
    forallb isdigit (decimal_digits (S fuel) n) = true /\
    decimal (decimal_digits (S fuel) n) = n.
Proof.
  assert (Hone : forall f n, 0 <= n < 10 ->
            decimal_digits (S f) n <> [] /\
            forallb isdigit (decimal_digits (S f) n) = true /\
            decimal (decimal_digits (S f) n) = n).
  { intros f n Hn. cbn [decimal_digits].
    destruct (Z.ltb_spec n 10); [|lia].
    destruct (digit_byte_ok n) as [H1 H2]; [lia|].
    split; [discriminate|]. split.
    - simpl. rewrite H1. reflexivity.
    - unfold decimal. simpl. rewrite H2. lia. }
  induction fuel as [|fuel IH]; intros n Hn.
  { apply Hone. change (10 ^ Z.of_nat 1) with 10 in Hn. exact Hn. }
  destruct (Z.ltb_spec n 10) as [Hlt|Hge]; [apply Hone; lia|].
  rewrite Nat2Z.inj_succ, Z.pow_succ_r in Hn by lia.
  assert (Hq : 0 <= n / 10 < 10 ^ Z.of_nat (S fuel)).
  { split; [apply Z.div_pos; lia|].
    apply Z.div_lt_upper_bound; lia. }
  destruct (IH _ Hq) as (H1 & H2 & H3).
  destruct (digit_byte_ok (n mod 10)) as [H4 H5];
    [apply Z.mod_pos_bound; lia|].
  change (decimal_digits (S (S fuel)) n)
    with (if n <? 10 then [digit_byte n]
          else decimal_digits (S fuel) (n / 10) ++ [digit_byte (n mod 10)]).
  destruct (Z.ltb_spec n 10); [lia|].
  split; [destruct (decimal_digits (S fuel) (n / 10)); discriminate|].
  split.
  - rewrite forallb_app, H2. simpl. rewrite H4. reflexivity.
  - rewrite decimal_snoc, H3, H5.
    pose proof (Z.div_mod n 10). lia.
Qed.

Lemma isdigit_nul_free ds : forallb isdigit ds = true -> nul_free ds.
Proof.
  intros H. apply memchr_none_all. intros Hin.
  rewrite forallb_forall in H. specialize (H _ Hin). discriminate.
Qed.

(** X20.  Under a timestamp, duration or error-number key, the base-10 text
    of any number from 0 to 2^32-1, as [%u] prints it, is decoded to that
    number. *)
Theorem decimal_round_trip k n :
  uint32_key k = true -> 0 <= n <= UINT32_MAX ->
  parse_value k (decimal_text n) =
    Ret (Some {| key := k; len := 4; value := D_uint32 n |}).
Proof.
  intros Hk Hn. unfold decimal_text.
  destruct (decimal_digits_ok 19 n) as (H1 & H2 & H3).
  { unfold UINT32_MAX in Hn. change (10 ^ Z.of_nat 20) with
      100000000000000000000. lia. }
  set (ds := decimal_digits 20 n) in *.
  assert (Hi : integer_text ds n).
  { exists [], [], ds. repeat split; auto.
    unfold converted. rewrite H3. cbn [bytes_eqb].
    unfold UINT32_MAX, UINTMAX_MAX in *.
    destruct (Z.ltb_spec 18446744073709551615 n); [lia|reflexivity]. }
  rewrite (parse_value_uint32 k ds Hk).
  rewrite (cstr_nul_free ds)
    by (apply memchr_none_all, isdigit_nul_free; assumption).
  apply integer_text_strtoumax in Hi as [-> _].
  rewrite deref_end. destruct (Z.ltb_spec UINT32_MAX n); [lia|].
  rewrite (proj2 (byte_eqb_eq NUL NUL) eq_refl). reflexivity.
Qed.

(** ** Building a message *)

Lemma overwrite_length at_ src dst :
  (at_ + length src <= length dst)%nat ->
  length (overwrite at_ src dst) = length dst.
Proof.
  intros H. unfold overwrite.
  rewrite !length_app, length_firstn, length_skipn. lia.
Qed.

Lemma print_to_buf_fits buf_ bufsize offset text :
  length buf_ = bufsize -> (offset + length text < bufsize)%nat ->
  print_to_buf buf_ bufsize offset (Some text) =
    Ret (firstn offset buf_ ++ text
           ++ NUL :: skipn (offset + length text + 1) buf_,
         (offset + length text)%nat).
Proof.
  intros Hl Hfit. unfold print_to_buf.
  destruct (Nat.ltb_spec bufsize offset); [lia|].
  destruct (Nat.leb_spec bufsize (length text + offset)); [lia|].
  unfold vsnprintf_at.
  destruct (bufsize - offset)%nat as [|room] eqn:Er; [lia|].
  rewrite firstn_all2 by lia. unfold overwrite.
  rewrite length_app. cbn [length]. rewrite <- app_assoc. cbn [app].
  replace (offset + (length text + 1))%nat
    with (offset + length text + 1)%nat by lia.
  reflexivity.
Qed.

(** X15.  On an array of [bufsize] bytes and an offset within it,
    [print_to_buf] either stores the whole text and a NUL after it, from
    the offset on and with nothing else changed, and moves the offset to
    that NUL, still inside the array; or, when text and terminator do not
    both fit, ends the process.  It never returns with a cut text. *)
Theorem print_to_buf_bounds buf_ bufsize offset text :
  length buf_ = bufsize -> (offset <= bufsize)%nat ->
  ((offset + length text < bufsize)%nat ->
   exists buf',
     print_to_buf buf_ bufsize offset (Some text)
       = Ret (buf', (offset + length text)%nat) /\
     length buf' = bufsize /\
     buf' = firstn offset buf_ ++ text
              ++ NUL :: skipn (offset + length text + 1) buf_) /\
  ((bufsize <= offset + length text)%nat ->
   print_to_buf buf_ bufsize offset (Some text) = Abort).
Proof.
  intros Hl Hoff. split.
  - intros Hfit. eexists. split; [apply print_to_buf_fits; assumption|].
    split; [|reflexivity].
    rewrite !length_app, length_firstn. cbn [length].
    rewrite length_skipn. lia.
  - intros Hbig. unfold print_to_buf.
    destruct (Nat.ltb_spec bufsize offset); [lia|].
    destruct (Nat.leb_spec bufsize (length text + offset)); [reflexivity|lia].
Qed.

Lemma print_all_fits texts bufsize :
  forall buf_ offset,
    length buf_ = bufsize ->
    (offset + length (concat texts) < bufsize)%nat ->
    exists buf',
      print_all buf_ bufsize offset texts
        = Ret (buf', (offset + length (concat texts))%nat) /\
      length buf' = bufsize /\
      firstn (offset + length (concat texts)) buf'
        = firstn offset buf_ ++ concat texts /\
      (texts <> [] ->
       nth_error buf' (offset + length (concat texts)) = Some NUL).
Proof.
  induction texts as [|text texts IH]; intros buf_ offset Hl Hfit.
  - simpl in *. exists buf_. rewrite Nat.add_0_r, app_nil_r.
    repeat split; auto. congruence.
  - cbn [concat] in *. rewrite length_app in Hfit.
    cbn [print_all].
    rewrite print_to_buf_fits by (auto; lia). cbn [bind fst snd].
    set (buf1 := firstn offset buf_ ++ text
                   ++ NUL :: skipn (offset + length text + 1) buf_).
    assert (Hl1 : length buf1 = bufsize).
    { unfold buf1. rewrite !length_app, length_firstn. cbn [length].
      rewrite length_skipn. lia. }
    assert (Hf1 : firstn (offset + length text) buf1
                  = firstn offset buf_ ++ text).
    { unfold buf1. rewrite app_assoc.
      replace (offset + length text)%nat
        with (length (firstn offset buf_ ++ text))
        by (rewrite length_app, length_firstn; lia).
      apply firstn_length_app. }
    assert (Hn1 : nth_error buf1 (offset + length text) = Some NUL).
    { unfold buf1. rewrite app_assoc.
      replace (offset + length text)%nat
        with (length (firstn offset buf_ ++ text) + 0)%nat
        by (rewrite length_app, length_firstn; lia).
      rewrite nth_error_app2 by lia.
      replace (length (firstn offset buf_ ++ text) + 0
               - length (firstn offset buf_ ++ text))%nat with 0%nat by lia.
      reflexivity. }
    destruct (IH buf1 (offset + length text)%nat Hl1) as (buf' & H1 & H2 & H3 & H4);
      [lia|].
    exists buf'. rewrite length_app.
    replace (offset + (length text + length (concat texts)))%nat
      with (offset + length text + length (concat texts))%nat by lia.
    split; [exact H1|]. split; [exact H2|]. split.
    + rewrite H3, Hf1, <- app_assoc. reflexivity.
    + intros _. destruct texts as [|t2 texts].
      * simpl in H1. injection H1 as <-. simpl. rewrite Nat.add_0_r.
        exact Hn1.
      * apply H4. discriminate.
Qed.

Lemma print_all_overflow texts bufsize :
  forall buf_ offset,
    length buf_ = bufsize -> (offset <= bufsize)%nat -> texts <> [] ->
    (bufsize <= offset + length (concat texts))%nat ->
    print_all buf_ bufsize offset texts = Abort.
Proof.
  induction texts as [|text texts IH]; intros buf_ offset Hl Hoff Hne Hbig;
    [congruence|].
  cbn [concat] in Hbig. rewrite length_app in Hbig. cbn [print_all].
  destruct (Nat.leb_spec bufsize (offset + length text)) as [Hb|Hb].
  - unfold print_to_buf.
    destruct (Nat.ltb_spec bufsize offset); [lia|].
    destruct (Nat.leb_spec bufsize (length text + offset)); [reflexivity|lia].
  - rewrite print_to_buf_fits by (auto; lia). cbn [bind fst snd].
    apply IH.
    + rewrite !length_app, length_firstn. cbn [length].
      rewrite length_skipn. lia.
    + lia.
    + intros ->. simpl in Hbig. lia.
    + lia.
Qed.

(** X16.  Successive calls of [print_to_buf] append: starting at an offset
    inside the array, the texts end up one after the other from that
    offset on, followed by a NUL, with what stood before the offset
    untouched and the offset at the NUL, as long as everything fits with
    the terminator; otherwise the process is ended by the call that does
    not fit. *)
Theorem print_all_appends buf_ bufsize offset texts :
  length buf_ = bufsize -> (offset <= bufsize)%nat -> texts <> [] ->
  ((offset + length (concat texts) < bufsize)%nat ->
   exists buf',
     print_all buf_ bufsize offset texts
       = Ret (buf', (offset + length (concat texts))%nat) /\
     length buf' = bufsize /\
     firstn (offset + length (concat texts)) buf'
       = firstn offset buf_ ++ concat texts /\
     nth_error buf' (offset + length (concat texts)) = Some NUL) /\
  ((bufsize <= offset + length (concat texts))%nat ->
   print_all buf_ bufsize offset texts = Abort).
Proof.
  intros Hl Hoff Hne. split.
  - intros Hfit.
    destruct (print_all_fits texts bufsize buf_ offset Hl Hfit)
      as (buf' & H1 & H2 & H3 & H4).
    exists buf'. auto.
  - intros Hbig. apply print_all_overflow; assumption.
Qed.

(** ** Link-local addresses *)

Lemma land_top_bits (b : byte) :
  N.eqb (N.land (Byte.to_N b) 192) 128
  = (N.leb 128 (Byte.to_N b) && N.leb (Byte.to_N b) 191)%bool.
Proof. destruct b; reflexivity. Qed.

(** X17.  [is_link_local] holds exactly for the addresses whose first 16
    bits, read as a number, lie from [fe80] to [febf]: the first ten bits
    alone decide, and none of the bytes after the second is looked at. *)
Theorem is_link_local_range b0 b1 rest :
  is_link_local (b0 :: b1 :: rest) = true <->
  65152 <= 256 * Z.of_N (Byte.to_N b0) + Z.of_N (Byte.to_N b1) <= 65215.
Proof.
  unfold is_link_local. rewrite land_top_bits.
  pose proof (Byte.to_N_bounded b0) as B0.
  pose proof (Byte.to_N_bounded b1) as B1.
  rewrite !andb_true_iff, N.eqb_eq, !N.leb_le. lia.
Qed.

(** ** Netlink attributes *)

Lemma table_set_some {A : Type} (v : A) tb :
  forall i, (i < length tb)%nat ->
    exists tb', table_set i v tb = Some tb' /\ length tb' = length tb /\
                nth_error tb' i = Some v /\
                forall j, j <> i -> nth_error tb' j = nth_error tb j.
Proof.
  induction tb as [|x tb IH]; intros i Hi; [simpl in Hi; lia|].
  destruct i as [|i].
  - eexists. split; [reflexivity|]. repeat split.
    intros [|j] Hj; [congruence|reflexivity].
  - simpl in Hi. destruct (IH i) as (tb' & H1 & H2 & H3 & H4); [lia|].
    exists (x :: tb'). simpl. rewrite H1. repeat split; auto.
    intros [|j] Hj; [reflexivity|]. simpl. apply H4. congruence.
Qed.

(** X18.  On a table of [IFA_MAX + 1] entries [data_attr_cb] never stores
    outside the table, and what it does is fixed by the type of the
    attribute.  A type above [IFA_MAX] gives [MNL_CB_OK] and the table as
    it was.  An address attribute that does not validate gives
    [MNL_CB_ERROR] and the table as it was.  Any other attribute gives
    [MNL_CB_OK] and is stored at the index of its type, no other entry being
    changed. *)
Theorem data_attr_cb_in_bounds ifa_max validate_binary attr tb :
  0 <= ifa_max -> length tb = S (Z.to_nat ifa_max) ->
  (ifa_max < mnl_attr_get_type attr ->
   data_attr_cb ifa_max validate_binary attr tb = Ret (MNL_CB_OK, tb)) /\
  (mnl_attr_get_type attr <= ifa_max ->
   mnl_attr_get_type attr = IFA_ADDRESS -> validate_binary attr < 0 ->
   data_attr_cb ifa_max validate_binary attr tb = Ret (MNL_CB_ERROR, tb)) /\
  (mnl_attr_get_type attr <= ifa_max ->
   mnl_attr_get_type attr <> IFA_ADDRESS \/ 0 <= validate_binary attr ->
   exists tb',
     data_attr_cb ifa_max validate_binary attr tb = Ret (MNL_CB_OK, tb') /\
     length tb' = length tb /\
     nth_error tb' (Z.to_nat (mnl_attr_get_type attr)) = Some (Some attr) /\
     forall j, j <> Z.to_nat (mnl_attr_get_type attr) ->
               nth_error tb' j = nth_error tb j).
Proof.
  intros Hmax Hl. unfold data_attr_cb, mnl_attr_type_valid.
  assert (Ht : 0 <= mnl_attr_get_type attr).
  { unfold mnl_attr_get_type, NLA_TYPE_MASK. apply Z.land_nonneg. lia. }
  destruct (Z.ltb_spec ifa_max (mnl_attr_get_type attr)) as [Hbig|Hin].
  - change (-1 <? 0) with true. cbv iota.
    split; [reflexivity|]. split; intros; lia.
  - change (1 <? 0) with false. cbv iota.
    split; [intros; lia|]. split.
    + intros _ E1 E2. apply Z.eqb_eq in E1. apply Z.ltb_lt in E2.
      rewrite E1, E2. reflexivity.
    + intros _ Hok.
      assert (Ev : ((mnl_attr_get_type attr =? IFA_ADDRESS)
                    && (validate_binary attr <? 0))%bool = false).
      { apply andb_false_iff. destruct Hok as [Hne|Hval].
        - left. apply Z.eqb_neq. exact Hne.
        - right. apply Z.ltb_ge. exact Hval. }
      rewrite Ev.
      destruct (table_set_some (Some attr) tb
                  (Z.to_nat (mnl_attr_get_type attr)))
        as (tb' & H1 & H2 & H3 & H4); [lia|].
      rewrite H1. exists tb'. auto.
Qed.

(** ** The read loop and the cutting of the stream *)

Lemma handle_request_feed chunks rest :
  forallb (fun c => negb (length c =? 0)%nat) chunks = true ->
  forall r ret r1,
    feed r chunks = Ret (ret, r1) -> ret <= 0 ->
    handle_request (map ReadOk chunks ++ rest) r =
      Ret (if ret <? 0 then CallError r1 (- ret) else CallSuccess r1).
Proof.
  induction chunks as [|c cs IH]; intros Hne r ret r1 H Hret.
  - injection H as <- _. lia.
  - simpl in Hne. apply andb_true_iff in Hne as [Hc Hcs].
    destruct c as [|b c]; [discriminate|].
    cbn [map app handle_request]. cbn [feed] in H.
    destruct (RECV_BUFSIZE <? length (b :: c))%nat; [discriminate|].
    destruct (parse_request _ r (b :: c)) as [[ret' r']| | |];
      try discriminate.
    unfold bind in *. cbn [fst snd] in *.
    destruct (Z.ltb_spec 0 ret') as [Hpos|Hle].
    + destruct (Z.ltb_spec ret' 0); [lia|].
      destruct (Z.eqb_spec ret' 0); [lia|].
      apply IH; assumption.
    + injection H as -> ->.
      destruct (Z.ltb_spec ret 0); [reflexivity|].
      destruct (Z.eqb_spec ret 0); [reflexivity|lia].
Qed.

(** A splice that leaves the array in one of the calls of the read loop
    is a store outside the array of [handle_request]. *)
Lemma handle_request_overrun chunks rest :
  forallb (fun c => negb (length c =? 0)%nat) chunks = true ->
  forall r,
    feed r chunks = Undefined ->
    handle_request (map ReadOk chunks ++ rest) r = Undefined.
Proof.
  induction chunks as [|c cs IH]; intros Hne r H; [discriminate|].
  simpl in Hne. apply andb_true_iff in Hne as [Hc Hcs].
  destruct c as [|b c]; [discriminate|].
  cbn [map app handle_request]. cbn [feed] in H.
  destruct (RECV_BUFSIZE <? length (b :: c))%nat; [discriminate|].
  destruct (parse_request _ r (b :: c)) as [[ret' r']| | |];
    try discriminate; [|reflexivity].
  unfold bind in *. cbn [fst snd] in *.
  destruct (Z.ltb_spec 0 ret') as [Hpos|Hle]; [|discriminate].
  destruct (Z.ltb_spec ret' 0); [lia|].
  destruct (Z.eqb_spec ret' 0); [lia|].
  apply IH; assumption.
Qed.

(** X14.  Let the bytes of a message, free of NUL bytes, end the parse
    (with result 0 or an error) when [parse_request] is given them in one
    piece, in an array with room for them.  Then however they arrive, cut
    into reads that are not empty and that [read] can give,
    [handle_request] ends by calling the callback this result asks for, on
    the same request and with the same reason, unless the splice of one of
    its calls of [parse_request] leaves its array. *)
Theorem handle_request_any_cut room chunks rest r ret r1 :
  reachable r -> chunks <> [] ->
  forallb (fun c => negb (length c =? 0)%nat) chunks = true ->
  Forall (fun c => (length c <= RECV_BUFSIZE)%nat) chunks ->
  nul_free (concat chunks) ->
  parse_request room r (concat chunks) = Ret (ret, r1) -> ret <= 0 ->
  handle_request (map ReadOk chunks ++ rest) r <> Undefined ->
  handle_request (map ReadOk chunks ++ rest) r
    = Ret (if ret <? 0 then CallError r1 (- ret) else CallSuccess r1).
Proof.
  intros Hr Hne Hall Hsz Hnul Hp Hret Hdef.
  apply handle_request_feed; [exact Hall| |exact Hret].
  rewrite (feed_concat room); try assumption.
  - apply reachable_inv. exact Hr.
  - intros Hu. apply Hdef. apply handle_request_overrun; assumption.
  - apply (parse_request_ret _ _ _ _ _ Hp Hnul).
Qed.

(** ** Reads that cannot overrun *)

Lemma reachable_fragment_short r :
  reachable r -> has_fragment r = true ->
  (length (pending_fragment r) < MAX_LINESIZE)%nat.
Proof.
  induction 1 as [r H|r room x ret r' Hr IH H]; intros Hf.
  - unfold has_fragment in Hf. rewrite H in Hf. discriminate.
  - destruct (nul_free_dec x) as [Hx|Hx].
    + apply parse_request_loop in H; [|assumption].
      apply parse_loop_fragment in H;
        [|apply unlink_no_sentinel, reachable_inv; assumption|lia|assumption].
      destruct H as (before & _ & _ & Hlen & _). exact Hlen.
    + rewrite parse_request_guarded in H by assumption.
      injection H as _ <-. apply IH. exact Hf.
Qed.

(** X22.  When no [read] gives more than [RECV_BUFSIZE - MAX_LINESIZE + 2]
    bytes, no splice leaves the array of [handle_request]: on a reachable
    request the run never stores outside it. *)
Theorem bounded_reads_never_overrun reads r :
  reachable r ->
  Forall (fun rd => match rd with
                    | ReadOk data =>
                        (length data + MAX_LINESIZE <= RECV_BUFSIZE + 2)%nat
                    | ReadFail _ => True
                    end) reads ->
  handle_request reads r <> Undefined.
Proof.
  intros Hr Hall. revert r Hr.
  induction Hall as [|rd reads Hrd _ IH]; intros r Hr; [discriminate|].
  destruct rd as [data|e].
  - destruct data as [|b data]; [discriminate|].
    cbn [handle_request].
    destruct (RECV_BUFSIZE <? length (b :: data))%nat; [discriminate|].
    destruct (parse_request_cases (RECV_BUFSIZE + MAX_LINESIZE) r (b :: data))
      as [[(_ & Hf & Hlt) _]|(ret & r' & H)].
    + exfalso. pose proof (reachable_fragment_short r Hr Hf) as Hshort.
      unfold splice_end in Hlt. lia.
    + rewrite H. unfold bind. cbn [fst snd].
      destruct (ret <? 0); [discriminate|].
      destruct (ret =? 0); [discriminate|].
      apply IH. apply (reachable_parse r _ _ _ _ Hr H).
  - cbn [handle_request]. destruct (would_block e); discriminate.
Qed.

(** ** Records without an equals sign *)

(** X21.  A line that is not empty, fits in [MAX_LINESIZE] and has no equals
    sign is refused with [-EINVAL], in command mode and in attribute mode
    alike, and the request is left as it was. *)
Theorem line_without_equals_rejected body rest req :
  body <> [] -> (length body < MAX_LINESIZE)%nat ->
  memchr NL (length body) body = None ->
  memchr EQUALS (length body) body = None ->
  parse_line (body ++ NL :: rest) req =
    Ret {| lr_ret := - EINVAL; lr_attr := None; lr_req := req |}.
Proof.
  intros Hne Hlen Hnl Heq. unfold parse_line.
  rewrite memchr_at; [|assumption|].
  2:{ rewrite length_app. cbn [length].
      destruct (Nat.ltb_spec MAX_LINESIZE (length body + S (length rest)));
        lia. }
  destruct (length body) as [|k] eqn:Ek.
  { destruct body; [congruence|discriminate]. }
  cbv iota. replace (S (S k) - 1)%nat with (S k) by lia.
  rewrite <- Ek in Heq |- *. rewrite store_at.
  rewrite memchr_prefix by lia. rewrite Heq. reflexivity.
Qed.
End Common.

(** * The statements at work on concrete text

    [MAX_LINESIZE] is 4096, [RECV_BUFSIZE] is 8192 and
    [struct wg_combined_ip] takes 24 bytes in what follows. *)

(** C1.  A request of 8529 bytes arrives in two reads, the first ending
    4007 bytes into a line of 4017.  Given to [parse_request] in one piece
    it is complete, with its 301 attributes.  Given as the two reads, the
    second call has a fragment of 4007 bytes to splice before 4512 more:
    its [memmove] stores up to byte 12526 of the array of 12288 bytes of
    [handle_request]. *)
Theorem chunked_parse_leaves_array :
  (length long_request_head <= recv_bufsize)%nat /\
  (length long_request_tail <= recv_bufsize)%nat /\
  parse_request 4096 24 inet_pton_v4 (recv_bufsize + 4096) accepted
    (long_request_head ++ long_request_tail)
  = Ret (0,
         {| cmd := WGKEY_REQUEST; fd := 3; version := 1; buf := None;
            buflen := 0;
            attrs :=
              {| key := WGKEY_ERRMSG; len := 72;
                 value := D_errmsg (repeat x61 71 ++ [NUL]) |}
              :: repeat {| key := WGKEY_LEASETIME; len := 4;
                           value := D_uint32 3600 |} 300 |}) /\
  feed 4096 recv_bufsize 24 inet_pton_v4 accepted
    [long_request_head; long_request_tail] = Undefined /\
  handle_request 4096 recv_bufsize 24 inet_pton_v4
    [ReadOk long_request_head; ReadOk long_request_tail] accepted = Undefined.
Proof.
  split; [apply Nat.leb_le; vm_compute; reflexivity|].
  split; [apply Nat.leb_le; vm_compute; reflexivity|].
  split; [vm_compute; reflexivity|].
  split; vm_compute; reflexivity.
Qed.

Lemma sentinel_only_last_witness :
  (overruns (recv_bufsize + 4096) accepted
     (line "request=1" ++ str "leaseti") /\
   parse_request 4096 24 inet_pton_v4 (recv_bufsize + 4096) accepted
     (line "request=1" ++ str "leaseti") = Undefined)
  \/
  (exists ret r',
     parse_request 4096 24 inet_pton_v4 (recv_bufsize + 4096) accepted
       (line "request=1" ++ str "leaseti") = Ret (ret, r') /\
     no_sentinel (removelast (attrs r')) /\
     (ret = 0 -> no_sentinel (attrs r'))).
Proof.
  apply sentinel_only_last, reachable_accept. reflexivity.
Defined.

Lemma over_long_line_rejected_witness :
  feed 4096 recv_bufsize 24 inet_pton_v4 accepted
    [line "request=1" ++ repeat x61 3000; repeat x61 1096 ++ [NL]]
  = Ret (- E2BIG, set_cmd accepted WGKEY_REQUEST 1).
Proof.
  apply (over_long_line_rejected 4096 recv_bufsize 24 inet_pton_v4
           (recv_bufsize + 4096) accepted
           (line "request=1") (set_cmd accepted WGKEY_REQUEST 1)
           (repeat x61 4096) []).
  - apply reachable_accept. reflexivity.
  - vm_compute. reflexivity.
  - reflexivity.
  - apply Nat.leb_le. vm_compute. reflexivity.
  - vm_compute. reflexivity.
  - discriminate.
  - vm_compute. reflexivity.
  - vm_compute. reflexivity.
  - apply Forall_cons; [apply Nat.leb_le; vm_compute; reflexivity|].
    apply Forall_cons; [apply Nat.leb_le; vm_compute; reflexivity|].
    apply Forall_nil.
  - vm_compute. discriminate.
Defined.

(** A record of 4101 bytes that ends with a NUL byte.  Read in one piece
    with the command line before it, the stream is refused for the NUL
    byte, with [-EINVAL]; read in two pieces, the second from the NUL byte
    on, it is refused for its length.  And a record of 4100 bytes that
    follows the blank line of a message is not reached: the parse ends
    with 0 at the blank line. *)
Lemma long_record_with_nul_refused_as_invalid :
  (4096 <= length (repeat x61 4100 ++ [NUL]))%nat /\
  memchr NL (length (repeat x61 4100 ++ [NUL])) (repeat x61 4100 ++ [NUL])
    = None /\
  feed 4096 recv_bufsize 24 inet_pton_v4 accepted
    [line "request=1" ++ (repeat x61 4100 ++ [NUL]) ++ [NL]]
    = Ret (- EINVAL, accepted) /\
  feed 4096 recv_bufsize 24 inet_pton_v4 accepted
    [line "request=1" ++ repeat x61 4100; [NUL] ++ [NL]]
    = Ret (- E2BIG, set_cmd accepted WGKEY_REQUEST 1) /\
  - EINVAL <> - E2BIG /\
  feed 4096 recv_bufsize 24 inet_pton_v4 accepted
    [line "request=1" ++ [NL] ++ repeat x61 4100 ++ [NL]]
    = Ret (0, set_cmd accepted WGKEY_REQUEST 1).
Proof.
  split; [apply Nat.leb_le; vm_compute; reflexivity|].
  split; [vm_compute; reflexivity|].
  split; [vm_compute; reflexivity|].
  split; [vm_compute; reflexivity|].
  split; [discriminate|]. vm_compute. reflexivity.
Qed.

Lemma error_keeps_progress_witness :
  ((exists more,
      attrs {| cmd := WGKEY_REQUEST; fd := 3; version := 1; buf := None;
               buflen := 0;
               attrs := [{| key := WGKEY_LEASETIME; len := 4;
                            value := D_uint32 60 |}] |}
      = [{| key := WGKEY_LEASETIME; len := 4; value := D_uint32 60 |}]
        ++ more)
   /\ (- EINVAL = - EPROTONOSUPPORT ->
       WGKEY_REQUEST = WGKEY_UNKNOWN /\
       exists name text tail n,
         line "ipv4=bad" = name ++ EQUALS :: text ++ NL :: tail /\
         well_framed 4096 name text /\
         (0 < parse_key name < WGKEY_ENDCMD)%nat /\
         (text = [] /\ n = 0 \/ integer_text text n) /\
         n <> 1 /\ n <= UINT32_MAX /\
         {| cmd := WGKEY_REQUEST; fd := 3; version := 1; buf := None;
            buflen := 0;
            attrs := [{| key := WGKEY_LEASETIME; len := 4;
                         value := D_uint32 60 |}] |}
         = set_cmd
             {| cmd := WGKEY_REQUEST; fd := 3; version := 1; buf := None;
                buflen := 0;
                attrs := [{| key := WGKEY_LEASETIME; len := 4;
                             value := D_uint32 60 |}] |}
             (parse_key name) n))
  /\
  (exists name text tail n,
     line "request=2" = name ++ EQUALS :: text ++ NL :: tail /\
     well_framed 4096 name text /\
     (0 < parse_key name < WGKEY_ENDCMD)%nat /\
     (text = [] /\ n = 0 \/ integer_text text n) /\
     n <> 1 /\ n <= UINT32_MAX /\
     set_cmd accepted WGKEY_REQUEST 2 = set_cmd accepted (parse_key name) n).
Proof.
  split.
  - apply (error_keeps_progress 4096 24 inet_pton_v4 4096 accepted
             (line "request=1" ++ line "leasetime=60")
             {| cmd := WGKEY_REQUEST; fd := 3; version := 1; buf := None;
                buflen := 0;
                attrs := [{| key := WGKEY_LEASETIME; len := 4;
                             value := D_uint32 60 |}] |}
             (line "ipv4=bad")
             (- EINVAL)
             {| cmd := WGKEY_REQUEST; fd := 3; version := 1; buf := None;
                buflen := 0;
                attrs := [{| key := WGKEY_LEASETIME; len := 4;
                             value := D_uint32 60 |}] |}).
    + apply reachable_accept. reflexivity.
    + reflexivity.
    + vm_compute. reflexivity.
    + reflexivity.
    + vm_compute. reflexivity.
    + vm_compute. reflexivity.
  - destruct (error_keeps_progress 4096 24 inet_pton_v4 4096 accepted
                [] accepted (line "request=2") (- EPROTONOSUPPORT)
                (set_cmd accepted WGKEY_REQUEST 2)) as [_ Hversion].
    + apply reachable_accept. reflexivity.
    + reflexivity.
    + vm_compute. reflexivity.
    + reflexivity.
    + vm_compute. reflexivity.
    + vm_compute. reflexivity.
    + destruct (Hversion eq_refl) as [_ Hrecord]. exact Hrecord.
Defined.

(** The command line [request=2]: the version is refused, and [cmd] and
    [version] hold what was read. *)
Example unsupported_version_stored :
  parse_request 4096 24 inet_pton_v4 4096 accepted (line "request=2")
  = Ret (- EPROTONOSUPPORT, set_cmd accepted WGKEY_REQUEST 2).
Proof. vm_compute. reflexivity. Qed.

Lemma key_not_past_boundary_rejected_witness :
  parse_line 4096 24 inet_pton_v4
    (str "request" ++ EQUALS :: str "1" ++ NL :: []) None
  = Ret {| lr_ret := - ENOENT; lr_attr := None; lr_req := None |}.
Proof.
  apply key_not_past_boundary_rejected;
    [reflexivity | reflexivity | reflexivity
    | apply Nat.ltb_lt; vm_compute; reflexivity
    | apply Nat.leb_le; vm_compute; reflexivity].
Defined.

(** An order violation and an unknown name are reported with one and the
    same code. *)
Lemma order_violation_not_distinguished :
  parse_key (str "request") = WGKEY_REQUEST /\
  parse_key (str "nosuchkey") = WGKEY_UNKNOWN /\
  exists res1 res2,
    parse_line 4096 24 inet_pton_v4 (line "request=1") None = Ret res1 /\
    parse_line 4096 24 inet_pton_v4 (line "nosuchkey=1") None = Ret res2 /\
    lr_ret res1 = lr_ret res2.
Proof.
  split; [reflexivity|]. split; [reflexivity|].
  eexists _, _. split; [vm_compute; reflexivity|].
  split; [vm_compute; reflexivity|]. reflexivity.
Qed.

Lemma integer_text_digits ds :
  ds <> [] -> forallb isdigit ds = true ->
  integer_text ds (converted [] ds).
Proof.
  intros Hne Hd. exists [], [], ds. repeat split; auto.
Qed.

Lemma uint32_value_decoding_witness :
  parse_value 24 inet_pton_v4 WGKEY_LEASETIME (str "120") =
    Ret (Some {| key := WGKEY_LEASETIME; len := 4; value := D_uint32 120 |}).
Proof.
  destruct (uint32_value_decoding 24 inet_pton_v4 WGKEY_LEASETIME (str "120")
              eq_refl eq_refl ltac:(discriminate)) as [Hdecoded _].
  apply (Hdecoded 120); [| vm_compute; discriminate].
  apply (integer_text_digits (str "120")); [discriminate | reflexivity].
Defined.

(** A value with a sign or with leading white space is decoded, though it
    is not an unsigned base-10 integer from its first byte to its last. *)
Lemma signed_or_spaced_value_decoded :
  unsigned_decimal UINT32_MAX (str "+120") = false /\
  parse_value 24 inet_pton_v4 WGKEY_LEASETIME (str "+120") =
    Ret (Some {| key := WGKEY_LEASETIME; len := 4; value := D_uint32 120 |}) /\
  unsigned_decimal UINT32_MAX (str " 120") = false /\
  parse_value 24 inet_pton_v4 WGKEY_LEASETIME (str " 120") =
    Ret (Some {| key := WGKEY_LEASETIME; len := 4; value := D_uint32 120 |}).
Proof.
  repeat split; vm_compute; reflexivity.
Qed.

Lemma cidr_value_decoding_witness :
  parse_value 24 inet_pton_v4 WGKEY_IPV4 (str "10.0.0.1/24") =
    Ret (Some (ip_attr 24 WGKEY_IPV4
                 {| family := AF_INET; ip := [x0a; x00; x00; x01];
                    cidr := 24 |})).
Proof.
  destruct (cidr_value_decoding 24 inet_pton_v4 WGKEY_IPV4
              (str "10.0.0.1/24") eq_refl eq_refl) as (_ & _ & H).
  destruct (H (str "10.0.0.1") (str "24") eq_refl eq_refl) as [Hdecoded _].
  apply (Hdecoded [x0a; x00; x00; x01] 24);
    [reflexivity | | vm_compute; discriminate].
  apply (integer_text_digits (str "24")); [discriminate | reflexivity].
Defined.

(** A prefix length written with a minus sign is decoded. *)
Lemma signed_prefix_length_decoded :
  unsigned_decimal UINT8_MAX (str "-0") = false /\
  parse_value 24 inet_pton_v4 WGKEY_IPV4 (str "10.0.0.1/-0") =
    Ret (Some {| key := WGKEY_IPV4; len := 24;
                 value := D_ip {| family := AF_INET;
                                  ip := [x0a; x00; x00; x01];
                                  cidr := 0 |} |}).
Proof.
  split; vm_compute; reflexivity.
Qed.

Lemma transport_error_returns_witness :
  handle_request 4096 recv_bufsize 24 inet_pton_v4
    (map ReadOk [line "request=1"] ++ ReadOk [] :: []) accepted
  = Ret (Returned true (set_cmd accepted WGKEY_REQUEST 1)).
Proof.
  apply transport_error_returns;
    [reflexivity | vm_compute; reflexivity | reflexivity].
Defined.

(** A disconnect and a failed [read] end [handle_request] without a call of
    the error callback. *)
Lemma transport_error_skips_callback :
  handle_request 4096 recv_bufsize 24 inet_pton_v4 [ReadOk []] accepted
    = Ret (Returned true accepted) /\
  would_block 104 = false /\
  handle_request 4096 recv_bufsize 24 inet_pton_v4 [ReadFail 104] accepted
    = Ret (Returned true accepted) /\
  forall q reason,
    handle_request 4096 recv_bufsize 24 inet_pton_v4 [ReadOk []] accepted
      <> Ret (CallError q reason) /\
    handle_request 4096 recv_bufsize 24 inet_pton_v4 [ReadFail 104] accepted
      <> Ret (CallError q reason).
Proof.
  repeat split; try reflexivity; discriminate.
Qed.

Lemma partial_write_saved_witness :
  exists block',
    send_message (map WriteOk [2%nat] ++ WriteFail EAGAIN :: []) accepted
      (str "hello")
    = Ret (false,
           set_buf accepted (Some block')
             (length (str "hello") - list_sum [2%nat])) /\
    firstn (length (str "hello") - list_sum [2%nat]) block'
      = skipn (list_sum [2%nat]) (str "hello") /\
    (buf accepted = None -> block' = skipn (list_sum [2%nat]) (str "hello")).
Proof.
  apply (partial_write_saved [2%nat] EAGAIN [] accepted (str "hello"));
    [reflexivity | apply Nat.ltb_lt; vm_compute; reflexivity | exact I].
Defined.

(** With a pending block of one byte in place, a write of five bytes that
    blocks at once stores past the end of the block. *)
Lemma remainder_overflows_pending_block :
  send_message [WriteFail EAGAIN]
    {| cmd := WGKEY_REQUEST; fd := 3; version := 1; buf := Some [x00];
       buflen := 1; attrs := [] |}
    (str "hello")
  = Undefined.
Proof. reflexivity. Qed.

(** ** The examples of the protocol description *)

Example request_in_two_chunks :
  feed 4096 recv_bufsize 24 inet_pton_v4 accepted
    [line "request=1" ++ str "ipv4=192.16";
     str "8.1.5/32" ++ [NL] ++ line "leasetime=3600" ++ [NL]]
  = Ret (0,
         {| cmd := WGKEY_REQUEST; fd := 3; version := 1; buf := None;
            buflen := 0;
            attrs :=
              [ {| key := WGKEY_IPV4; len := 24;
                   value := D_ip {| family := AF_INET;
                                    ip := [xc0; xa8; x01; x05];
                                    cidr := 32 |} |};
                {| key := WGKEY_LEASETIME; len := 4;
                   value := D_uint32 3600 |} ] |}).
Proof. vm_compute. reflexivity. Qed.

Example blank_line_ends_message :
  parse_request 4096 24 inet_pton_v4 4096 accepted (line "request=1" ++ [NL])
  = Ret (0, set_cmd accepted WGKEY_REQUEST 1).
Proof. vm_compute. reflexivity. Qed.

Example leasetime_values :
  parse_value 24 inet_pton_v4 WGKEY_LEASETIME (str "-1") = Ret None /\
  parse_value 24 inet_pton_v4 WGKEY_LEASETIME (str "99999999999") = Ret None /\
  parse_value 24 inet_pton_v4 WGKEY_LEASETIME (str "12a") = Ret None.
Proof. repeat split; vm_compute; reflexivity. Qed.

Example cidr_values :
  parse_value 24 inet_pton_v4 WGKEY_IPV4 (str "10.0.0.1/999") = Ret None /\
  parse_value 24 inet_pton_v4 WGKEY_IPV4 (str "10.0.0.1") = Ret None /\
  parse_value 24 inet_pton_v4 WGKEY_IPV4 []
    = Ret (Some {| key := WGKEY_IPV4; len := 24;
                   value := D_ip {| family := AF_INET;
                                    ip := [x00; x00; x00; x00];
                                    cidr := 0 |} |}).
Proof. repeat split; vm_compute; reflexivity. Qed.

(** * The further statements at work on concrete text *)

Lemma parse_line_result_range_witness :
  exists res,
    parse_line 4096 24 inet_pton_v4 (line "request=1") None = Ret res /\
    (parse_error (lr_ret res) \/
     0 <= lr_ret res
       <= Z.of_nat (Nat.min (length (line "request=1")) 4096)) /\
    (lr_ret res = 0 <-> hd NUL (line "request=1") = NL).
Proof.
  apply (parse_line_result_range 4096 24 inet_pton_v4);
    [discriminate | apply Nat.ltb_lt; reflexivity].
Defined.

Lemma accepted_command_has_version_1_witness :
  (overruns (recv_bufsize + 4096) accepted (line "request=1") /\
   parse_request 4096 24 inet_pton_v4 (recv_bufsize + 4096) accepted
     (line "request=1") = Undefined)
  \/
  (exists ret r',
     parse_request 4096 24 inet_pton_v4 (recv_bufsize + 4096) accepted
       (line "request=1") = Ret (ret, r') /\
     (0 <= ret -> cmd r' = WGKEY_UNKNOWN \/ version r' = 1)).
Proof.
  apply accepted_command_has_version_1. left. reflexivity.
Defined.

Lemma pending_fragment_bounded_witness :
  pending_fragment (set_attrs accepted [incomplete (str "requ")]) <> [] /\
  (length (pending_fragment (set_attrs accepted [incomplete (str "requ")]))
   < 4096)%nat /\
  memchr NL
    (length (pending_fragment (set_attrs accepted [incomplete (str "requ")])))
    (pending_fragment (set_attrs accepted [incomplete (str "requ")])) = None /\
  nul_free (pending_fragment (set_attrs accepted [incomplete (str "requ")])).
Proof.
  apply (pending_fragment_bounded 4096 24 inet_pton_v4).
  - apply (reachable_parse 4096 24 inet_pton_v4 accepted 4096 (str "requ") 1).
    + apply reachable_accept. reflexivity.
    + vm_compute. reflexivity.
  - reflexivity.
Defined.

Lemma command_line_decoding_witness :
  parse_line 4096 24 inet_pton_v4
    (str "request" ++ EQUALS :: str "2" ++ NL :: []) (Some accepted)
  = Ret {| lr_ret := - EPROTONOSUPPORT; lr_attr := None;
           lr_req := Some (set_cmd accepted WGKEY_REQUEST 2) |}.
Proof.
  destruct (command_line_decoding 4096 24 inet_pton_v4
              (str "request") (str "2") [] accepted) as [_ Hcommand].
  { unfold well_framed. repeat split; try reflexivity.
    apply Nat.ltb_lt. vm_compute. reflexivity. }
  { reflexivity. }
  destruct Hcommand as (Hnumber & _ & _).
  { split; apply Nat.ltb_lt; vm_compute; reflexivity. }
  apply (Hnumber 2); [|vm_compute; discriminate].
  apply (integer_text_digits (str "2")); [discriminate | reflexivity].
Defined.

Lemma message_decoded_witness :
  parse_request 4096 24 inet_pton_v4 4096 accepted
    (record_bytes (str "request") (str "1")
     ++ concat
          (map (fun rec => record_bytes (fst (fst rec)) (snd (fst rec)))
             [ (str "ipv4", str "192.168.1.5/32",
                {| key := WGKEY_IPV4; len := 24;
                   value := D_ip {| family := AF_INET;
                                    ip := [xc0; xa8; x01; x05];
                                    cidr := 32 |} |});
               (str "leasetime", str "3600",
                {| key := WGKEY_LEASETIME; len := 4;
                   value := D_uint32 3600 |}) ])
     ++ NL :: str "request=1")
  = Ret (0,
         set_attrs (set_cmd accepted (parse_key (str "request")) 1)
           (attrs accepted
            ++ map snd
                 [ (str "ipv4", str "192.168.1.5/32",
                    {| key := WGKEY_IPV4; len := 24;
                       value := D_ip {| family := AF_INET;
                                        ip := [xc0; xa8; x01; x05];
                                        cidr := 32 |} |});
                   (str "leasetime", str "3600",
                    {| key := WGKEY_LEASETIME; len := 4;
                       value := D_uint32 3600 |}) ])).
Proof.
  destruct (message_decoded 4096 24 inet_pton_v4 4096 accepted
              (str "request") (str "1")
              [ (str "ipv4", str "192.168.1.5/32",
                 {| key := WGKEY_IPV4; len := 24;
                    value := D_ip {| family := AF_INET;
                                     ip := [xc0; xa8; x01; x05];
                                     cidr := 32 |} |});
                (str "leasetime", str "3600",
                 {| key := WGKEY_LEASETIME; len := 4;
                    value := D_uint32 3600 |}) ]
              (str "request=1")) as [Hdecoded _].
  - reflexivity.
  - reflexivity.
  - unfold well_framed. repeat split; try reflexivity.
    apply Nat.ltb_lt. vm_compute. reflexivity.
  - split; apply Nat.ltb_lt; vm_compute; reflexivity.
  - apply (integer_text_digits (str "1")); [discriminate | reflexivity].
  - repeat constructor; cbn [fst snd]; try reflexivity;
      apply Nat.ltb_lt; vm_compute; reflexivity.
  - apply Hdecoded. vm_compute. reflexivity.
Defined.

Lemma would_block_resumes_witness :
  handle_request 4096 recv_bufsize 24 inet_pton_v4
    (map ReadOk [line "request=1"] ++ [ReadOk [NL]]) accepted
  = handle_request 4096 recv_bufsize 24 inet_pton_v4 [ReadOk [NL]]
      (set_cmd accepted WGKEY_REQUEST 1).
Proof.
  apply (would_block_resumes 4096 recv_bufsize 24 inet_pton_v4
           [line "request=1"] EAGAIN);
    [reflexivity | reflexivity | vm_compute; reflexivity].
Defined.

Lemma handle_request_outcome_witness :
  (fd accepted = fd accepted /\ buf accepted = buf accepted /\
   buflen accepted = buflen accepted) /\
  (ENOENT = E2BIG \/ ENOENT = EINVAL \/ ENOENT = ENOENT \/
   ENOENT = EPROTONOSUPPORT).
Proof.
  apply (handle_request_outcome 4096 recv_bufsize 24 inet_pton_v4
           [ReadOk (line "nosuchkey=1")] accepted
           (CallError accepted ENOENT)).
  vm_compute. reflexivity.
Defined.

Lemma handle_request_any_cut_witness :
  handle_request 4096 recv_bufsize 24 inet_pton_v4
    (map ReadOk [line "request=1" ++ str "leaset"; str "ime=60" ++ [NL; NL]]
     ++ [])
    accepted
  = Ret (if 0 <? 0
         then CallError
                {| cmd := WGKEY_REQUEST; fd := 3; version := 1; buf := None;
                   buflen := 0;
                   attrs := [{| key := WGKEY_LEASETIME; len := 4;
                                value := D_uint32 60 |}] |} (- 0)
         else CallSuccess
                {| cmd := WGKEY_REQUEST; fd := 3; version := 1; buf := None;
                   buflen := 0;
                   attrs := [{| key := WGKEY_LEASETIME; len := 4;
                                value := D_uint32 60 |}] |}).
Proof.
  apply (handle_request_any_cut 4096 recv_bufsize 24 inet_pton_v4
           (recv_bufsize + 4096)
           [line "request=1" ++ str "leaset"; str "ime=60" ++ [NL; NL]]
           [] accepted 0
           {| cmd := WGKEY_REQUEST; fd := 3; version := 1; buf := None;
              buflen := 0;
              attrs := [{| key := WGKEY_LEASETIME; len := 4;
                           value := D_uint32 60 |}] |}).
  - apply reachable_accept. reflexivity.
  - discriminate.
  - reflexivity.
  - apply Forall_cons; [apply Nat.leb_le; vm_compute; reflexivity|].
    apply Forall_cons; [apply Nat.leb_le; vm_compute; reflexivity|].
    apply Forall_nil.
  - reflexivity.
  - vm_compute. reflexivity.
  - discriminate.
  - vm_compute. discriminate.
Defined.

Lemma bounded_reads_never_overrun_witness :
  handle_request 4096 recv_bufsize 24 inet_pton_v4
    [ReadOk (line "request=1" ++ str "leaset");
     ReadOk (str "ime=60" ++ [NL; NL])] accepted
  <> Undefined.
Proof.
  apply bounded_reads_never_overrun.
  - apply reachable_accept. reflexivity.
  - apply Forall_cons; [apply Nat.leb_le; vm_compute; reflexivity|].
    apply Forall_cons; [apply Nat.leb_le; vm_compute; reflexivity|].
    apply Forall_nil.
Defined.

Lemma line_without_equals_rejected_witness :
  parse_line 4096 24 inet_pton_v4 (str "garbage" ++ NL :: []) None
  = Ret {| lr_ret := - EINVAL; lr_attr := None; lr_req := None |}.
Proof.
  apply line_without_equals_rejected;
    [discriminate | apply Nat.ltb_lt; vm_compute; reflexivity
    | reflexivity | reflexivity].
Defined.

Lemma send_message_true_witness :
  send_message [WriteOk 2; WriteOk 3] accepted (str "hello")
  = Ret (true, accepted).
Proof.
  apply (send_message_true [WriteOk 2; WriteOk 3] [2; 3]%nat 0 []).
  left. split; [discriminate|].
  split; [apply Nat.leb_le; reflexivity | reflexivity].
Defined.

Lemma resend_keeps_suffix_witness :
  send_message [WriteOk 1; WriteFail EAGAIN]
    {| cmd := WGKEY_REQUEST; fd := 3; version := 1;
       buf := Some (str "hello"); buflen := 3; attrs := [] |}
    (pending_bytes
       {| cmd := WGKEY_REQUEST; fd := 3; version := 1;
          buf := Some (str "hello"); buflen := 3; attrs := [] |})
  <> Undefined.
Proof.
  apply (resend_keeps_suffix [WriteOk 1; WriteFail EAGAIN]).
  apply Nat.leb_le. reflexivity.
Defined.

Lemma print_to_buf_bounds_witness :
  exists buf',
    print_to_buf (repeat NUL 16) 16 0 (Some (str "ipv4="))
      = Ret (buf', (0 + length (str "ipv4="))%nat) /\
    length buf' = 16%nat /\
    buf' = firstn 0 (repeat NUL 16) ++ str "ipv4="
             ++ NUL :: skipn (0 + length (str "ipv4=") + 1) (repeat NUL 16).
Proof.
  destruct (print_to_buf_bounds (repeat NUL 16) 16 0 (str "ipv4=") eq_refl)
    as [Hfits _].
  - apply Nat.leb_le. reflexivity.
  - apply Hfits. apply Nat.ltb_lt. reflexivity.
Defined.

Lemma print_all_appends_witness :
  print_all (repeat NUL 8) 8 0 [str "errno="; str "12"] = Abort.
Proof.
  destruct (print_all_appends (repeat NUL 8) 8 0 [str "errno="; str "12"]
              eq_refl) as [_ Hover].
  - apply Nat.leb_le. reflexivity.
  - discriminate.
  - apply Hover. apply Nat.leb_le. reflexivity.
Defined.

Lemma is_link_local_range_witness :
  is_link_local [xfe; x80; x00; x01; x00; x00; x00; x00;
                 x00; x00; x00; x00; x00; x00; x00; x01] = true.
Proof.
  apply (proj2 (is_link_local_range xfe x80 _)).
  vm_compute. split; discriminate.
Defined.

Lemma data_attr_cb_in_bounds_witness :
  exists tb',
    data_attr_cb 8 (fun _ => 0)
      {| nla_len := 8; nla_type := 1; nla_payload := [xc0; xa8; x01; x05] |}
      (repeat None 9) = Ret (MNL_CB_OK, tb') /\
    length tb' = length (repeat (@None nlattr) 9) /\
    nth_error tb'
      (Z.to_nat (mnl_attr_get_type
                   {| nla_len := 8; nla_type := 1;
                      nla_payload := [xc0; xa8; x01; x05] |}))
    = Some (Some {| nla_len := 8; nla_type := 1;
                    nla_payload := [xc0; xa8; x01; x05] |}) /\
    forall j,
      j <> Z.to_nat (mnl_attr_get_type
                       {| nla_len := 8; nla_type := 1;
                          nla_payload := [xc0; xa8; x01; x05] |}) ->
      nth_error tb' j = nth_error (repeat None 9) j.
Proof.
  destruct (data_attr_cb_in_bounds 8 (fun _ => 0)
              {| nla_len := 8; nla_type := 1;
                 nla_payload := [xc0; xa8; x01; x05] |}
              (repeat None 9)) as (_ & _ & Hstored).
  - vm_compute. discriminate.
  - reflexivity.
  - apply Hstored.
    + vm_compute. discriminate.
    + right. vm_compute. discriminate.
Defined.

Lemma splice_can_overrun_witness :
  exists r chunk,
    reachable 4096 24 inet_pton_v4 r /\ has_fragment r = true /\
    chunk <> [] /\ (length chunk <= recv_bufsize)%nat /\ nul_free chunk /\
    (recv_bufsize + 4096 < splice_end r chunk)%nat /\
    parse_request 4096 24 inet_pton_v4 (recv_bufsize + 4096) r chunk
      = Undefined.
Proof.
  apply (splice_can_overrun 4096 24 inet_pton_v4 recv_bufsize);
    apply Nat.leb_le; reflexivity.
Defined.

Lemma decimal_round_trip_witness :
  parse_value 24 inet_pton_v4 WGKEY_LEASETIME (decimal_text 3600)
  = Ret (Some {| key := WGKEY_LEASETIME; len := 4; value := D_uint32 3600 |}).
Proof.
  apply decimal_round_trip; [reflexivity|].
  vm_compute. split; discriminate.
Defined.
